(** * The NoC simulation kernel of xls/noc/simulation/sim_objects.cc

    A shallow embedding of the cycle driver ([NocSimulator::RunCycle],
    [NocSimulator::Tick]), of the base-class [Tick] and of the four
    simulated components (source interface, link, input-buffered VC
    router, sink interface), followed by the properties of the kernel.

    Conventions.
    - [int64] values are integers of [Z].  Signed overflow is undefined in
      C++ and no counter of the kernel is meant to wrap; where an [int64]
      that is not a loop counter is compared with a size
      ([state_.size() > stage_count_], [vc_index < data_to_send_.size()])
      its conversion to the unsigned type is written out.
    - Loop counters and vector positions are [nat]; an integer read from a
      phit or returned by the routing table is a [Z] and is converted (with
      its range check) where it is used as a position.
    - A [std::vector] is a list; a [std::queue] is a list whose head is the
      front of the queue.
    - The process can stop without returning: a failed [XLS_CHECK_OK], an
      exception of [vector::at] that nobody catches, or an access outside a
      vector with [operator[]].  These are the three [Fault]s; every
      function that can meet one returns a [Res].
    - Log statements are not modelled. *)

From Stdlib Require Import ZArith Lia Bool.
From stdpp Require Import base tactics option list numbers.

Local Open Scope Z_scope.

(** ** Abnormal termination *)

Inductive Fault : Type :=
| CheckFailure          (* XLS_CHECK_OK on a non-ok status: process abort *)
| OutOfRangeException   (* vector::at / Span::at outside the container *)
| UndefinedAccess.      (* operator[] outside the container *)

Inductive Res (A : Type) : Type :=
| Done (a : A)
| Abort (f : Fault).
Arguments Done {A} a.
Arguments Abort {A} f.

#[global] Instance Res_ret : MRet Res := fun _ a => Done a.
#[global] Instance Res_bind : MBind Res := fun _ _ k m =>
  match m with
  | Done a => k a
  | Abort f => Abort f
  end.

(** [v[i]]: outside the vector the behaviour is undefined. *)
Definition subscript {A} (v : list A) (i : nat) : Res A :=
  match v !! i with
  | Some x => Done x
  | None => Abort UndefinedAccess
  end.

(** [v.at(i)]: outside the vector [std::out_of_range] is thrown. *)
Definition at_ {A} (v : list A) (i : nat) : Res A :=
  match v !! i with
  | Some x => Done x
  | None => Abort OutOfRangeException
  end.

(** An [int64] used as a position: a negative value converts to a [size_t]
    beyond every container. *)
Definition position (z : Z) : option nat :=
  if z <? 0 then None else Some (Z.to_nat z).

Definition subscriptZ {A} (v : list A) (z : Z) : Res A :=
  match position z with
  | Some i => subscript v i
  | None => Abort UndefinedAccess
  end.

Definition atZ {A} (v : list A) (z : Z) : Res A :=
  match position z with
  | Some i => at_ v i
  | None => Abort OutOfRangeException
  end.

(** [for (i = 0; i < n; ++i) body], as a fold over the list of counters. *)
Fixpoint for_each {I S} (ixs : list I) (body : I → S → Res S) (s : S)
  : Res S :=
  match ixs with
  | [] => Done s
  | i :: rest => s1 ← body i s; for_each rest body s1
  end.

Definition for_upto {S} (n : nat) (body : nat → S → Res S) (s : S) : Res S :=
  for_each (seq 0 n) body s.

(** The conversion of an [int64] to the unsigned 64-bit type it is compared
    with. *)
Definition to_uint64 (z : Z) : Z := z mod 2 ^ 64.

(** The value that an [int64] holds after an addition whose result is [z]:
    outside the range of the type the sum wraps around, as two's-complement
    addition does. *)
Definition wrap_int64 (z : Z) : Z := (z + 2 ^ 63) mod 2 ^ 64 - 2 ^ 63.

(** ** Phits *)

(** Modelled from the spec: the types of the phits, of the connection
    state, of the credit state and of the input buffers are declared in
    the header of the kernel, which is not part of the sources.  The
    records have the members that the data model of the spec lists and
    that the kernel reads and assigns. *)

Module DataPhit.
Record t : Type := mk {
  valid : bool;
  destination_index : Z;
  vc : Z;
  data : Z
}.
Definition set_valid (b : bool) (p : t) : t :=
  mk b (destination_index p) (vc p) (data p).
Definition set_destination_index (d : Z) (p : t) : t :=
  mk (valid p) d (vc p) (data p).
Definition set_vc (v : Z) (p : t) : t :=
  mk (valid p) (destination_index p) v (data p).
Definition set_data (d : Z) (p : t) : t :=
  mk (valid p) (destination_index p) (vc p) d.
End DataPhit.

Module MetadataPhit.
Record t : Type := mk {
  valid : bool;
  data : Z
}.
Definition set_valid (b : bool) (p : t) : t := mk b (data p).
Definition set_data (d : Z) (p : t) : t := mk (valid p) d.
End MetadataPhit.

(** The two phit types as the pipeline template sees them: a type with a
    [valid] and a [data] member that can be assigned. *)
Class Phit (T : Type) : Type := {
  phit_set_valid : bool → T → T;
  phit_set_data : Z → T → T
}.

#[global] Instance DataPhit_Phit : Phit DataPhit.t :=
  {| phit_set_valid := DataPhit.set_valid;
     phit_set_data := DataPhit.set_data |}.
#[global] Instance MetadataPhit_Phit : Phit MetadataPhit.t :=
  {| phit_set_valid := MetadataPhit.set_valid;
     phit_set_data := MetadataPhit.set_data |}.

(** [TimedDataPhit] and [TimedMetadataPhit]. *)
Record Timed (T : Type) : Type := mkTimed {
  cycle : Z;
  phit : T
}.
Arguments mkTimed {T} cycle phit.
Arguments cycle {T} t.
Arguments phit {T} t.

Abbreviation TimedDataPhit := (Timed DataPhit.t).
Abbreviation TimedMetadataPhit := (Timed MetadataPhit.t).

(** ** SimConnectionState *)

Record SimConnectionState : Type := mkConnection {
  id : Z;
  forward_channels : TimedDataPhit;
  reverse_channels : list TimedMetadataPhit
}.

Definition set_forward_channels (f : TimedDataPhit) (c : SimConnectionState)
  : SimConnectionState :=
  mkConnection (id c) f (reverse_channels c).

Definition set_reverse_channel (v : nat) (r : TimedMetadataPhit)
    (c : SimConnectionState) : SimConnectionState :=
  mkConnection (id c) (forward_channels c) (<[v := r]> (reverse_channels c)).

(** Modelled from the spec: [simulator.GetSimConnectionByIndex(index)] is
    declared in the header; components refer to connections by integer
    indices into the connection table that the simulator owns.  The
    result is a reference into [connections_]; an index outside the
    table is an access outside the vector. *)
Definition GetSimConnectionByIndex (connections : list SimConnectionState)
    (index : nat) : Res SimConnectionState :=
  subscript connections index.

(** Assignment through such a reference. *)
Definition write_forward (index : nat) (f : TimedDataPhit)
    (connections : list SimConnectionState) : list SimConnectionState :=
  alter (set_forward_channels f) index connections.

Definition write_reverse (index v : nat) (r : TimedMetadataPhit)
    (connections : list SimConnectionState) : list SimConnectionState :=
  alter (set_reverse_channel v r) index connections.

(** ** SimplePipelineImpl *)

Module SimplePipelineImpl.
Record t (T : Type) : Type := mk {
  stage_count_ : Z;
  from_ : Timed T;
  to_ : Timed T;
  state_ : list T
}.
Arguments mk {T} _ _ _ _.
Arguments stage_count_ {T} _.
Arguments from_ {T} _.
Arguments to_ {T} _.
Arguments state_ {T} _.

Definition TryPropagation {T} `{Phit T} (current_cycle : Z) (p : t T)
  : bool * t T :=
  if cycle (from_ p) =? current_cycle then
    if cycle (to_ p) =? current_cycle then (true, p)
    else
      let pushed := state_ p ++ [phit (from_ p)] in
      if to_uint64 (stage_count_ p) <? Z.of_nat (length pushed) then
        match pushed with
        | front :: rest =>
            (false, mk (stage_count_ p) (from_ p)
                       (mkTimed current_cycle front) rest)
        | [] => (false, p)   (* not reached: [pushed] has an element *)
        end
      else
        (false, mk (stage_count_ p) (from_ p)
                   (mkTimed current_cycle
                      (phit_set_data 0 (phit_set_valid false (phit (to_ p)))))
                   pushed)
  else (false, p).
End SimplePipelineImpl.

(** ** The simulator as a component sees it *)

(** [absl::Status], with the arguments of the message. *)
Inductive Status : Type :=
| OkStatus
| InternalError (nticks cycle : Z)     (* RunCycle: unable to converge *)
| OutOfRangeError (vc_index max : Z).  (* SendPhitAtTime *)

Inductive PortDirection : Type := kInput | kOutput.

Record PortAndVCIndex : Type := mkPortAndVCIndex {
  port_id_ : Z;
  vc_index_ : Z
}.

Record PortIndexAndVCIndex : Type := mkPortIndexAndVCIndex {
  port_index : Z;
  vc_index : Z
}.

(** Modelled from the spec: the routing table is a collaborator of the
    kernel whose code is not part of this file.  Its three queries are
    taken as they are called in [GetDestinationPortIndexAndVcIndex]; each
    returns a [StatusOr], [None] standing for a status that is not ok. *)
Record DistributedRoutingTable : Type := mkRoutingTable {
  GetPortByIndex : Z → PortDirection → Z → option Z;
  GetRouterOutputPortByIndex : PortAndVCIndex → Z → option PortAndVCIndex;
  GetPortIndex : Z → PortDirection → option Z
}.

(** Modelled from the spec: the accessors of [NocSimulator] that the
    components call ([GetCurrentCycle], [GetRoutingTable],
    [GetConnectionIndicesStore]) are declared in the header.  A component
    receives [NocSimulator&] and uses it for the current cycle, the
    routing table, the shared store of connection indices and the
    connection states.  The first three are only read and form the view;
    the connection states are passed and returned next to it. *)
Record SimulatorView : Type := mkView {
  GetCurrentCycle : Z;
  GetRoutingTable : DistributedRoutingTable;
  component_to_connection_index_ : list nat
}.

(** Modelled from the spec: [GetConnectionIndicesStore(start, size)]
    returns an [absl::Span<int64>] over the shared store of connection
    indices, the [size] entries from [start] on.  In a span, [operator[]]
    outside the span is undefined and [at] throws. *)
Record Span : Type := mkSpan {
  span_start : nat;
  span_size : nat
}.

Definition span_subscript (sim : SimulatorView) (sp : Span) (i : nat)
  : Res nat :=
  if (i <? span_size sp)%nat
  then subscript (component_to_connection_index_ sim) (span_start sp + i)
  else Abort UndefinedAccess.

Definition span_at (sim : SimulatorView) (sp : Span) (z : Z) : Res nat :=
  match position z with
  | Some i =>
      if (i <? span_size sp)%nat
      then subscript (component_to_connection_index_ sim) (span_start sp + i)
      else Abort OutOfRangeException
  | None => Abort OutOfRangeException
  end.

(** ** SimNetworkComponentBase *)

Record SimNetworkComponentBase : Type := mkBase {
  id_ : Z;
  forward_propagated_cycle_ : Z;
  reverse_propagated_cycle_ : Z
}.

Definition set_forward_propagated_cycle (k : Z) (b : SimNetworkComponentBase)
  : SimNetworkComponentBase :=
  mkBase (id_ b) k (reverse_propagated_cycle_ b).

Definition set_reverse_propagated_cycle (k : Z) (b : SimNetworkComponentBase)
  : SimNetworkComponentBase :=
  mkBase (id_ b) (forward_propagated_cycle_ b) k.

Abbreviation Connections := (list SimConnectionState).

(** The virtual interface of the base class.  A propagation returns its
    flag together with the component and the connection states as it
    leaves them. *)
Class SimNetworkComponent (C : Type) : Type := {
  base : C → SimNetworkComponentBase;
  with_base : SimNetworkComponentBase → C → C;
  TryForwardPropagation :
    SimulatorView → C → Connections → Res (bool * C * Connections);
  TryReversePropagation :
    SimulatorView → C → Connections → Res (bool * C * Connections)
}.

Section Tick.
Context {C : Type} `{SimNetworkComponent C}.

Definition forward_phase (sim : SimulatorView) (c : C) (conns : Connections)
  : Res (bool * C * Connections) :=
  let cycle := GetCurrentCycle sim in
  if forward_propagated_cycle_ (base c) =? cycle then Done (true, c, conns)
  else
    '(ok, c1, conns1) ← TryForwardPropagation sim c conns;
    if ok : bool
    then Done (true,
               with_base (set_forward_propagated_cycle cycle (base c1)) c1,
               conns1)
    else Done (false, c1, conns1).

Definition reverse_phase (sim : SimulatorView) (c : C) (conns : Connections)
  : Res (bool * C * Connections) :=
  let cycle := GetCurrentCycle sim in
  if reverse_propagated_cycle_ (base c) =? cycle then Done (true, c, conns)
  else
    '(ok, c1, conns1) ← TryReversePropagation sim c conns;
    if ok : bool
    then Done (true,
               with_base (set_reverse_propagated_cycle cycle (base c1)) c1,
               conns1)
    else Done (false, c1, conns1).

(** [SimNetworkComponentBase::Tick]. *)
Definition Tick (sim : SimulatorView) (c : C) (conns : Connections)
  : Res (bool * C * Connections) :=
  '(fwd, c1, conns1) ← forward_phase sim c conns;
  '(rev, c2, conns2) ← reverse_phase sim c1 conns1;
  Done (fwd && rev, c2, conns2).
End Tick.

(** ** SimLink *)

Module SimLink.
Record t : Type := mk {
  base_ : SimNetworkComponentBase;
  forward_pipeline_stages_ : Z;
  reverse_pipeline_stages_ : Z;
  src_connection_index_ : nat;
  sink_connection_index_ : nat;
  forward_data_stages_ : list DataPhit.t;
  reverse_credit_stages_ : list (list MetadataPhit.t)
}.

Definition set_base (b : SimNetworkComponentBase) (l : t) : t :=
  mk b (forward_pipeline_stages_ l) (reverse_pipeline_stages_ l)
     (src_connection_index_ l) (sink_connection_index_ l)
     (forward_data_stages_ l) (reverse_credit_stages_ l).
Definition set_forward_data_stages (q : list DataPhit.t) (l : t) : t :=
  mk (base_ l) (forward_pipeline_stages_ l) (reverse_pipeline_stages_ l)
     (src_connection_index_ l) (sink_connection_index_ l)
     q (reverse_credit_stages_ l).
Definition set_reverse_credit_stages (q : list (list MetadataPhit.t))
    (l : t) : t :=
  mk (base_ l) (forward_pipeline_stages_ l) (reverse_pipeline_stages_ l)
     (src_connection_index_ l) (sink_connection_index_ l)
     (forward_data_stages_ l) q.

Definition TryForwardPropagation (sim : SimulatorView) (l : t)
    (conns : Connections) : Res (bool * t * Connections) :=
  src ← GetSimConnectionByIndex conns (src_connection_index_ l);
  sink ← GetSimConnectionByIndex conns (sink_connection_index_ l);
  let '(did_propagate, p) :=
    SimplePipelineImpl.TryPropagation (GetCurrentCycle sim)
      (SimplePipelineImpl.mk (forward_pipeline_stages_ l)
         (forward_channels src) (forward_channels sink)
         (forward_data_stages_ l)) in
  let l1 := set_forward_data_stages (SimplePipelineImpl.state_ p) l in
  let conns1 :=
    write_forward (sink_connection_index_ l) (SimplePipelineImpl.to_ p)
      conns in
  if did_propagate
  then Done (true,
             set_base (set_forward_propagated_cycle (GetCurrentCycle sim)
                         (base_ l1)) l1,
             conns1)
  else Done (false, l1, conns1).

(** One turn of the loop over the virtual channels: the pipeline of
    channel [vc], from the reverse channel of the downstream connection
    to the one of the upstream connection. *)
Definition reverse_lane (sim : SimulatorView) (l : t) (vc : nat)
    (st : Z * list (list MetadataPhit.t) * Connections)
  : Res (Z * list (list MetadataPhit.t) * Connections) :=
  let '(num_propagated, stages, conns) := st in
  src ← GetSimConnectionByIndex conns (src_connection_index_ l);
  sink ← GetSimConnectionByIndex conns (sink_connection_index_ l);
  from ← at_ (reverse_channels sink) vc;
  to ← at_ (reverse_channels src) vc;
  state ← at_ stages vc;
  let '(ok, p) :=
    SimplePipelineImpl.TryPropagation (GetCurrentCycle sim)
      (SimplePipelineImpl.mk (reverse_pipeline_stages_ l) from to state) in
  Done (if ok then num_propagated + 1 else num_propagated,
        <[vc := SimplePipelineImpl.state_ p]> stages,
        write_reverse (src_connection_index_ l) vc
          (SimplePipelineImpl.to_ p) conns).

Definition TryReversePropagation (sim : SimulatorView) (l : t)
    (conns : Connections) : Res (bool * t * Connections) :=
  _ ← GetSimConnectionByIndex conns (src_connection_index_ l);
  sink ← GetSimConnectionByIndex conns (sink_connection_index_ l);
  let vc_count := length (reverse_channels sink) in
  '(num_propagated, stages, conns1) ←
    for_upto vc_count (reverse_lane sim l)
      (0, reverse_credit_stages_ l, conns);
  let l1 := set_reverse_credit_stages stages l in
  if num_propagated =? Z.of_nat vc_count
  then Done (true,
             set_base (set_reverse_propagated_cycle (GetCurrentCycle sim)
                         (base_ l1)) l1,
             conns1)
  else Done (false, l1, conns1).
End SimLink.

#[global] Instance SimLink_component : SimNetworkComponent SimLink.t := {|
  base := SimLink.base_;
  with_base := SimLink.set_base;
  TryForwardPropagation := SimLink.TryForwardPropagation;
  TryReversePropagation := SimLink.TryReversePropagation
|}.

(** ** Credit state *)

Module CreditState.
Record t : Type := mk {
  cycle : Z;
  credit : Z
}.
End CreditState.

(** The pending update, as both reverse propagations store it. *)
Definition received_credit (current_cycle : Z)
    (possible_credit : TimedMetadataPhit) : CreditState.t :=
  CreditState.mk current_cycle
    (if MetadataPhit.valid (phit possible_credit)
     then MetadataPhit.data (phit possible_credit)
     else 0).

(** The phit written on an output that sends nothing. *)
Definition bubble : DataPhit.t := DataPhit.mk false 0 0 0.

(** ** SimNetworkInterfaceSrc *)

Module SimNetworkInterfaceSrc.
Record t : Type := mk {
  base_ : SimNetworkComponentBase;
  sink_connection_index_ : nat;
  data_to_send_ : list (list TimedDataPhit);
  credit_ : list Z;
  credit_update_ : list CreditState.t
}.

Definition set_base (b : SimNetworkComponentBase) (s : t) : t :=
  mk b (sink_connection_index_ s) (data_to_send_ s) (credit_ s)
     (credit_update_ s).
Definition set_data_to_send (d : list (list TimedDataPhit)) (s : t) : t :=
  mk (base_ s) (sink_connection_index_ s) d (credit_ s) (credit_update_ s).
Definition set_credit (c : list Z) (s : t) : t :=
  mk (base_ s) (sink_connection_index_ s) (data_to_send_ s) c
     (credit_update_ s).
Definition set_credit_update (u : list CreditState.t) (s : t) : t :=
  mk (base_ s) (sink_connection_index_ s) (data_to_send_ s) (credit_ s) u.

(** The state that [InitializeImpl] builds from the number of virtual
    channels of the port, the cycle of the simulator and the index of
    the connection of port 0. *)
Definition InitializeImpl (b : SimNetworkComponentBase)
    (virtual_channel_count : nat) (current_cycle : Z)
    (sink_connection_index : nat) : t :=
  mk b sink_connection_index
     (replicate virtual_channel_count [])
     (replicate virtual_channel_count 0)
     (replicate virtual_channel_count (CreditState.mk current_cycle 0)).

Definition SendPhitAtTime (p : TimedDataPhit) (s : t) : Status * t :=
  let vc_index := DataPhit.vc (phit p) in
  if to_uint64 vc_index <? Z.of_nat (length (data_to_send_ s))
  then (OkStatus,
        set_data_to_send
          (alter (λ q, q ++ [p]) (Z.to_nat vc_index) (data_to_send_ s)) s)
  else (OutOfRangeError vc_index (Z.of_nat (length (data_to_send_ s))), s).

(** "Update credits": one turn of the loop over [credit_]. *)
Definition add_credit_update (updates : list CreditState.t) (vc : nat)
    (credit : list Z) : Res (list Z) :=
  u ← subscript updates vc;
  if 0 <? CreditState.credit u
  then
    c ← subscript credit vc;
    Done (<[vc := wrap_int64 (c + CreditState.credit u)]> credit)
  else Done credit.

(** "Send data": the loop over [data_to_send_], left at the first
    channel that sends. *)
Fixpoint send_data (sim : SimulatorView) (vcs : list nat) (s : t)
    (conns : Connections) : Res (bool * t * Connections) :=
  match vcs with
  | [] => Done (false, s, conns)
  | vc :: rest =>
      send_queue ← subscript (data_to_send_ s) vc;
      match send_queue with
      | front :: popped =>
          if cycle front <=? GetCurrentCycle sim then
            credit ← subscript (credit_ s) vc;
            if 0 <? credit then
              Done (true,
                    set_data_to_send (<[vc := popped]> (data_to_send_ s))
                      (set_credit (<[vc := credit - 1]> (credit_ s)) s),
                    write_forward (sink_connection_index_ s)
                      (mkTimed (GetCurrentCycle sim)
                         (DataPhit.set_valid true
                            (DataPhit.set_vc (Z.of_nat vc) (phit front))))
                      conns)
            else send_data sim rest s conns
          else send_data sim rest s conns
      | [] => send_data sim rest s conns
      end
  end.

Definition TryForwardPropagation (sim : SimulatorView) (s : t)
    (conns : Connections) : Res (bool * t * Connections) :=
  let current_cycle := GetCurrentCycle sim in
  _ ← GetSimConnectionByIndex conns (sink_connection_index_ s);
  credit ← for_upto (length (credit_ s))
              (add_credit_update (credit_update_ s)) (credit_ s);
  let s1 := set_credit credit s in
  '(did_send_phit, s2, conns2) ←
    send_data sim (seq 0 (length (data_to_send_ s1))) s1 conns;
  let conns3 :=
    if did_send_phit : bool then conns2
    else write_forward (sink_connection_index_ s)
           (mkTimed current_cycle bubble) conns2 in
  Done (true,
        set_base (set_forward_propagated_cycle current_cycle (base_ s2)) s2,
        conns3).

(** One turn of the loop over [credit_update_]. *)
Definition receive_credit (sim : SimulatorView) (sink_index : nat)
    (conns : Connections) (vc : nat) (st : Z * list CreditState.t)
  : Res (Z * list CreditState.t) :=
  let '(num_propagated, updates) := st in
  sink ← GetSimConnectionByIndex conns sink_index;
  possible_credit ← subscript (reverse_channels sink) vc;
  if cycle possible_credit =? GetCurrentCycle sim then
    u ← subscript updates vc;
    let updates1 :=
      if CreditState.cycle u =? GetCurrentCycle sim then updates
      else <[vc := received_credit (GetCurrentCycle sim) possible_credit]>
             updates in
    Done (num_propagated + 1, updates1)
  else Done (num_propagated, updates).

Definition TryReversePropagation (sim : SimulatorView) (s : t)
    (conns : Connections) : Res (bool * t * Connections) :=
  let current_cycle := GetCurrentCycle sim in
  _ ← GetSimConnectionByIndex conns (sink_connection_index_ s);
  let vc_count := length (credit_update_ s) in
  '(num_propagated, updates) ←
    for_upto vc_count
      (receive_credit sim (sink_connection_index_ s) conns)
      (0, credit_update_ s);
  let s1 := set_credit_update updates s in
  if num_propagated =? Z.of_nat vc_count
  then Done (true,
             set_base (set_reverse_propagated_cycle current_cycle
                         (base_ s1)) s1,
             conns)
  else Done (false, s1, conns).
End SimNetworkInterfaceSrc.

#[global] Instance SimNetworkInterfaceSrc_component
  : SimNetworkComponent SimNetworkInterfaceSrc.t := {|
  base := SimNetworkInterfaceSrc.base_;
  with_base := SimNetworkInterfaceSrc.set_base;
  TryForwardPropagation := SimNetworkInterfaceSrc.TryForwardPropagation;
  TryReversePropagation := SimNetworkInterfaceSrc.TryReversePropagation
|}.

(** ** Input buffers *)

Module InputBuffer.
Record t : Type := mk {
  queue : list DataPhit.t;
  max_queue_size : Z
}.
Definition set_queue (q : list DataPhit.t) (b : t) : t :=
  mk q (max_queue_size b).
End InputBuffer.

(** ** SimNetworkInterfaceSink *)

Module SimNetworkInterfaceSink.
Record t : Type := mk {
  base_ : SimNetworkComponentBase;
  src_connection_index_ : nat;
  input_buffers_ : list InputBuffer.t;
  received_traffic_ : list TimedDataPhit
}.

Definition set_base (b : SimNetworkComponentBase) (s : t) : t :=
  mk b (src_connection_index_ s) (input_buffers_ s) (received_traffic_ s).
Definition set_received_traffic (r : list TimedDataPhit) (s : t) : t :=
  mk (base_ s) (src_connection_index_ s) (input_buffers_ s) r.

(** The state that [InitializeImpl] builds from the depths of the virtual
    channels of the port and the index of the connection of port 0. *)
Definition InitializeImpl (b : SimNetworkComponentBase) (depths : list Z)
    (src_connection_index : nat) : t :=
  mk b src_connection_index (InputBuffer.mk [] <$> depths) [].

(** "In cycle 0, a full credit update is sent": one turn of the loop. *)
Definition full_credit_update (sim : SimulatorView) (s : t) (vc : nat)
    (conns : Connections) : Res Connections :=
  buffer ← subscript (input_buffers_ s) vc;
  Done (write_reverse (src_connection_index_ s) vc
          (mkTimed (GetCurrentCycle sim)
             (MetadataPhit.mk true (InputBuffer.max_queue_size buffer)))
          conns).

(** The loop of the other cycles: a channel that was not written in this
    cycle carries no credit. *)
Definition no_credit_update (sim : SimulatorView) (s : t) (vc : nat)
    (conns : Connections) : Res Connections :=
  src ← GetSimConnectionByIndex conns (src_connection_index_ s);
  channel ← subscript (reverse_channels src) vc;
  if cycle channel =? GetCurrentCycle sim then Done conns
  else Done (write_reverse (src_connection_index_ s) vc
               (mkTimed (GetCurrentCycle sim) (MetadataPhit.mk false 0))
               conns).

Definition TryForwardPropagation (sim : SimulatorView) (s : t)
    (conns : Connections) : Res (bool * t * Connections) :=
  let current_cycle := GetCurrentCycle sim in
  src ← GetSimConnectionByIndex conns (src_connection_index_ s);
  if cycle (forward_channels src) =? current_cycle then
    '(s1, conns1) ←
      (if DataPhit.valid (phit (forward_channels src)) then
         _ ← subscriptZ (reverse_channels src)
               (DataPhit.vc (phit (forward_channels src)));
         Done (set_received_traffic
                 (received_traffic_ s ++
                    [mkTimed current_cycle (phit (forward_channels src))]) s,
               write_reverse (src_connection_index_ s)
                 (Z.to_nat (DataPhit.vc (phit (forward_channels src))))
                 (mkTimed current_cycle (MetadataPhit.mk true 1)) conns)
       else Done (s, conns));
    conns2 ←
      (if current_cycle =? 0
       then for_upto (length (reverse_channels src))
              (full_credit_update sim s1) conns1
       else for_upto (length (reverse_channels src))
              (no_credit_update sim s1) conns1);
    Done (true, s1, conns2)
  else Done (false, s, conns).

(** Modelled from the spec: the sink does not define a reverse
    propagation in this file; it inherits the one of the base class,
    whose declaration is not part of the file.  The spec gives the sink
    a forward propagation only and lets a tick converge once both phases
    have succeeded: the inherited phase succeeds and touches nothing. *)
Definition TryReversePropagation (sim : SimulatorView) (s : t)
    (conns : Connections) : Res (bool * t * Connections) :=
  Done (true, s, conns).
End SimNetworkInterfaceSink.

#[global] Instance SimNetworkInterfaceSink_component
  : SimNetworkComponent SimNetworkInterfaceSink.t := {|
  base := SimNetworkInterfaceSink.base_;
  with_base := SimNetworkInterfaceSink.set_base;
  TryForwardPropagation := SimNetworkInterfaceSink.TryForwardPropagation;
  TryReversePropagation := SimNetworkInterfaceSink.TryReversePropagation
|}.

(** ** SimInputBufferedVCRouter *)

Module SimInputBufferedVCRouter.
Record t : Type := mk {
  base_ : SimNetworkComponentBase;
  input_connection_index_start_ : nat;
  input_connection_count_ : nat;
  output_connection_index_start_ : nat;
  output_connection_count_ : nat;
  input_buffers_ : list (list InputBuffer.t);
  input_credit_to_send_ : list (list Z);
  credit_ : list (list Z);
  credit_update_ : list (list CreditState.t);
  max_vc_ : nat;
  internal_propagated_cycle_ : Z
}.

Definition set_base (b : SimNetworkComponentBase) (r : t) : t :=
  mk b (input_connection_index_start_ r) (input_connection_count_ r)
     (output_connection_index_start_ r) (output_connection_count_ r)
     (input_buffers_ r) (input_credit_to_send_ r) (credit_ r)
     (credit_update_ r) (max_vc_ r) (internal_propagated_cycle_ r).
Definition set_input_buffers (x : list (list InputBuffer.t)) (r : t) : t :=
  mk (base_ r) (input_connection_index_start_ r) (input_connection_count_ r)
     (output_connection_index_start_ r) (output_connection_count_ r)
     x (input_credit_to_send_ r) (credit_ r)
     (credit_update_ r) (max_vc_ r) (internal_propagated_cycle_ r).
Definition set_input_credit_to_send (x : list (list Z)) (r : t) : t :=
  mk (base_ r) (input_connection_index_start_ r) (input_connection_count_ r)
     (output_connection_index_start_ r) (output_connection_count_ r)
     (input_buffers_ r) x (credit_ r)
     (credit_update_ r) (max_vc_ r) (internal_propagated_cycle_ r).
Definition set_credit (x : list (list Z)) (r : t) : t :=
  mk (base_ r) (input_connection_index_start_ r) (input_connection_count_ r)
     (output_connection_index_start_ r) (output_connection_count_ r)
     (input_buffers_ r) (input_credit_to_send_ r) x
     (credit_update_ r) (max_vc_ r) (internal_propagated_cycle_ r).
Definition set_credit_update (x : list (list CreditState.t)) (r : t) : t :=
  mk (base_ r) (input_connection_index_start_ r) (input_connection_count_ r)
     (output_connection_index_start_ r) (output_connection_count_ r)
     (input_buffers_ r) (input_credit_to_send_ r) (credit_ r)
     x (max_vc_ r) (internal_propagated_cycle_ r).
Definition set_internal_propagated_cycle (k : Z) (r : t) : t :=
  mk (base_ r) (input_connection_index_start_ r) (input_connection_count_ r)
     (output_connection_index_start_ r) (output_connection_count_ r)
     (input_buffers_ r) (input_credit_to_send_ r) (credit_ r)
     (credit_update_ r) (max_vc_ r) k.

(** The state that [InitializeImpl] builds: [input_depths] has the
    depths of the virtual channels of each input port,
    [output_vc_counts] the number of virtual channels of each output
    port; the two starts are the places that
    [GetNewConnectionIndicesStore] has handed out. *)
Definition InitializeImpl (b : SimNetworkComponentBase)
    (input_connection_index_start : nat) (input_depths : list (list Z))
    (output_connection_index_start : nat) (output_vc_counts : list nat)
    (current_cycle : Z) : t :=
  mk b
     input_connection_index_start (length input_depths)
     output_connection_index_start (length output_vc_counts)
     ((λ depths : list Z, InputBuffer.mk [] <$> depths) <$> input_depths)
     ((λ depths : list Z, replicate (length depths) 0) <$> input_depths)
     ((λ n : nat, replicate n 0) <$> output_vc_counts)
     ((λ n : nat, replicate n (CreditState.mk current_cycle 0))
        <$> output_vc_counts)
     (foldl (λ (max_vc : nat) (depths : list Z),
               if (max_vc <? length depths)%nat then length depths
               else max_vc) 0%nat input_depths)
     current_cycle.

(** The spans that [GetConnectionIndicesStore] returns for the inputs
    and for the outputs. *)
Definition input_connection_index (r : t) : Span :=
  mkSpan (input_connection_index_start_ r) (input_connection_count_ r).
Definition output_connection_index (r : t) : Span :=
  mkSpan (output_connection_index_start_ r) (output_connection_count_ r).

Definition GetDestinationPortIndexAndVcIndex (sim : SimulatorView) (r : t)
    (input : PortIndexAndVCIndex) (destination_index : Z)
  : option PortIndexAndVCIndex :=
  let routes := GetRoutingTable sim in
  input_port ← GetPortByIndex routes (id_ (base_ r)) kInput
                  (port_index input);
  port_to ← GetRouterOutputPortByIndex routes
               (mkPortAndVCIndex input_port (vc_index input))
               destination_index;
  output_port_index ← GetPortIndex routes (port_id_ port_to) kOutput;
  Some (mkPortIndexAndVCIndex output_port_index (vc_index_ port_to)).

(** "Update credits (for output ports)": the body of the two loops. *)
Definition add_credit_update (updates : list (list CreditState.t))
    (i vc : nat) (credit : list (list Z)) : Res (list (list Z)) :=
  row_u ← subscript updates i;
  u ← subscript row_u vc;
  if 0 <? CreditState.credit u
  then
    row ← subscript credit i;
    c ← subscript row vc;
    Done (<[i := <[vc := wrap_int64 (c + CreditState.credit u)]> row]>
            credit)
  else Done credit.

Definition add_credit_updates (updates : list (list CreditState.t))
    (credit : list (list Z)) : Res (list (list Z)) :=
  for_upto (length updates)
    (λ i credit,
       row_u ← subscript updates i;
       for_upto (length row_u) (add_credit_update updates i) credit)
    credit.

(** "See if we can propagate forward": the loop over the inputs, left at
    the first one that was not written in this cycle. *)
Fixpoint can_propagate_forward (sim : SimulatorView) (r : t)
    (conns : Connections) (inputs : list nat) : Res bool :=
  match inputs with
  | [] => Done true
  | i :: rest =>
      index ← span_subscript sim (input_connection_index r) i;
      input ← GetSimConnectionByIndex conns index;
      if cycle (forward_channels input) =? GetCurrentCycle sim
      then can_propagate_forward sim r conns rest
      else Done false
  end.

(** "Reset credits to send on reverse channel to 0". *)
Definition reset_credit_to_send (i : nat) (to_send : list (list Z))
  : Res (list (list Z)) :=
  row ← subscript to_send i;
  Done (<[i := replicate (length row) 0]> to_send).

(** A valid phit on input [i] enters the buffer of its channel. *)
Definition receive_phit (sim : SimulatorView) (r : t) (conns : Connections)
    (i : nat) (buffers : list (list InputBuffer.t))
  : Res (list (list InputBuffer.t)) :=
  index ← span_subscript sim (input_connection_index r) i;
  input ← GetSimConnectionByIndex conns index;
  if DataPhit.valid (phit (forward_channels input)) then
    let vc := DataPhit.vc (phit (forward_channels input)) in
    row ← subscript buffers i;
    buffer ← subscriptZ row vc;
    Done (<[i := <[Z.to_nat vc :=
                     InputBuffer.set_queue
                       (InputBuffer.queue buffer ++
                          [phit (forward_channels input)]) buffer]> row]>
            buffers)
  else Done buffers.

(** The body of the arbitration loops, for channel [vc] of input [i]. *)
Definition arbitrate (sim : SimulatorView) (pos : nat * nat)
    (st : t * Connections) : Res (t * Connections) :=
  let '(vc, i) := pos in
  let '(r, conns) := st in
  let current_cycle := GetCurrentCycle sim in
  buffers_i ← subscript (input_buffers_ r) i;
  if (length buffers_i <=? vc)%nat then Done st
  else
    buffer ← subscript buffers_i vc;
    match InputBuffer.queue buffer with
    | [] => Done st
    | phit :: popped =>
        match GetDestinationPortIndexAndVcIndex sim r
                (mkPortIndexAndVCIndex (Z.of_nat i) (Z.of_nat vc))
                (DataPhit.destination_index phit) with
        | None => Abort CheckFailure
        | Some output =>
            credit_row ← atZ (credit_ r) (port_index output);
            credit ← atZ credit_row (vc_index output);
            if credit <=? 0 then Done st
            else
              out_index ← span_at sim (output_connection_index r)
                             (port_index output);
              output_state ← GetSimConnectionByIndex conns out_index;
              if cycle (forward_channels output_state) =? current_cycle
              then Done st
              else
                to_send_row ← subscript (input_credit_to_send_ r) i;
                to_send ← subscript to_send_row vc;
                let r1 :=
                  set_credit
                    (<[Z.to_nat (port_index output) :=
                         <[Z.to_nat (vc_index output) := credit - 1]>
                           credit_row]> (credit_ r)) r in
                let r2 :=
                  set_input_credit_to_send
                    (<[i := <[vc := to_send + 1]> to_send_row]>
                       (input_credit_to_send_ r1)) r1 in
                let r3 :=
                  set_input_buffers
                    (<[i := <[vc := InputBuffer.set_queue popped buffer]>
                              buffers_i]> (input_buffers_ r2)) r2 in
                Done (r3,
                      write_forward out_index
                        (mkTimed current_cycle
                           (DataPhit.set_vc (vc_index output)
                              (DataPhit.set_valid true phit)))
                        conns)
        end
    end.

(** The order of the two loops: the channel first, then the input. *)
Definition arbitration_order (max_vc inputs : nat) : list (nat * nat) :=
  vc ← seq 0 max_vc; i ← seq 0 inputs; [(vc, i)].

Definition arbitration (sim : SimulatorView) (st : t * Connections)
  : Res (t * Connections) :=
  for_each
    (arbitration_order (max_vc_ (fst st)) (length (input_buffers_ (fst st))))
    (arbitrate sim) st.

(** "Now put bubbles in output ports that couldn't send data". *)
Definition fill_bubble (sim : SimulatorView) (r : t) (i : nat)
    (conns : Connections) : Res Connections :=
  index ← span_subscript sim (output_connection_index r) i;
  output ← GetSimConnectionByIndex conns index;
  if cycle (forward_channels output) =? GetCurrentCycle sim then Done conns
  else Done (write_forward index (mkTimed (GetCurrentCycle sim) bubble)
               conns).

(** The forward propagation before the arbitration: the credit updates,
    the test of the inputs and, when all of them were written in this
    cycle, the reset of the credit to send and the reception of the
    phits.  The flag is [can_propagate_forward]. *)
Definition prepare_arbitration (sim : SimulatorView) (r : t)
    (conns : Connections) : Res (bool * t) :=
  let current_cycle := GetCurrentCycle sim in
  r1 ← (if internal_propagated_cycle_ r =? current_cycle then Done r
        else
          credit ← add_credit_updates (credit_update_ r) (credit_ r);
          Done (set_internal_propagated_cycle current_cycle
                  (set_credit credit r)));
  ready ← can_propagate_forward sim r1 conns
             (seq 0 (input_connection_count_ r1));
  if ready : bool then
    to_send ← for_upto (input_connection_count_ r1) reset_credit_to_send
                 (input_credit_to_send_ r1);
    let r2 := set_input_credit_to_send to_send r1 in
    buffers ← for_upto (input_connection_count_ r2)
                 (receive_phit sim r2 conns) (input_buffers_ r2);
    Done (true, set_input_buffers buffers r2)
  else Done (false, r1).

Definition TryForwardPropagation (sim : SimulatorView) (r : t)
    (conns : Connections) : Res (bool * t * Connections) :=
  let current_cycle := GetCurrentCycle sim in
  '(ready, r3) ← prepare_arbitration sim r conns;
  if ready : bool then
    '(r4, conns4) ← arbitration sim (r3, conns);
    conns5 ← for_upto (output_connection_count_ r4) (fill_bubble sim r4)
                conns4;
    Done (true,
          set_base (set_forward_propagated_cycle current_cycle (base_ r4))
            r4,
          conns5)
  else Done (false, r3, conns).

(** "Send credit upstream": the body of the two loops. *)
Definition send_credit (sim : SimulatorView) (r : t) (index i vc : nat)
    (conns : Connections) : Res Connections :=
  data ← (if GetCurrentCycle sim =? 0 then
            row ← subscript (input_buffers_ r) i;
            buffer ← subscript row vc;
            Done (InputBuffer.max_queue_size buffer)
          else
            row ← subscript (input_credit_to_send_ r) i;
            subscript row vc);
  Done (write_reverse index vc
          (mkTimed (GetCurrentCycle sim) (MetadataPhit.mk true data)) conns).

Definition send_credits (sim : SimulatorView) (r : t) (i : nat)
    (conns : Connections) : Res Connections :=
  index ← span_subscript sim (input_connection_index r) i;
  input ← GetSimConnectionByIndex conns index;
  for_upto (length (reverse_channels input)) (send_credit sim r index i)
    conns.

(** "Receive credit from downstream": the body of the two loops.  The
    state is [num_propagated], [possible_propagation], [credit_update_]. *)
Definition receive_credit (sim : SimulatorView) (output : SimConnectionState)
    (i vc : nat) (st : Z * Z * list (list CreditState.t))
  : Res (Z * Z * list (list CreditState.t)) :=
  let '(num_propagated, possible_propagation, updates) := st in
  possible_credit ← subscript (reverse_channels output) vc;
  if cycle possible_credit =? GetCurrentCycle sim then
    row ← subscript updates i;
    u ← subscript row vc;
    let updates1 :=
      if CreditState.cycle u =? GetCurrentCycle sim then updates
      else <[i := <[vc := received_credit (GetCurrentCycle sim)
                             possible_credit]> row]> updates in
    Done (num_propagated + 1, possible_propagation + 1, updates1)
  else Done (num_propagated, possible_propagation + 1, updates).

Definition receive_credits (sim : SimulatorView) (r : t)
    (conns : Connections) (i : nat) (st : Z * Z * list (list CreditState.t))
  : Res (Z * Z * list (list CreditState.t)) :=
  index ← span_at sim (output_connection_index r) (Z.of_nat i);
  output ← GetSimConnectionByIndex conns index;
  row ← subscript (snd st) i;
  for_upto (length row) (receive_credit sim output i) st.

Definition TryReversePropagation (sim : SimulatorView) (r : t)
    (conns : Connections) : Res (bool * t * Connections) :=
  let current_cycle := GetCurrentCycle sim in
  if forward_propagated_cycle_ (base_ r) =? current_cycle then
    conns1 ← for_upto (input_connection_count_ r) (send_credits sim r)
                conns;
    '(num_propagated, possible_propagation, updates) ←
      for_upto (length (credit_update_ r)) (receive_credits sim r conns1)
        (0, 0, credit_update_ r);
    let r1 := set_credit_update updates r in
    if possible_propagation =? num_propagated
    then Done (true, r1, conns1)
    else Done (false, r1, conns1)
  else Done (false, r, conns).
End SimInputBufferedVCRouter.

#[global] Instance SimInputBufferedVCRouter_component
  : SimNetworkComponent SimInputBufferedVCRouter.t := {|
  base := SimInputBufferedVCRouter.base_;
  with_base := SimInputBufferedVCRouter.set_base;
  TryForwardPropagation := SimInputBufferedVCRouter.TryForwardPropagation;
  TryReversePropagation := SimInputBufferedVCRouter.TryReversePropagation
|}.

(** ** NocSimulator *)

(** The loop of [NocSimulator::Tick] over one vector of components:
    [converged &= nc.Tick( *this )] for each of them, in order. *)
Fixpoint tick_components {C} `{SimNetworkComponent C} (sim : SimulatorView)
    (ncs : list C) (converged : bool) (conns : Connections)
  : Res (bool * list C * Connections) :=
  match ncs with
  | [] => Done (converged, [], conns)
  | nc :: rest =>
      '(this_converged, nc1, conns1) ← Tick sim nc conns;
      '(converged1, rest1, conns2) ←
        tick_components sim rest (converged && this_converged) conns1;
      Done (converged1, nc1 :: rest1, conns2)
  end.

Module NocSimulator.
Record t : Type := mk {
  cycle_ : Z;
  routing_ : DistributedRoutingTable;
  indices_store_ : list nat;
  connections_ : Connections;
  network_interface_sources_ : list SimNetworkInterfaceSrc.t;
  links_ : list SimLink.t;
  routers_ : list SimInputBufferedVCRouter.t;
  network_interface_sinks_ : list SimNetworkInterfaceSink.t
}.

Definition view (s : t) : SimulatorView :=
  mkView (cycle_ s) (routing_ s) (indices_store_ s).

Definition set_cycle (k : Z) (s : t) : t :=
  mk k (routing_ s) (indices_store_ s) (connections_ s)
     (network_interface_sources_ s) (links_ s) (routers_ s)
     (network_interface_sinks_ s).

(** [NocSimulator::Tick]: sources, links, routers, sinks. *)
Definition Tick (s : t) : Res (bool * t) :=
  '(c1, srcs, conns1) ←
    tick_components (view s) (network_interface_sources_ s) true
      (connections_ s);
  '(c2, links, conns2) ← tick_components (view s) (links_ s) c1 conns1;
  '(c3, routers, conns3) ← tick_components (view s) (routers_ s) c2 conns2;
  '(c4, sinks, conns4) ←
    tick_components (view s) (network_interface_sinks_ s) c3 conns3;
  Done (c4,
        mk (cycle_ s) (routing_ s) (indices_store_ s) conns4
           srcs links routers sinks).

(** [while (!converged) { converged = Tick(); ++nticks; }].  The loop of
    the source has no bound; [fuel] bounds the number of turns that are
    unfolded, and [None] says that the loop is still running after them.
    The result is [nticks] and the simulator when the loop is left. *)
Fixpoint tick_until_converged (fuel : nat) (nticks : Z) (s : t)
  : option (Res (Z * t)) :=
  match fuel with
  | O => None
  | S fuel1 =>
      match Tick s with
      | Abort f => Some (Abort f)
      | Done (converged, s1) =>
          if converged : bool then Some (Done (nticks + 1, s1))
          else tick_until_converged fuel1 (nticks + 1) s1
      end
  end.

(** The loop over the connections that follows: it logs each connection
    and, in the same body, compares [nticks] with [max_ticks]. *)
Fixpoint log_connections (conns : Connections) (nticks max_ticks cycle : Z)
  : Status :=
  match conns with
  | [] => OkStatus
  | _ :: rest =>
      if max_ticks <=? nticks then InternalError nticks cycle
      else log_connections rest nticks max_ticks cycle
  end.

(** [NocSimulator::RunCycle]. *)
Definition RunCycle (fuel : nat) (max_ticks : Z) (s : t)
  : option (Res (Status * t)) :=
  let s0 := set_cycle (cycle_ s + 1) s in
  match tick_until_converged fuel 0 s0 with
  | None => None
  | Some (Abort f) => Some (Abort f)
  | Some (Done (nticks, s1)) =>
      Some (Done (log_connections (connections_ s1) nticks max_ticks
                    (cycle_ s1), s1))
  end.
End NocSimulator.

(** ** The forward propagation of the source, by the words of its
    description

    The credit of each channel after the pending updates are added as
    the code adds them, then: the channels are scanned in ascending order;
    the first one whose queue has a head that is due and whose credit is
    positive sends that head, with [valid] set, [vc] set to the number of
    the channel and the stamp of the current cycle, and the queue is
    popped and the credit decremented; when no channel qualifies a bubble
    is written. *)

Module SourceDescription.
Import SimNetworkInterfaceSrc.

Definition updated_credit (updates : list CreditState.t) (credit : list Z)
  : list Z :=
  imap (λ vc c,
          match updates !! vc with
          | Some u =>
              if 0 <? CreditState.credit u
              then wrap_int64 (c + CreditState.credit u)
              else c
          | None => c
          end) credit.

Definition qualifies (current_cycle : Z) (s : t) (vc : nat) : bool :=
  match data_to_send_ s !! vc, credit_ s !! vc with
  | Some (front :: _), Some credit =>
      (cycle front <=? current_cycle) && (0 <? credit)
  | _, _ => false
  end.

Definition first_qualifying (current_cycle : Z) (s : t) : option nat :=
  find (qualifies current_cycle s) (seq 0 (length (data_to_send_ s))).

Definition forward_propagation (current_cycle : Z) (s : t)
    (conns : Connections) : t * Connections :=
  match first_qualifying current_cycle s with
  | Some vc =>
      match data_to_send_ s !! vc, credit_ s !! vc with
      | Some (front :: popped), Some credit =>
          (set_data_to_send (<[vc := popped]> (data_to_send_ s))
             (set_credit (<[vc := credit - 1]> (credit_ s)) s),
           write_forward (sink_connection_index_ s)
             (mkTimed current_cycle
                (DataPhit.mk true (DataPhit.destination_index (phit front))
                   (Z.of_nat vc) (DataPhit.data (phit front))))
             conns)
      | _, _ => (s, conns)   (* not reached: the channel qualifies *)
      end
  | None =>
      (s, write_forward (sink_connection_index_ s)
            (mkTimed current_cycle (DataPhit.mk false 0 0 0)) conns)
  end.
End SourceDescription.

(** * Stamps, frames and invariants *)

(** ** Stamps of the connections

    Every assignment to a channel of a connection stamps it with the
    current cycle.  [advances] is the relation this induces between the
    connection states before and after a step: each channel is either the
    one it was or carries the stamp of the current cycle. *)

Definition fwd_stamped (cur : Z) (conns : Connections) (i : nat) : Prop :=
  ∃ c, conns !! i = Some c ∧ cycle (forward_channels c) = cur.

Definition rev_stamped (cur : Z) (conns : Connections) (i v : nat) : Prop :=
  ∃ c r, conns !! i = Some c ∧ reverse_channels c !! v = Some r
         ∧ cycle r = cur.

Definition all_rev_stamped (cur : Z) (conns : Connections) (i : nat) : Prop :=
  ∃ c, conns !! i = Some c
       ∧ ∀ v r, reverse_channels c !! v = Some r → cycle r = cur.

Definition channel_advances {T} (cur : Z) (t t' : Timed T) : Prop :=
  t' = t ∨ cycle t' = cur.

Definition connection_advances (cur : Z) (c c' : SimConnectionState) : Prop :=
  id c' = id c
  ∧ channel_advances cur (forward_channels c) (forward_channels c')
  ∧ Forall2 (channel_advances cur) (reverse_channels c) (reverse_channels c').

Definition advances (cur : Z) (conns conns' : Connections) : Prop :=
  Forall2 (connection_advances cur) conns conns'.

(** The content and the number of the reverse channels of a connection. *)
Definition rev_channel (conns : Connections) (i v : nat)
    (r : TimedMetadataPhit) : Prop :=
  ∃ c, conns !! i = Some c ∧ reverse_channels c !! v = Some r.

Definition rev_channels_count (conns : Connections) (i n : nat) : Prop :=
  ∃ c, conns !! i = Some c ∧ length (reverse_channels c) = n.

(** Two connection states with the same forward channels. *)
Definition same_forward_channels (conns conns' : Connections) : Prop :=
  ∀ j, forward_channels <$> conns' !! j = forward_channels <$> conns !! j.

(** ** What the four components have in common

    [wiring] is the part of a component that names its connections; no
    propagation changes it.  [forward_done] and [reverse_done] say which
    channels carry the stamp of the current cycle once the phase has
    succeeded. *)

Class SimNetworkComponentStamps (C : Type) `{SimNetworkComponent C} := {
  Wiring : Type;
  wiring : C → Wiring;
  forward_done : SimulatorView → Wiring → Connections → Prop;
  reverse_done : SimulatorView → Wiring → Connections → Prop
}.

Class SimNetworkComponentLaws (C : Type) `{SimNetworkComponentStamps C} := {
  base_with_base b c : base (with_base b c) = b;
  wiring_with_base b c : wiring (with_base b c) = wiring c;
  forward_done_advances sim w conns conns' :
    advances (GetCurrentCycle sim) conns conns' →
    forward_done sim w conns → forward_done sim w conns';
  reverse_done_advances sim w conns conns' :
    advances (GetCurrentCycle sim) conns conns' →
    reverse_done sim w conns → reverse_done sim w conns';
  TryForwardPropagation_law sim c conns b c' conns' :
    TryForwardPropagation sim c conns = Done (b, c', conns') →
    advances (GetCurrentCycle sim) conns conns'
    ∧ wiring c' = wiring c
    ∧ reverse_propagated_cycle_ (base c') = reverse_propagated_cycle_ (base c)
    ∧ (if b then forward_done sim (wiring c) conns'
       else forward_propagated_cycle_ (base c')
            = forward_propagated_cycle_ (base c));
  TryReversePropagation_law sim c conns b c' conns' :
    TryReversePropagation sim c conns = Done (b, c', conns') →
    advances (GetCurrentCycle sim) conns conns'
    ∧ wiring c' = wiring c
    ∧ forward_propagated_cycle_ (base c') = forward_propagated_cycle_ (base c)
    ∧ (if b then reverse_done sim (wiring c) conns'
       else reverse_propagated_cycle_ (base c')
            = reverse_propagated_cycle_ (base c))
}.

Section Settled.
Context {C : Type} `{SimNetworkComponentStamps C}.
Implicit Types (c : C) (conns : Connections) (sim : SimulatorView).

(** Both phases of the component have succeeded in cycle [cur]. *)
Definition converged_in (cur : Z) c : Prop :=
forward_propagated_cycle_ (base c) = cur
∧ reverse_propagated_cycle_ (base c) = cur.

(** The channels of a phase that is marked as done are stamped. *)
Definition settled sim c conns : Prop :=
(forward_propagated_cycle_ (base c) = GetCurrentCycle sim →
 forward_done sim (wiring c) conns)
∧ (reverse_propagated_cycle_ (base c) = GetCurrentCycle sim →
   reverse_done sim (wiring c) conns).
End Settled.

(** ** The link *)

Module SimLinkInv.
Import SimLink.

(** The lanes [0 .. k-1] of the reverse pipeline, seen from the state
  [(num_propagated, stages, conns)] of the loop.  As long as every lane
  has reported success nothing has moved. *)
Definition reverse_lanes_inv (sim : SimulatorView) (l : t)
  (conns0 : Connections) (k : nat)
  (st : Z * list (list MetadataPhit.t) * Connections) : Prop :=
let '(num_propagated, stages, conns) := st in
advances (GetCurrentCycle sim) conns0 conns
∧ num_propagated ≤ Z.of_nat k
∧ (num_propagated = Z.of_nat k →
   conns = conns0 ∧ stages = reverse_credit_stages_ l
   ∧ ∀ v, (v < k)%nat →
          rev_stamped (GetCurrentCycle sim) conns
            (src_connection_index_ l) v).

(** The upstream connection carries a stamped credit for every reverse
  channel of the downstream connection. *)
Definition reverse_done (sim : SimulatorView) (w : nat * nat)
  (conns : Connections) : Prop :=
∀ sink, conns !! w.2 = Some sink →
  ∀ v, (v < length (reverse_channels sink))%nat →
    rev_stamped (GetCurrentCycle sim) conns w.1 v.
End SimLinkInv.

#[global] Instance SimLink_stamps : SimNetworkComponentStamps SimLink.t := {|
  Wiring := nat * nat;
  wiring l :=
    (SimLink.src_connection_index_ l, SimLink.sink_connection_index_ l);
  forward_done sim w conns := fwd_stamped (GetCurrentCycle sim) conns w.2;
  reverse_done := SimLinkInv.reverse_done
|}.

(** ** The source *)

Module SimNetworkInterfaceSrcInv.
Import SimNetworkInterfaceSrc.

(** What the scan does when it sends on channel [vc]. *)
Definition sends (sim : SimulatorView) (s : t) (conns : Connections)
  (vc : nat) (s' : t) (conns' : Connections) : Prop :=
∃ front popped credit,
  data_to_send_ s !! vc = Some (front :: popped)
  ∧ cycle front ≤ GetCurrentCycle sim
  ∧ credit_ s !! vc = Some credit
  ∧ 0 < credit
  ∧ s' = set_data_to_send (<[vc := popped]> (data_to_send_ s))
           (set_credit (<[vc := credit - 1]> (credit_ s)) s)
  ∧ conns' = write_forward (sink_connection_index_ s)
               (mkTimed (GetCurrentCycle sim)
                  (DataPhit.set_valid true
                     (DataPhit.set_vc (Z.of_nat vc) (phit front))))
               conns.

Definition credit_nonneg (s : t) : Prop := Forall (λ c, 0 ≤ c) (credit_ s).

(** The pending update of every channel can be added to its credit: the
  sum is in the range of the counter. *)
Definition credit_fits (s : t) : Prop :=
∀ vc c u,
  credit_ s !! vc = Some c → credit_update_ s !! vc = Some u →
  0 < CreditState.credit u → c + CreditState.credit u < 2 ^ 63.

(** The source has added its pending credit in the cycle [cur] (its
  forward propagation is done), or can add it. *)
Definition credit_pending_fits (cur : Z) (s : t) : Prop :=
forward_propagated_cycle_ (base_ s) = cur ∨ credit_fits s.

(** One credit counter, one pending update and one queue for each
  virtual channel. *)
Definition shaped (s : t) : Prop :=
length (credit_ s) = length (data_to_send_ s)
∧ length (credit_update_ s) = length (data_to_send_ s).
End SimNetworkInterfaceSrcInv.

#[global] Instance SimNetworkInterfaceSrc_stamps
  : SimNetworkComponentStamps SimNetworkInterfaceSrc.t := {|
  Wiring := nat;
  wiring := SimNetworkInterfaceSrc.sink_connection_index_;
  forward_done sim w conns := fwd_stamped (GetCurrentCycle sim) conns w;
  reverse_done _ _ _ := True
|}.

(** ** The sink *)

Module SimNetworkInterfaceSinkInv.
Import SimNetworkInterfaceSink.

(** The loop over the reverse channels of either kind of cycle:
  afterwards the channels [0 .. k-1] are stamped. *)
Definition credit_loop_inv (sim : SimulatorView) (s : t)
  (conns0 : Connections) (n k : nat) (conns : Connections) : Prop :=
advances (GetCurrentCycle sim) conns0 conns
∧ ∀ v, (v < k)%nat →
       rev_stamped (GetCurrentCycle sim) conns
         (src_connection_index_ s) v.

(** The sink fits its connection: every reverse channel has a buffer,
  and a valid phit on the forward channel names one of the reverse
  channels. *)
Definition fits (s : t) (conns : Connections) : Prop :=
∃ src,
  conns !! src_connection_index_ s = Some src
  ∧ (length (reverse_channels src) ≤ length (input_buffers_ s))%nat
  ∧ (DataPhit.valid (phit (forward_channels src)) = true →
     0 ≤ DataPhit.vc (phit (forward_channels src))
       < Z.of_nat (length (reverse_channels src))).
End SimNetworkInterfaceSinkInv.

#[global] Instance SimNetworkInterfaceSink_stamps
  : SimNetworkComponentStamps SimNetworkInterfaceSink.t := {|
  Wiring := nat;
  wiring := SimNetworkInterfaceSink.src_connection_index_;
  forward_done sim w conns := all_rev_stamped (GetCurrentCycle sim) conns w;
  reverse_done _ _ _ := True
|}.

(** ** The router *)

Module RouterInv.
Import SimInputBufferedVCRouter.

(** The fields that no step of a propagation changes. *)
Definition same_frame (r r' : t) : Prop :=
base_ r' = base_ r
∧ input_connection_index r' = input_connection_index r
∧ output_connection_index r' = output_connection_index r
∧ max_vc_ r' = max_vc_ r
∧ length (input_buffers_ r') = length (input_buffers_ r).

(** The step of the arbitration that sends the head of channel [vc] of
  input [i]. *)
Definition forwards (sim : SimulatorView) (pos : nat * nat) (r : t)
  (conns : Connections) (r' : t) (conns' : Connections) : Prop :=
∃ buffers_i buffer phit popped output credit_row credit out_index
  output_state to_send_row to_send,
  input_buffers_ r !! pos.2 = Some buffers_i
  ∧ buffers_i !! pos.1 = Some buffer
  ∧ InputBuffer.queue buffer = phit :: popped
  ∧ GetDestinationPortIndexAndVcIndex sim r
      (mkPortIndexAndVCIndex (Z.of_nat pos.2) (Z.of_nat pos.1))
      (DataPhit.destination_index phit) = Some output
  ∧ 0 ≤ port_index output
  ∧ credit_ r !! Z.to_nat (port_index output) = Some credit_row
  ∧ 0 ≤ vc_index output
  ∧ credit_row !! Z.to_nat (vc_index output) = Some credit
  ∧ 0 < credit
  ∧ span_at sim (output_connection_index r) (port_index output)
    = Done out_index
  ∧ conns !! out_index = Some output_state
  ∧ cycle (forward_channels output_state) ≠ GetCurrentCycle sim
  ∧ input_credit_to_send_ r !! pos.2 = Some to_send_row
  ∧ to_send_row !! pos.1 = Some to_send
  ∧ r' = set_input_buffers
           (<[pos.2 := <[pos.1 := InputBuffer.set_queue popped buffer]>
                          buffers_i]> (input_buffers_ r))
           (set_input_credit_to_send
              (<[pos.2 := <[pos.1 := to_send + 1]> to_send_row]>
                 (input_credit_to_send_ r))
              (set_credit
                 (<[Z.to_nat (port_index output) :=
                      <[Z.to_nat (vc_index output) := credit - 1]>
                        credit_row]> (credit_ r)) r))
  ∧ conns' = write_forward out_index
               (mkTimed (GetCurrentCycle sim)
                  (DataPhit.set_vc (vc_index output)
                     (DataPhit.set_valid true phit))) conns.

(** The whole state of the arbitration advances at every step. *)
Definition step_le (sim : SimulatorView) (st st' : t * Connections) : Prop :=
same_frame st.1 st'.1 ∧ advances (GetCurrentCycle sim) st.2 st'.2.

Definition credit_nonneg (r : t) : Prop :=
Forall (Forall (λ c, 0 ≤ c)) (credit_ r).

(** The pending update of every channel of every output can be added to
  its credit: the sum is in the range of the counter. *)
Definition credit_fits (r : t) : Prop :=
∀ i vc row c row_u u,
  credit_ r !! i = Some row → row !! vc = Some c →
  credit_update_ r !! i = Some row_u → row_u !! vc = Some u →
  0 < CreditState.credit u → c + CreditState.credit u < 2 ^ 63.

(** The router adds no pending credit any more in the cycle [cur] (its
  forward propagation is done, or it has added the credit), or can add
  it. *)
Definition credit_pending_fits (cur : Z) (r : t) : Prop :=
forward_propagated_cycle_ (base_ r) = cur
∨ internal_propagated_cycle_ r = cur
∨ credit_fits r.

(** The first phase of the forward propagation: once in a cycle, the
  credit updates that have arrived are added to the credit. *)
Definition credit_phase (sim : SimulatorView) (r r1 : t) : Prop :=
(internal_propagated_cycle_ r = GetCurrentCycle sim ∧ r1 = r)
∨ (internal_propagated_cycle_ r ≠ GetCurrentCycle sim
   ∧ ∃ credit,
       add_credit_updates (credit_update_ r) (credit_ r) = Done credit
       ∧ r1 = set_internal_propagated_cycle (GetCurrentCycle sim)
                (set_credit credit r)).

(** The forward channels of the first [k] outputs are stamped. *)
Definition outputs_stamped (sim : SimulatorView) (sp : Span)
  (conns : Connections) (k : nat) : Prop :=
∀ i, (i < k)%nat →
  ∃ index,
    component_to_connection_index_ sim !! (span_start sp + i)%nat
    = Some index
    ∧ fwd_stamped (GetCurrentCycle sim) conns index.

(** The credit phit that the router publishes for channel [v] of input
  [i]: the depth of the buffer in cycle 0, the credit collected by the
  forward propagation in the other cycles. *)
Definition credit_sent (sim : SimulatorView) (r : t) (i v : nat)
  (t : TimedMetadataPhit) : Prop :=
∃ data,
  t = mkTimed (GetCurrentCycle sim) (MetadataPhit.mk true data)
  ∧ if GetCurrentCycle sim =? 0
    then ∃ row buffer,
           input_buffers_ r !! i = Some row ∧ row !! v = Some buffer
           ∧ data = InputBuffer.max_queue_size buffer
    else ∃ row,
           input_credit_to_send_ r !! i = Some row ∧ row !! v = Some data.

(** The reverse channels of the first [k] inputs are stamped. *)
Definition inputs_stamped (sim : SimulatorView) (sp : Span)
  (conns : Connections) (k : nat) : Prop :=
∀ i, (i < k)%nat →
  ∃ index,
    component_to_connection_index_ sim !! (span_start sp + i)%nat
    = Some index
    ∧ all_rev_stamped (GetCurrentCycle sim) conns index.

(** With one connection for each input, what the router publishes for
  an input stays on its connection. *)
Definition inputs_distinct (sim : SimulatorView) (sp : Span) : Prop :=
∀ i j index,
  (i < span_size sp)%nat → (j < span_size sp)%nat →
  component_to_connection_index_ sim !! (span_start sp + i)%nat
  = Some index →
  component_to_connection_index_ sim !! (span_start sp + j)%nat
  = Some index →
  i = j.

(** The credit of the first [k] inputs is on their reverse channels. *)
Definition credits_published (sim : SimulatorView) (r : t)
  (conns0 conns : Connections) (k : nat) : Prop :=
∀ i, (i < k)%nat →
  ∃ index input,
    component_to_connection_index_ sim
      !! (span_start (input_connection_index r) + i)%nat = Some index
    ∧ conns0 !! index = Some input
    ∧ ∀ v, (v < length (reverse_channels input))%nat →
        ∃ t, credit_sent sim r i v t ∧ rev_channel conns index v t.

(** The router fits its connections: every reverse channel of an input
  has a buffer and a credit counter, and every credit update of an
  output has a reverse channel. *)
Definition fits (sim : SimulatorView) (r : t) (conns : Connections) : Prop :=
(∀ i, (i < input_connection_count_ r)%nat →
   ∃ index input buffers to_send,
     component_to_connection_index_ sim
       !! (input_connection_index_start_ r + i)%nat = Some index
     ∧ conns !! index = Some input
     ∧ input_buffers_ r !! i = Some buffers
     ∧ (length (reverse_channels input) ≤ length buffers)%nat
     ∧ input_credit_to_send_ r !! i = Some to_send
     ∧ (length (reverse_channels input) ≤ length to_send)%nat)
∧ (∀ i updates,
     credit_update_ r !! i = Some updates →
     (i < output_connection_count_ r)%nat
     ∧ ∃ index output,
         component_to_connection_index_ sim
           !! (output_connection_index_start_ r + i)%nat = Some index
         ∧ conns !! index = Some output
         ∧ (length updates ≤ length (reverse_channels output))%nat).
End RouterInv.

#[global] Instance SimInputBufferedVCRouter_stamps
  : SimNetworkComponentStamps SimInputBufferedVCRouter.t := {|
  Wiring := Span * Span;
  wiring r :=
    (SimInputBufferedVCRouter.input_connection_index r,
     SimInputBufferedVCRouter.output_connection_index r);
  forward_done sim w conns :=
    RouterInv.outputs_stamped sim w.2 conns (span_size w.2);
  reverse_done sim w conns :=
    RouterInv.inputs_stamped sim w.1 conns (span_size w.1)
|}.

(** ** The simulator *)

Module NocSimulatorInv.
Import NocSimulator.

(** Every component has finished both phases of the current cycle. *)
Definition all_converged (s : t) : Prop :=
Forall (converged_in (cycle_ s)) (network_interface_sources_ s)
∧ Forall (converged_in (cycle_ s)) (links_ s)
∧ Forall (converged_in (cycle_ s)) (routers_ s)
∧ Forall (converged_in (cycle_ s)) (network_interface_sinks_ s).

(** The channels of every finished phase are stamped. *)
Definition all_settled (s : t) : Prop :=
Forall (λ c, settled (view s) c (connections_ s))
  (network_interface_sources_ s)
∧ Forall (λ c, settled (view s) c (connections_ s)) (links_ s)
∧ Forall (λ c, settled (view s) c (connections_ s)) (routers_ s)
∧ Forall (λ c, settled (view s) c (connections_ s))
    (network_interface_sinks_ s).

(** The components of [s'] are those of [s], with the same wiring. *)
Definition same_wiring (s s' : t) : Prop :=
view s' = view s
∧ Forall2 (λ c c', wiring c' = wiring c)
    (network_interface_sources_ s) (network_interface_sources_ s')
∧ Forall2 (λ c c', wiring c' = wiring c) (links_ s) (links_ s')
∧ Forall2 (λ c c', wiring c' = wiring c) (routers_ s) (routers_ s')
∧ Forall2 (λ c c', wiring c' = wiring c)
    (network_interface_sinks_ s) (network_interface_sinks_ s').

(** No credit counter of a source or of a router is negative. *)
Definition credit_nonneg (s : t) : Prop :=
Forall SimNetworkInterfaceSrcInv.credit_nonneg
  (network_interface_sources_ s)
∧ Forall RouterInv.credit_nonneg (routers_ s).

(** No pending update of a source or of a router overflows the credit it
  is added to. *)
Definition credit_fits (s : t) : Prop :=
Forall SimNetworkInterfaceSrcInv.credit_fits
  (network_interface_sources_ s)
∧ Forall RouterInv.credit_fits (routers_ s).

(** The same for the components that have not yet added their pending
  credit in the current cycle. *)
Definition credit_pending_fits (s : t) : Prop :=
Forall (SimNetworkInterfaceSrcInv.credit_pending_fits (cycle_ s))
  (network_interface_sources_ s)
∧ Forall (RouterInv.credit_pending_fits (cycle_ s)) (routers_ s).
End NocSimulatorInv.

(** ** The wiring of a network

    In a network every connection leaves an output port and enters an
    input port.  The component of the output port drives the forward
    channel: a source, a link (its downstream side) or a router (one of
    its outputs).  The component of the input port drives the reverse
    channels: a sink, a router (one of its inputs) or a link (its upstream
    side), which forwards one channel for each reverse channel of its
    downstream connection. *)

Module Network.
Import NocSimulator.

Definition forward_driven (s : t) (i : nat) : Prop :=
  (∃ src, src ∈ network_interface_sources_ s
          ∧ SimNetworkInterfaceSrc.sink_connection_index_ src = i)
  ∨ (∃ l, l ∈ links_ s ∧ SimLink.sink_connection_index_ l = i)
  ∨ (∃ r k, r ∈ routers_ s
            ∧ (k < SimInputBufferedVCRouter.output_connection_count_ r)%nat
            ∧ indices_store_ s
                !! (SimInputBufferedVCRouter.output_connection_index_start_ r
                    + k)%nat = Some i).

Definition reverse_driven (s : t) (i : nat) : Prop :=
  (∃ sink, sink ∈ network_interface_sinks_ s
           ∧ SimNetworkInterfaceSink.src_connection_index_ sink = i)
  ∨ (∃ l upstream downstream,
       l ∈ links_ s ∧ SimLink.src_connection_index_ l = i
       ∧ connections_ s !! i = Some upstream
       ∧ connections_ s !! SimLink.sink_connection_index_ l = Some downstream
       ∧ (length (reverse_channels upstream)
          ≤ length (reverse_channels downstream))%nat)
  ∨ (∃ r k, r ∈ routers_ s
            ∧ (k < SimInputBufferedVCRouter.input_connection_count_ r)%nat
            ∧ indices_store_ s
                !! (SimInputBufferedVCRouter.input_connection_index_start_ r
                    + k)%nat = Some i).

Definition every_connection_driven (s : t) : Prop :=
  ∀ i, (i < length (connections_ s))%nat →
       forward_driven s i ∧ reverse_driven s i.

(** No component has marked a phase as done for a cycle that the
    simulator has not reached. *)
Definition phases_not_ahead (k : Z) (b : SimNetworkComponentBase) : Prop :=
  forward_propagated_cycle_ b ≤ k ∧ reverse_propagated_cycle_ b ≤ k.

Definition no_phase_ahead (s : t) : Prop :=
  Forall (λ c, phases_not_ahead (cycle_ s) (SimNetworkInterfaceSrc.base_ c))
    (network_interface_sources_ s)
  ∧ Forall (λ c, phases_not_ahead (cycle_ s) (SimLink.base_ c)) (links_ s)
  ∧ Forall (λ c, phases_not_ahead (cycle_ s)
                   (SimInputBufferedVCRouter.base_ c)) (routers_ s)
  ∧ Forall (λ c, phases_not_ahead (cycle_ s)
                   (SimNetworkInterfaceSink.base_ c))
      (network_interface_sinks_ s).
End Network.

(** ** Three networks *)

Module Examples.
(** The simulator starts at cycle -1: the first cycle that [RunCycle]
    simulates is cycle 0. *)
Definition no_routes : DistributedRoutingTable :=
  mkRoutingTable (λ _ _ _, None) (λ _ _, None) (λ _ _, None).

Definition new_connection (n : Z) : SimConnectionState :=
  mkConnection n (mkTimed (-1) bubble)
    [mkTimed (-1) (MetadataPhit.mk false 0)].

Definition new_base (n : Z) : SimNetworkComponentBase := mkBase n (-1) (-1).

Definition send (p : TimedDataPhit) (s : SimNetworkInterfaceSrc.t)
  : SimNetworkInterfaceSrc.t :=
  (SimNetworkInterfaceSrc.SendPhitAtTime p s).2.

(** A source, a link with one stage in each direction and a sink, with
    one virtual channel of depth 2; three phits wait in the source. *)
Definition line : NocSimulator.t :=
  NocSimulator.mk (-1) no_routes []
    [new_connection 0; new_connection 1]
    [send (mkTimed 3 (DataPhit.mk false 0 0 12))
       (send (mkTimed 2 (DataPhit.mk false 0 0 11))
          (send (mkTimed 1 (DataPhit.mk false 0 0 10))
             (SimNetworkInterfaceSrc.InitializeImpl (new_base 10) 1 (-1) 0)))]
    [SimLink.mk (new_base 11) 1 1 0 1 [] [[]]]
    []
    [SimNetworkInterfaceSink.InitializeImpl (new_base 12) [2] 1].

(** Two routers that feed each other through two links: connection 0
    from router A to the first link, connection 1 from that link to
    router B, connections 2 and 3 back from B to A. *)
Definition ring : NocSimulator.t :=
  NocSimulator.mk (-1) no_routes [3; 0; 1; 2]%nat
    [new_connection 0; new_connection 1; new_connection 2; new_connection 3]
    []
    [SimLink.mk (new_base 20) 1 1 0 1 [] [[]];
     SimLink.mk (new_base 21) 1 1 2 3 [] [[]]]
    [SimInputBufferedVCRouter.InitializeImpl (new_base 22) 0 [[2]] 1 [1%nat]
       (-1);
     SimInputBufferedVCRouter.InitializeImpl (new_base 23) 2 [[2]] 3 [1%nat]
       (-1)]
    [].

(** A source, a router with one input and one output, and a sink.  The
    routing table knows the input port of the router (port 100) and
    routes everything that enters it to port 999, which is not a port of
    the network. *)
Definition routes_to_missing_port : DistributedRoutingTable :=
  mkRoutingTable
    (λ nc direction index,
       match direction with
       | kInput => if index =? 0 then Some 100 else None
       | kOutput => if index =? 0 then Some 101 else None
       end)
    (λ from destination, Some (mkPortAndVCIndex 999 0))
    (λ port direction,
       match direction with
       | kInput => if port =? 100 then Some 0 else None
       | kOutput => if port =? 101 then Some 0 else None
       end).

Definition misrouted : NocSimulator.t :=
  NocSimulator.mk (-1) routes_to_missing_port [0; 1]%nat
    [new_connection 0; new_connection 1]
    [send (mkTimed 1 (DataPhit.mk false 0 0 10))
       (SimNetworkInterfaceSrc.InitializeImpl (new_base 30) 1 (-1) 0)]
    []
    [SimInputBufferedVCRouter.InitializeImpl (new_base 31) 0 [[2]] 1 [1%nat]
       (-1)]
    [SimNetworkInterfaceSink.InitializeImpl (new_base 32) [2] 1].

(** A router in cycle 1 with two inputs (connections 0 and 1) that both
    hold a phit for its only output (connection 2). *)
Definition routes_to_port_0 : DistributedRoutingTable :=
  mkRoutingTable
    (λ nc direction index,
       match direction with
       | kInput => Some (100 + index)
       | kOutput => if index =? 0 then Some 200 else None
       end)
    (λ from destination, Some (mkPortAndVCIndex 200 0))
    (λ port direction,
       match direction with
       | kInput => Some (port - 100)
       | kOutput => if port =? 200 then Some 0 else None
       end).

Definition contended_view : SimulatorView :=
  mkView 1 routes_to_port_0 [0; 1; 2]%nat.

Definition contended_router : SimInputBufferedVCRouter.t :=
  SimInputBufferedVCRouter.mk (mkBase 40 0 0) 0 2 2 1
    [[InputBuffer.mk [DataPhit.mk true 0 0 10] 2];
     [InputBuffer.mk [DataPhit.mk true 0 0 11] 2]]
    [[0]; [0]] [[2]] [[CreditState.mk 0 0]] 1 1.

Definition contended_connections : Connections :=
  [mkConnection 0 (mkTimed 1 bubble) [mkTimed 0 (MetadataPhit.mk false 0)];
   mkConnection 1 (mkTimed 1 bubble) [mkTimed 0 (MetadataPhit.mk false 0)];
   mkConnection 2 (mkTimed 0 bubble) [mkTimed 0 (MetadataPhit.mk false 0)]].

(** The result of a computation that finishes. *)
Definition value {A} (default : A) (r : Res A) : A :=
  match r with
  | Done a => a
  | Abort _ => default
  end.

(** The state in which a run leaves the simulator, when it returns. *)
Definition after_cycle (fuel : nat) (max_ticks : Z) (s : NocSimulator.t)
  : NocSimulator.t :=
  match NocSimulator.RunCycle fuel max_ticks s with
  | Some (Done (_, s')) => s'
  | _ => s
  end.

(** The line after cycle 0: the sink has granted its credit. *)
Definition line_after_cycle_0 : NocSimulator.t :=
  Eval vm_compute in after_cycle 10 10 line.

(** The misrouted network after cycle 0: the router and the sink have
    granted their credit and the source has received it. *)
Definition misrouted_after_cycle_0 : NocSimulator.t :=
  Eval vm_compute in after_cycle 10 10 misrouted.

(** The ring after the first tick of cycle 0. *)
Definition ring_after_tick : NocSimulator.t :=
  Eval vm_compute in
    (value (false, ring)
       (NocSimulator.Tick (NocSimulator.set_cycle 0 ring))).2.
End Examples.

(** ** Configured depths and injected traffic *)

(** The depth of each input buffer of a router, as configured. *)
Definition router_buffer_depths (r : SimInputBufferedVCRouter.t)
  : list (list Z) :=
  (λ row : list InputBuffer.t, InputBuffer.max_queue_size <$> row)
    <$> SimInputBufferedVCRouter.input_buffers_ r.

Definition sink_buffer_depths (s : SimNetworkInterfaceSink.t) : list Z :=
  InputBuffer.max_queue_size <$> SimNetworkInterfaceSink.input_buffers_ s.

(** A source after the harness has called [SendPhitAtTime] for each phit
    of a list. *)
Definition after_sends (phits : list TimedDataPhit)
    (s : SimNetworkInterfaceSrc.t) : SimNetworkInterfaceSrc.t :=
  foldl (λ s p, (SimNetworkInterfaceSrc.SendPhitAtTime p s).2) s phits.

(** ** The place of a routing lookup in a run

    The premise "during router arbitration the routing lookup for the
    head phit of a non-empty input buffer fails", spelled out along the
    calls that lead to the lookup. *)

Module Lookup.
Import NocSimulator.

(** [k] ticks that have not converged lead from [s] to [s']. *)
Inductive ticks_to : t → nat → t → Prop :=
| ticks_to_here s : ticks_to s 0 s
| ticks_to_next s s1 k s' :
    Tick s = Done (false, s1) → ticks_to s1 k s' → ticks_to s (S k) s'.

(** The tick of [s] reaches the router [r] with the connection states
    [conns]: the sources, the links and the routers before [r] have
    ticked. *)
Definition router_turn (s : t) (r : SimInputBufferedVCRouter.t)
    (conns : Connections) : Prop :=
  ∃ c1 srcs conns1 c2 links conns2 before after c3 before',
    tick_components (view s) (network_interface_sources_ s) true
      (connections_ s) = Done (c1, srcs, conns1)
    ∧ tick_components (view s) (links_ s) c1 conns1
      = Done (c2, links, conns2)
    ∧ routers_ s = before ++ r :: after
    ∧ tick_components (view s) before c2 conns2 = Done (c3, before', conns).

(** The forward propagation of [r] runs in this tick and its
    arbitration reaches the position [pos] in the state [st]. *)
Definition arbitration_reaches (sim : SimulatorView)
    (r : SimInputBufferedVCRouter.t) (conns : Connections)
    (pos : nat * nat) (st : SimInputBufferedVCRouter.t * Connections)
  : Prop :=
  forward_propagated_cycle_ (SimInputBufferedVCRouter.base_ r)
  ≠ GetCurrentCycle sim
  ∧ ∃ r3 before after,
      SimInputBufferedVCRouter.prepare_arbitration sim r conns
      = Done (true, r3)
      ∧ SimInputBufferedVCRouter.arbitration_order
          (SimInputBufferedVCRouter.max_vc_ r3)
          (length (SimInputBufferedVCRouter.input_buffers_ r3))
        = before ++ pos :: after
      ∧ for_each before (SimInputBufferedVCRouter.arbitrate sim) (r3, conns)
        = Done st.

(** The buffer of the position is not empty and the routing lookup for
    its head fails. *)
Definition lookup_fails (sim : SimulatorView) (pos : nat * nat)
    (st : SimInputBufferedVCRouter.t * Connections) : Prop :=
  ∃ buffers_i buffer phit popped,
    SimInputBufferedVCRouter.input_buffers_ st.1 !! pos.2 = Some buffers_i
    ∧ buffers_i !! pos.1 = Some buffer
    ∧ InputBuffer.queue buffer = phit :: popped
    ∧ SimInputBufferedVCRouter.GetDestinationPortIndexAndVcIndex sim st.1
        (mkPortIndexAndVCIndex (Z.of_nat pos.2) (Z.of_nat pos.1))
        (DataPhit.destination_index phit) = None.
End Lookup.

(** * The kernel over several cycles and at its boundary *)

(** ** A lane over consecutive cycles

    In every cycle the upstream component writes a phit with the stamp of
    the cycle on the upstream slot, and the lane is driven once; the
    downstream slot then carries what the lane delivers in that cycle.
    [run_lane] collects the downstream slots of the cycles [cur],
    [cur + 1], ... for the phits [inputs], and returns the queue at the
    end. *)

(** What the lane writes when it has nothing to deliver: the phit that
    the slot holds, with [valid] cleared and [data] zeroed. *)
Definition bubble_of {T} `{Phit T} (q : T) : T :=
  phit_set_data 0 (phit_set_valid false q).

Fixpoint run_lane {T} `{Phit T} (stage_count cur : Z) (inputs : list T)
    (to : Timed T) (state : list T) : list (Timed T) * list T :=
  match inputs with
  | [] => ([], state)
  | x :: rest =>
      let p :=
        snd (SimplePipelineImpl.TryPropagation cur
               (SimplePipelineImpl.mk stage_count (mkTimed cur x) to state)) in
      let '(outputs, final) :=
        run_lane stage_count (cur + 1) rest (SimplePipelineImpl.to_ p)
          (SimplePipelineImpl.state_ p) in
      (SimplePipelineImpl.to_ p :: outputs, final)
  end.

(** "if (src.reverse_channels[vc].cycle != current_cycle)": a reverse
    channel that was not written in the cycle is stamped and carries no
    credit; one that was written is kept. *)
Definition unwritten_carries_no_credit (cur : Z) (r : TimedMetadataPhit)
  : TimedMetadataPhit :=
  if cycle r =? cur then r else mkTimed cur (MetadataPhit.mk false 0).

(** "Priority goes to the port with the least vc and the least port
    index": the position [(vc, input)] of [p] comes before that of [q]. *)
Definition priority (p q : nat * nat) : Prop :=
  (p.1 < q.1 ∨ (p.1 = q.1 ∧ p.2 < q.2))%nat.

(** ** The phits of a router

    [v[i][vc]], where it exists. *)
Definition entry {A} (v : list (list A)) (i vc : nat) : option A :=
  match v !! i with
  | Some row => row !! vc
  | None => None
  end.

(** The phit that input [i] of the router delivers to channel [vc] in
    this cycle: the valid phit on the forward channel of the connection
    of the input whose [vc] is that channel. *)
Definition arrived (sim : SimulatorView) (input_start : nat)
    (conns : Connections) (i vc : nat) : list DataPhit.t :=
  match component_to_connection_index_ sim !! (input_start + i)%nat with
  | Some index =>
      match conns !! index with
      | Some input =>
          if DataPhit.valid (phit (forward_channels input))
             && (DataPhit.vc (phit (forward_channels input)) =? Z.of_nat vc)
          then [phit (forward_channels input)]
          else []
      | None => []
      end
  | None => []
  end.

(** The contended router and its connections after its forward
    propagation in cycle 1. *)
Definition contended_after_forward
  : SimInputBufferedVCRouter.t * Connections :=
  Eval vm_compute in
    (let '(_, r, conns) :=
       Examples.value
         (false, Examples.contended_router, Examples.contended_connections)
         (SimInputBufferedVCRouter.TryForwardPropagation
            Examples.contended_view Examples.contended_router
            Examples.contended_connections) in
     (r, conns)).

(** Earlier positions of the list have priority over later ones. *)
Definition priority_ordered (l : list (nat * nat)) : Prop :=
  ∀ m n p q, (m < n)%nat → l !! m = Some p → l !! n = Some q → priority p q.

Module RouterPhits.
Import SimInputBufferedVCRouter.

(** What the steps of the arbitration at the positions [leaving] do to
  channel [vc] of input [i]: the phits [sent] leave the head of the
  buffer, the credit to send counts them, and each of them is on a
  forward channel. *)
Definition accounted (sim : SimulatorView) (leaving : list (nat * nat))
  (st st' : t * Connections) : Prop :=
∀ i vc buffer t,
  entry (input_buffers_ st.1) i vc = Some buffer →
  entry (input_credit_to_send_ st.1) i vc = Some t →
  ∃ buffer' sent,
    entry (input_buffers_ st'.1) i vc = Some buffer'
    ∧ InputBuffer.max_queue_size buffer'
      = InputBuffer.max_queue_size buffer
    ∧ InputBuffer.queue buffer = sent ++ InputBuffer.queue buffer'
    ∧ entry (input_credit_to_send_ st'.1) i vc
      = Some (t + Z.of_nat (length sent))
    ∧ (length sent ≤ 1)%nat
    ∧ ((vc, i) ∉ leaving → sent = [])
    ∧ ∀ p, p ∈ sent →
        ∃ j c vc_out,
          st'.2 !! j = Some c
          ∧ forward_channels c
            = mkTimed (GetCurrentCycle sim)
                (DataPhit.set_vc vc_out (DataPhit.set_valid true p)).
End RouterPhits.

Module RouterCreditInv.
Import SimInputBufferedVCRouter.

(** The reverse channel [v] of the connection of output [i]. *)
Definition channel (sim : SimulatorView) (r : t) (conns : Connections)
  (i v : nat) (p : TimedMetadataPhit) : Prop :=
∃ index output,
  component_to_connection_index_ sim
    !! (output_connection_index_start_ r + i)%nat = Some index
  ∧ conns !! index = Some output
  ∧ reverse_channels output !! v = Some p.

(** The update [u] after the reverse channel [p] has been read. *)
Definition taken (sim : SimulatorView) (u : CreditState.t)
  (p : TimedMetadataPhit) : CreditState.t :=
if (cycle p =? GetCurrentCycle sim)
   && negb (CreditState.cycle u =? GetCurrentCycle sim)
then received_credit (GetCurrentCycle sim) p
else u.

(** The channels that the two loops have visited when the outer one is
  at [k] and the inner one at [w]. *)
Definition visited (k w i v : nat) : Prop := (i < k ∨ (i = k ∧ v < w))%nat.

(** The state [(num_propagated, possible_propagation, credit_update_)] of
  the two loops at [k] and [w]. *)
Definition inv (sim : SimulatorView) (r : t) (conns : Connections)
  (k w : nat) (st : Z * Z * list (list CreditState.t)) : Prop :=
length <$> st.2 = length <$> credit_update_ r
∧ (∀ i v u, entry (credit_update_ r) i v = Some u →
     (visited k w i v →
      ∃ p, channel sim r conns i v p
           ∧ entry st.2 i v = Some (taken sim u p))
     ∧ (¬ visited k w i v → entry st.2 i v = Some u))
∧ st.1.1 ≤ st.1.2
∧ (st.1.1 = st.1.2 ↔
   ∀ i v u p, visited k w i v →
     entry (credit_update_ r) i v = Some u → channel sim r conns i v p →
     cycle p = GetCurrentCycle sim).
End RouterCreditInv.



(** A source whose credit is the largest [int64], with a pending update
    of 1 and a phit that is due. *)
Definition source_at_limit : SimNetworkInterfaceSrc.t :=
  SimNetworkInterfaceSrc.mk (mkBase 1 4 4) 0
    [[mkTimed 1 (DataPhit.mk false 0 0 10)]] [2 ^ 63 - 1]
    [CreditState.mk 4 1].

(** The line after the first and after the second tick of cycle 0. *)
Definition line_after_tick_1 : NocSimulator.t :=
  Eval vm_compute in
    (Examples.value (false, Examples.line)
       (NocSimulator.Tick (NocSimulator.set_cycle 0 Examples.line))).2.

Definition line_after_tick_2 : NocSimulator.t :=
  Eval vm_compute in
    (Examples.value (false, Examples.line)
       (NocSimulator.Tick line_after_tick_1)).2.

(** * Properties of the kernel *)

(** ** The result monad and the vectors *)

Lemma bind_Done {A B} (m : Res A) (k : A → Res B) (b : B) :
  m ≫= k = Done b ↔ ∃ a, m = Done a ∧ k a = Done b.
Proof.
  destruct m as [a|f]; simpl; split.
  - intros Hk. by exists a.
  - by intros (a' & [= <-] & Hk).
  - discriminate.
  - by intros (a' & ? & _).
Qed.

Lemma subscript_Done {A} (v : list A) i x :
  subscript v i = Done x ↔ v !! i = Some x.
Proof. unfold subscript. destruct (v !! i); split; congruence. Qed.

Lemma at_Done {A} (v : list A) i x : at_ v i = Done x ↔ v !! i = Some x.
Proof. unfold at_. destruct (v !! i); split; congruence. Qed.


Lemma wrap_int64_range z : - 2 ^ 63 ≤ wrap_int64 z < 2 ^ 63.
Proof.
  unfold wrap_int64.
  pose proof (Z.mod_pos_bound (z + 2 ^ 63) (2 ^ 64)). lia.
Qed.

Lemma position_Some z i : position z = Some i ↔ 0 ≤ z ∧ i = Z.to_nat z.
Proof.
  unfold position. destruct (Z.ltb_spec z 0); split.
  - discriminate.
  - lia.
  - intros [= <-]. lia.
  - by intros [_ ->].
Qed.

Lemma position_of_nat (n : nat) : position (Z.of_nat n) = Some n.
Proof. apply position_Some. lia. Qed.

Lemma subscriptZ_Done {A} (v : list A) z x :
  subscriptZ v z = Done x ↔ 0 ≤ z ∧ v !! Z.to_nat z = Some x.
Proof.
  unfold subscriptZ. destruct (position z) as [i|] eqn:Hp.
  - apply position_Some in Hp as [? ->]. rewrite subscript_Done.
    split; [done|by intros [_ ?]].
  - split; [discriminate|]. intros [? _]. unfold position in Hp.
    destruct (Z.ltb_spec z 0); [lia|discriminate].
Qed.

Lemma atZ_Done {A} (v : list A) z x :
  atZ v z = Done x ↔ 0 ≤ z ∧ v !! Z.to_nat z = Some x.
Proof.
  unfold atZ. destruct (position z) as [i|] eqn:Hp.
  - apply position_Some in Hp as [? ->]. rewrite at_Done.
    split; [done|by intros [_ ?]].
  - split; [discriminate|]. intros [? _]. unfold position in Hp.
    destruct (Z.ltb_spec z 0); [lia|discriminate].
Qed.

(** Inversion of a computation that is known to finish: a hypothesis
    [m ≫= k = Done b] is split along its binds. *)
Ltac inv_res :=
  repeat match goal with
  | H : Done _ = Done _ |- _ => injection H; clear H; intros; subst
  | H : Abort _ = Done _ |- _ => discriminate H
  | H : mret _ = Done _ |- _ => injection H; clear H; intros; subst
  | H : (_ ≫= _) = Done _ |- _ =>
      apply bind_Done in H; destruct H as (? & ? & H)
  | H : subscript _ _ = Done _ |- _ => apply subscript_Done in H
  | H : at_ _ _ = Done _ |- _ => apply at_Done in H
  | H : subscriptZ _ _ = Done _ |- _ => apply subscriptZ_Done in H as [? H]
  | H : atZ _ _ = Done _ |- _ => apply atZ_Done in H as [? H]
  | H : GetSimConnectionByIndex _ _ = Done _ |- _ =>
      unfold GetSimConnectionByIndex in H
  end.

(** Loop invariants. *)
Lemma for_each_inv {I S} (P : S → Prop) (ixs : list I) body s s' :
  (∀ i s s', i ∈ ixs → P s → body i s = Done s' → P s') →
  P s → for_each ixs body s = Done s' → P s'.
Proof.
  revert s. induction ixs as [|i ixs IH]; simpl; intros s Hbody Hs Hrun.
  - by injection Hrun as <-.
  - apply bind_Done in Hrun as (s1 & H1 & Hrun).
    apply (IH s1); [|by eapply Hbody; [left|..]|done].
    intros j t t' Hj. apply Hbody. by right.
Qed.

Lemma for_upto_inv {S} (P : S → Prop) n body (s s' : S) :
  (∀ i s s', (i < n)%nat → P s → body i s = Done s' → P s') →
  P s → for_upto n body s = Done s' → P s'.
Proof.
  intros Hbody. apply for_each_inv. intros i t t' Hi.
  apply Hbody. apply elem_of_seq in Hi. lia.
Qed.

Lemma for_each_app {I S} (xs ys : list I) body (s : S) :
  for_each (xs ++ ys) body s = for_each xs body s ≫= for_each ys body.
Proof.
  revert s. induction xs as [|x xs IH]; simpl; intros s; [done|].
  destruct (body x s); simpl; [apply IH|done].
Qed.

(** ** Connection states *)

Lemma write_forward_length i f (conns : Connections) :
  length (write_forward i f conns) = length conns.
Proof. apply length_alter. Qed.

Lemma write_reverse_length i v r (conns : Connections) :
  length (write_reverse i v r conns) = length conns.
Proof. apply length_alter. Qed.

Lemma alter_same {A} (g : A → A) (l : list A) i x :
  l !! i = Some x → g x = x → alter g i l = l.
Proof.
  intros Hi Hg. apply list_eq. intros j.
  destruct (decide (i = j)) as [->|Hne].
  - rewrite list_lookup_alter_eq, Hi. simpl. by rewrite Hg.
  - by rewrite list_lookup_alter_ne.
Qed.

Lemma write_forward_same i (conns : Connections) c :
  conns !! i = Some c → write_forward i (forward_channels c) conns = conns.
Proof. intros Hi. eapply alter_same; [done|]. by destruct c. Qed.

Lemma write_reverse_same i v (conns : Connections) c r :
  conns !! i = Some c → reverse_channels c !! v = Some r →
  write_reverse i v r conns = conns.
Proof.
  intros Hi Hv. eapply alter_same; [done|].
  destruct c as [n f rs]. unfold set_reverse_channel. simpl in *.
  f_equal. by apply list_insert_id.
Qed.

Lemma for_each_seq_ind {St} (P : nat → St → Prop) a n body (s s' : St) :
  (∀ i s s', (a ≤ i < a + n)%nat → P i s → body i s = Done s' → P (S i) s') →
  P a s → for_each (seq a n) body s = Done s' → P (a + n)%nat s'.
Proof.
  revert a s. induction n as [|n IH]; simpl; intros a s Hbody Hs Hrun.
  - injection Hrun as <-. by rewrite Nat.add_0_r.
  - apply bind_Done in Hrun as (s1 & H1 & Hrun).
    replace (a + S n)%nat with (S a + n)%nat by lia.
    apply (IH (S a) s1); [|apply (Hbody a s); [lia|done..]|done].
    intros i t t' Hi. apply Hbody. lia.
Qed.

(** The invariant of a counting loop may depend on the counter. *)
Lemma for_upto_ind {St} (P : nat → St → Prop) n body (s s' : St) :
  (∀ i s s', (i < n)%nat → P i s → body i s = Done s' → P (S i) s') →
  P 0%nat s → for_upto n body s = Done s' → P n s'.
Proof.
  intros Hbody Hs Hrun.
  apply (for_each_seq_ind P 0 n body s s'); [|done..].
  intros i t t' Hi. apply Hbody. lia.
Qed.

(** A counting loop whose body finishes under the invariant finishes. *)
Lemma for_each_seq_total {St} (P : nat → St → Prop) a n body (s : St) :
  (∀ i s, (a ≤ i < a + n)%nat → P i s →
          ∃ s', body i s = Done s' ∧ P (S i) s') →
  P a s → ∃ s', for_each (seq a n) body s = Done s' ∧ P (a + n)%nat s'.
Proof.
  revert a s. induction n as [|n IH]; simpl; intros a s Hbody Hs.
  - exists s. by rewrite Nat.add_0_r.
  - destruct (Hbody a s) as (s1 & H1 & Hs1); [lia|done|].
    destruct (IH (S a) s1) as (s' & Hrun & Hs'); [|done|].
    { intros i t Hi. apply Hbody. lia. }
    exists s'. rewrite H1. simpl. split; [done|].
    by replace (a + S n)%nat with (S a + n)%nat by lia.
Qed.

Lemma for_upto_total {St} (P : nat → St → Prop) n body (s : St) :
  (∀ i s, (i < n)%nat → P i s → ∃ s', body i s = Done s' ∧ P (S i) s') →
  P 0%nat s → ∃ s', for_upto n body s = Done s' ∧ P n s'.
Proof.
  intros Hbody Hs.
  apply (for_each_seq_total P 0 n body s); [|done].
  intros i t Hi. apply Hbody. lia.
Qed.

(** ** The pipeline *)

Section Pipeline.
Context {T : Type} `{Phit T}.
Implicit Types p : SimplePipelineImpl.t T.

Lemma TryPropagation_flag cur p :
  fst (SimplePipelineImpl.TryPropagation cur p)
  = (cycle (SimplePipelineImpl.from_ p) =? cur)
    && (cycle (SimplePipelineImpl.to_ p) =? cur).
Proof.
  unfold SimplePipelineImpl.TryPropagation.
  destruct (_ =? cur); [|done].
  destruct (cycle (SimplePipelineImpl.to_ p) =? cur); [done|].
  simpl. destruct (_ <? _); [|done]. by destruct (_ ++ _).
Qed.

Lemma TryPropagation_true cur p p' :
  SimplePipelineImpl.TryPropagation cur p = (true, p') →
  p' = p ∧ cycle (SimplePipelineImpl.from_ p) = cur
  ∧ cycle (SimplePipelineImpl.to_ p) = cur.
Proof.
  intros Hrun. pose proof (TryPropagation_flag cur p) as Hflag.
  rewrite Hrun in Hflag. simpl in Hflag. symmetry in Hflag.
  apply andb_true_iff in Hflag as [Hf Ht].
  unfold SimplePipelineImpl.TryPropagation in Hrun.
  rewrite Hf, Ht in Hrun. apply Z.eqb_eq in Hf, Ht.
  by injection Hrun as <-.
Qed.

Lemma TryPropagation_from cur p :
  SimplePipelineImpl.from_ (snd (SimplePipelineImpl.TryPropagation cur p))
  = SimplePipelineImpl.from_ p.
Proof.
  unfold SimplePipelineImpl.TryPropagation.
  repeat (case_match; simpl; try done).
Qed.

(** The downstream slot keeps the stamp of the current cycle, and has it
    whenever the upstream slot has it. *)
Lemma TryPropagation_to_stamp cur p :
  cycle (SimplePipelineImpl.to_ p) = cur
  ∨ cycle (SimplePipelineImpl.from_ p) = cur →
  cycle (SimplePipelineImpl.to_
           (snd (SimplePipelineImpl.TryPropagation cur p))) = cur.
Proof.
  unfold SimplePipelineImpl.TryPropagation. intros Hor.
  destruct (Z.eqb_spec (cycle (SimplePipelineImpl.from_ p)) cur) as [Hf|Hf].
  - destruct (Z.eqb_spec (cycle (SimplePipelineImpl.to_ p)) cur); [done|].
    repeat (case_match; simpl; try done).
    by destruct (SimplePipelineImpl.state_ p).
  - simpl. by destruct Hor.
Qed.

(** A slot that is driven receives the stamp of the current cycle. *)
Lemma TryPropagation_to_changes cur p :
  SimplePipelineImpl.to_ (snd (SimplePipelineImpl.TryPropagation cur p))
  = SimplePipelineImpl.to_ p
  ∨ cycle (SimplePipelineImpl.to_
             (snd (SimplePipelineImpl.TryPropagation cur p))) = cur.
Proof.
  unfold SimplePipelineImpl.TryPropagation.
  repeat (case_match; simpl; auto).
Qed.
End Pipeline.

(** C9.  On every lane (the template is instantiated with data phits for
    the forward lane and with metadata phits for the reverse lanes): when
    the upstream and the downstream slot both carry the stamp of the
    current cycle, a propagation attempt reports success and leaves the
    upstream slot, the downstream slot and the internal queue as they
    were. *)
Theorem TryPropagation_idempotent {T : Type} `{Phit T} (current_cycle : Z)
    (p : SimplePipelineImpl.t T) :
  cycle (SimplePipelineImpl.from_ p) = current_cycle →
  cycle (SimplePipelineImpl.to_ p) = current_cycle →
  SimplePipelineImpl.TryPropagation current_cycle p = (true, p)
  ∧ SimplePipelineImpl.from_
      (snd (SimplePipelineImpl.TryPropagation current_cycle p))
    = SimplePipelineImpl.from_ p
  ∧ SimplePipelineImpl.to_
      (snd (SimplePipelineImpl.TryPropagation current_cycle p))
    = SimplePipelineImpl.to_ p
  ∧ SimplePipelineImpl.state_
      (snd (SimplePipelineImpl.TryPropagation current_cycle p))
    = SimplePipelineImpl.state_ p.
Proof.
  intros Hfrom Hto.
  assert (SimplePipelineImpl.TryPropagation current_cycle p = (true, p))
    as ->; [|done].
  unfold SimplePipelineImpl.TryPropagation.
  by rewrite Hfrom, Hto, Z.eqb_refl.
Qed.

(** A reverse lane in cycle 5 with both slots stamped and one credit in
    its queue. *)
Lemma TryPropagation_idempotent_witness :
  let p := SimplePipelineImpl.mk 2 (mkTimed 5 (MetadataPhit.mk true 3))
             (mkTimed 5 (MetadataPhit.mk false 0))
             [MetadataPhit.mk true 1] in
  SimplePipelineImpl.TryPropagation 5 p = (true, p)
  ∧ SimplePipelineImpl.from_ (snd (SimplePipelineImpl.TryPropagation 5 p))
    = SimplePipelineImpl.from_ p
  ∧ SimplePipelineImpl.to_ (snd (SimplePipelineImpl.TryPropagation 5 p))
    = SimplePipelineImpl.to_ p
  ∧ SimplePipelineImpl.state_ (snd (SimplePipelineImpl.TryPropagation 5 p))
    = SimplePipelineImpl.state_ p.
Proof.
  intros p. apply (TryPropagation_idempotent 5 p); reflexivity.
Defined.

(** ** Stamps of the connections: what a step may change *)

#[global] Instance channel_advances_refl {T} cur :
  Reflexive (@channel_advances T cur).
Proof. intros t. by left. Qed.

#[global] Instance channel_advances_trans {T} cur :
  Transitive (@channel_advances T cur).
Proof.
  intros t1 t2 t3 [->|H12] [->|H23]; unfold channel_advances; auto.
Qed.

#[global] Instance connection_advances_refl cur :
  Reflexive (connection_advances cur).
Proof. intros c. repeat split; reflexivity. Qed.

#[global] Instance connection_advances_trans cur :
  Transitive (connection_advances cur).
Proof.
  intros c1 c2 c3 (Hi1 & Hf1 & Hr1) (Hi2 & Hf2 & Hr2). split; [congruence|].
  split; by etrans.
Qed.

#[global] Instance advances_refl cur : Reflexive (advances cur).
Proof. intros conns. unfold advances. reflexivity. Qed.

#[global] Instance advances_trans cur : Transitive (advances cur).
Proof. intros c1 c2 c3. unfold advances. apply transitivity. Qed.

Lemma advances_length cur conns conns' :
  advances cur conns conns' → length conns' = length conns.
Proof. intros Hadv. symmetry. by eapply Forall2_length. Qed.

Lemma advances_lookup cur conns conns' i c :
  advances cur conns conns' → conns !! i = Some c →
  ∃ c', conns' !! i = Some c' ∧ connection_advances cur c c'.
Proof. intros Hadv Hi. by eapply Forall2_lookup_l. Qed.

Lemma advances_lookup_r cur conns conns' i c' :
  advances cur conns conns' → conns' !! i = Some c' →
  ∃ c, conns !! i = Some c ∧ connection_advances cur c c'.
Proof. intros Hadv Hi. by eapply Forall2_lookup_r. Qed.

Lemma connection_advances_rev_length cur c c' :
  connection_advances cur c c' →
  length (reverse_channels c') = length (reverse_channels c).
Proof. intros (_ & _ & Hr). symmetry. by eapply Forall2_length. Qed.

Lemma fwd_stamped_advances cur conns conns' i :
  advances cur conns conns' → fwd_stamped cur conns i →
  fwd_stamped cur conns' i.
Proof.
  intros Hadv (c & Hi & Hc).
  destruct (advances_lookup _ _ _ _ _ Hadv Hi) as (c' & Hi' & _ & Hf & _).
  exists c'. split; [done|]. destruct Hf as [->|Hf]; done.
Qed.

Lemma rev_stamped_advances cur conns conns' i v :
  advances cur conns conns' → rev_stamped cur conns i v →
  rev_stamped cur conns' i v.
Proof.
  intros Hadv (c & r & Hi & Hv & Hr).
  destruct (advances_lookup _ _ _ _ _ Hadv Hi) as (c' & Hi' & _ & _ & Hrs).
  destruct (Forall2_lookup_l _ _ _ _ _ Hrs Hv) as (r' & Hv' & Hadvr).
  exists c', r'. repeat split; [done..|]. destruct Hadvr as [->|Hr']; done.
Qed.

Lemma all_rev_stamped_advances cur conns conns' i :
  advances cur conns conns' → all_rev_stamped cur conns i →
  all_rev_stamped cur conns' i.
Proof.
  intros Hadv (c & Hi & Hc).
  destruct (advances_lookup _ _ _ _ _ Hadv Hi) as (c' & Hi' & _ & _ & Hrs).
  exists c'. split; [done|]. intros v r' Hv'.
  destruct (Forall2_lookup_r _ _ _ _ _ Hrs Hv') as (r & Hv & [->|Hr']);
    eauto.
Qed.

Lemma all_rev_stamped_alt cur conns i :
  all_rev_stamped cur conns i ↔
  ∃ c, conns !! i = Some c
       ∧ ∀ v, (v < length (reverse_channels c))%nat → rev_stamped cur conns i v.
Proof.
  split.
  - intros (c & Hi & Hc). exists c. split; [done|]. intros v Hv.
    destruct (lookup_lt_is_Some_2 _ _ Hv) as [r Hr].
    exists c, r. eauto.
  - intros (c & Hi & Hc). exists c. split; [done|]. intros v r Hv.
    destruct (Hc v) as (c' & r' & Hi' & Hv' & Hr').
    { by eapply lookup_lt_Some. }
    congruence.
Qed.

(** An assignment to a channel is an advance when it stamps the channel
    with the current cycle or writes back what the channel held. *)
Lemma write_forward_advances cur i f conns :
  (cycle f = cur ∨ ∃ c, conns !! i = Some c ∧ f = forward_channels c) →
  advances cur conns (write_forward i f conns).
Proof.
  intros Hf. apply Forall2_same_length_lookup. split.
  { by rewrite write_forward_length. }
  intros j c c' Hj Hj'. unfold write_forward in Hj'.
  destruct (decide (i = j)) as [->|Hne].
  - rewrite list_lookup_alter_eq, Hj in Hj'. injection Hj' as <-.
    split; [done|]. split; [|simpl; reflexivity]. simpl.
    destruct Hf as [Hf|(c0 & Hc0 & ->)]; [by right|]. left.
    rewrite Hj in Hc0. by injection Hc0 as ->.
  - rewrite list_lookup_alter_ne, Hj in Hj' by done. injection Hj' as <-.
    reflexivity.
Qed.

Lemma write_reverse_advances cur i v r conns :
  cycle r = cur → advances cur conns (write_reverse i v r conns).
Proof.
  intros Hr. apply Forall2_same_length_lookup. split.
  { by rewrite write_reverse_length. }
  intros j c c' Hj Hj'. unfold write_reverse in Hj'.
  destruct (decide (i = j)) as [->|Hne].
  - rewrite list_lookup_alter_eq, Hj in Hj'. injection Hj' as <-.
    split; [done|]. split; [simpl; reflexivity|]. simpl.
    apply Forall2_same_length_lookup. split; [by rewrite length_insert|].
    intros w t t' Hw Hw'. destruct (decide (v = w)) as [->|Hvw].
    + rewrite list_lookup_insert_eq in Hw' by (by eapply lookup_lt_Some).
      injection Hw' as <-. by right.
    + rewrite list_lookup_insert_ne in Hw' by done. left. congruence.
  - rewrite list_lookup_alter_ne, Hj in Hj' by done. injection Hj' as <-.
    reflexivity.
Qed.

Lemma write_reverse_advances_same cur i v r conns c :
  conns !! i = Some c → reverse_channels c !! v = Some r →
  advances cur conns (write_reverse i v r conns).
Proof. intros Hi Hv. by erewrite write_reverse_same. Qed.

Lemma write_forward_stamped cur i p conns :
  (i < length conns)%nat →
  fwd_stamped cur (write_forward i (mkTimed cur p) conns) i.
Proof.
  intros Hi. destruct (lookup_lt_is_Some_2 _ _ Hi) as [c Hc].
  exists (set_forward_channels (mkTimed cur p) c). split; [|done].
  unfold write_forward. by rewrite list_lookup_alter_eq, Hc.
Qed.

Lemma write_reverse_stamped cur i v p conns c :
  conns !! i = Some c → (v < length (reverse_channels c))%nat →
  rev_stamped cur (write_reverse i v (mkTimed cur p) conns) i v.
Proof.
  intros Hi Hv.
  exists (set_reverse_channel v (mkTimed cur p) c), (mkTimed cur p).
  unfold write_reverse. rewrite list_lookup_alter_eq, Hi. simpl.
  by rewrite list_lookup_insert_eq.
Qed.

(** Loops of advancing steps advance. *)
Lemma for_each_advances {I} cur (ixs : list I) body conns conns' :
  (∀ i c c', body i c = Done c' → advances cur c c') →
  for_each ixs body conns = Done conns' → advances cur conns conns'.
Proof.
  intros Hbody Hrun.
  apply (for_each_inv (advances cur conns) ixs body conns conns');
    [|reflexivity|done].
  intros i c c' _ Hc Hstep. etrans; [done|]. by eapply Hbody.
Qed.

Lemma write_reverse_channel_advances cur i v r r0 conns c :
  conns !! i = Some c → reverse_channels c !! v = Some r0 →
  channel_advances cur r0 r →
  advances cur conns (write_reverse i v r conns).
Proof.
  intros Hi Hv [->|Hr].
  - by eapply write_reverse_advances_same.
  - by apply write_reverse_advances.
Qed.

(** ** The tick of a component *)

Section Laws.
Context {C : Type} `{SimNetworkComponentLaws C}.
Implicit Types (c : C) (conns : Connections) (sim : SimulatorView).

Lemma settled_advances sim c conns conns' :
  advances (GetCurrentCycle sim) conns conns' →
  settled sim c conns → settled sim c conns'.
Proof.
  intros Hadv [Hf Hr].
  split; intros Hk;
    [eapply forward_done_advances|eapply reverse_done_advances]; eauto.
Qed.

Lemma forward_phase_inv sim c conns b c1 conns1 :
  forward_phase sim c conns = Done (b, c1, conns1) →
  (forward_propagated_cycle_ (base c) = GetCurrentCycle sim
   ∧ b = true ∧ c1 = c ∧ conns1 = conns)
  ∨ (forward_propagated_cycle_ (base c) ≠ GetCurrentCycle sim
     ∧ ∃ c0, TryForwardPropagation sim c conns = Done (b, c0, conns1)
             ∧ c1 = if b
                    then with_base
                           (set_forward_propagated_cycle
                              (GetCurrentCycle sim) (base c0)) c0
                    else c0).
Proof.
  unfold forward_phase.
  destruct (Z.eqb_spec (forward_propagated_cycle_ (base c))
              (GetCurrentCycle sim)) as [Heq|Hne].
  - intros [= <- <- <-]. by left.
  - intros Hrun. right. split; [done|].
    destruct (TryForwardPropagation sim c conns) as [[[ok c0] conns0]|];
      [|done].
    simpl in Hrun. exists c0. destruct ok; by injection Hrun as <- <- <-.
Qed.

Lemma reverse_phase_inv sim c conns b c1 conns1 :
  reverse_phase sim c conns = Done (b, c1, conns1) →
  (reverse_propagated_cycle_ (base c) = GetCurrentCycle sim
   ∧ b = true ∧ c1 = c ∧ conns1 = conns)
  ∨ (reverse_propagated_cycle_ (base c) ≠ GetCurrentCycle sim
     ∧ ∃ c0, TryReversePropagation sim c conns = Done (b, c0, conns1)
             ∧ c1 = if b
                    then with_base
                           (set_reverse_propagated_cycle
                              (GetCurrentCycle sim) (base c0)) c0
                    else c0).
Proof.
  unfold reverse_phase.
  destruct (Z.eqb_spec (reverse_propagated_cycle_ (base c))
              (GetCurrentCycle sim)) as [Heq|Hne].
  - intros [= <- <- <-]. by left.
  - intros Hrun. right. split; [done|].
    destruct (TryReversePropagation sim c conns) as [[[ok c0] conns0]|];
      [|done].
    simpl in Hrun. exists c0. destruct ok; by injection Hrun as <- <- <-.
Qed.

Lemma Tick_inv sim c conns b c2 conns2 :
  Tick sim c conns = Done (b, c2, conns2) →
  ∃ fwd rev c1 conns1,
    forward_phase sim c conns = Done (fwd, c1, conns1)
    ∧ reverse_phase sim c1 conns1 = Done (rev, c2, conns2)
    ∧ b = fwd && rev.
Proof.
  unfold Tick. intros Hrun.
  apply bind_Done in Hrun as ([[fwd c1] conns1] & Hf & Hrun).
  apply bind_Done in Hrun as ([[rev c2'] conns2'] & Hr & Hrun).
  injection Hrun as <- <- <-. by exists fwd, rev, c1, conns1.
Qed.

Lemma forward_phase_law sim c conns b c1 conns1 :
  settled sim c conns →
  forward_phase sim c conns = Done (b, c1, conns1) →
  advances (GetCurrentCycle sim) conns conns1
  ∧ wiring c1 = wiring c
  ∧ settled sim c1 conns1
  ∧ reverse_propagated_cycle_ (base c1) = reverse_propagated_cycle_ (base c)
  ∧ (b = true → forward_propagated_cycle_ (base c1) = GetCurrentCycle sim).
Proof.
  intros Hset Hrun.
  apply forward_phase_inv in Hrun
    as [(Hk & -> & -> & ->)|(Hk & c0 & Hrun & ->)].
  { repeat split; try done; apply Hset. }
  apply TryForwardPropagation_law in Hrun as (Hadv & Hw & Hrpc & Hb).
  destruct b.
  - rewrite wiring_with_base, !base_with_base. simpl.
    repeat split; try done.
    + unfold settled. rewrite wiring_with_base, base_with_base, Hw. done.
    + unfold settled. rewrite wiring_with_base, base_with_base, Hw. simpl.
      rewrite Hrpc. intros Hk'. eapply reverse_done_advances; [done|].
      by apply Hset.
  - repeat split; try done.
    + rewrite Hb. congruence.
    + rewrite Hrpc, Hw. intros Hk'. eapply reverse_done_advances; [done|].
      by apply Hset.
Qed.

Lemma reverse_phase_law sim c conns b c1 conns1 :
  settled sim c conns →
  reverse_phase sim c conns = Done (b, c1, conns1) →
  advances (GetCurrentCycle sim) conns conns1
  ∧ wiring c1 = wiring c
  ∧ settled sim c1 conns1
  ∧ forward_propagated_cycle_ (base c1) = forward_propagated_cycle_ (base c)
  ∧ (b = true → reverse_propagated_cycle_ (base c1) = GetCurrentCycle sim).
Proof.
  intros Hset Hrun.
  apply reverse_phase_inv in Hrun
    as [(Hk & -> & -> & ->)|(Hk & c0 & Hrun & ->)].
  { repeat split; try done; apply Hset. }
  apply TryReversePropagation_law in Hrun as (Hadv & Hw & Hfpc & Hb).
  destruct b.
  - rewrite wiring_with_base, !base_with_base. simpl.
    repeat split; try done.
    + unfold settled. rewrite wiring_with_base, base_with_base, Hw. simpl.
      rewrite Hfpc. intros Hk'. eapply forward_done_advances; [done|].
      by apply Hset.
    + unfold settled. rewrite wiring_with_base, base_with_base, Hw. done.
  - repeat split; try done.
    + rewrite Hfpc, Hw. intros Hk'. eapply forward_done_advances; [done|].
      by apply Hset.
    + rewrite Hb. congruence.
Qed.

Lemma Tick_law sim c conns b c' conns' :
  settled sim c conns →
  Tick sim c conns = Done (b, c', conns') →
  advances (GetCurrentCycle sim) conns conns'
  ∧ wiring c' = wiring c
  ∧ settled sim c' conns'.
Proof.
  intros Hset Hrun.
  apply Tick_inv in Hrun as (fwd & rev & c1 & conns1 & Hf & Hr & ->).
  apply forward_phase_law in Hf as (Ha1 & Hw1 & Hs1 & _); [|done].
  apply reverse_phase_law in Hr as (Ha2 & Hw2 & Hs2 & _); [|done].
  split; [by etrans|]. split; [congruence|done].
Qed.

(** A tick that reports convergence leaves both phases marked as done
    for the current cycle. *)
Lemma Tick_true sim c conns c' conns' :
  Tick sim c conns = Done (true, c', conns') →
  converged_in (GetCurrentCycle sim) c'.
Proof.
  intros Hrun.
  apply Tick_inv in Hrun as (fwd & rev & c1 & conns1 & Hf & Hr & Hb).
  symmetry in Hb. apply andb_true_iff in Hb as [-> ->].
  assert (forward_propagated_cycle_ (base c1) = GetCurrentCycle sim) as Hc1.
  { apply forward_phase_inv in Hf as [(? & _ & -> & _)|(_ & c0 & _ & ->)];
      [done|]. by rewrite base_with_base. }
  apply reverse_phase_inv in Hr as [(? & _ & -> & _)|(_ & c0 & Hr & ->)];
    [done|].
  apply TryReversePropagation_law in Hr as (_ & _ & Hfpc & _).
  split; rewrite base_with_base; simpl; congruence.
Qed.

(** A component whose two phases are marked as done is not touched by a
    tick. *)
Lemma Tick_converged sim c conns :
  converged_in (GetCurrentCycle sim) c →
  Tick sim c conns = Done (true, c, conns).
Proof.
  intros [Hf Hr]. unfold Tick, forward_phase, reverse_phase.
  rewrite Hf, Z.eqb_refl. simpl. by rewrite Hr, Z.eqb_refl.
Qed.

(** *** The loop over a vector of components *)

Lemma tick_components_inv sim (ncs : list C) conv conns b ncs' conns' :
  tick_components sim ncs conv conns = Done (b, ncs', conns') →
  match ncs with
  | [] => b = conv ∧ ncs' = [] ∧ conns' = conns
  | nc :: rest =>
      ∃ this nc1 conns1 rest1,
        Tick sim nc conns = Done (this, nc1, conns1)
        ∧ tick_components sim rest (conv && this) conns1
          = Done (b, rest1, conns')
        ∧ ncs' = nc1 :: rest1
  end.
Proof.
  destruct ncs as [|nc rest]; simpl.
  - by intros [= <- <- <-].
  - intros Hrun.
    apply bind_Done in Hrun as ([[this nc1] conns1] & Ht & Hrun).
    apply bind_Done in Hrun as ([[b1 rest1] conns2] & Hrest & Hrun).
    injection Hrun as <- <- <-. by exists this, nc1, conns1, rest1.
Qed.

Lemma tick_components_law sim (ncs : list C) conv conns b ncs' conns' :
  Forall (λ c, settled sim c conns) ncs →
  tick_components sim ncs conv conns = Done (b, ncs', conns') →
  advances (GetCurrentCycle sim) conns conns'
  ∧ Forall2 (λ c c', wiring c' = wiring c) ncs ncs'
  ∧ Forall (λ c, settled sim c conns') ncs'.
Proof.
  revert conv conns ncs'.
  induction ncs as [|nc rest IH]; intros conv conns ncs' Hset Hrun;
    apply tick_components_inv in Hrun.
  - destruct Hrun as (-> & -> & ->). split; [reflexivity|]. by split.
  - destruct Hrun as (this & nc1 & conns1 & rest1 & Ht & Hrest & ->).
    apply Forall_cons_1 in Hset as [Hnc Hset].
    apply Tick_law in Ht as (Ha1 & Hw1 & Hs1); [|done].
    apply IH in Hrest as (Ha2 & Hw2 & Hs2).
    2:{ eapply Forall_impl; [|exact Hset]. intros c.
        by apply settled_advances. }
    split; [by etrans|]. split; [by constructor|].
    constructor; [|done]. by eapply settled_advances.
Qed.

Lemma tick_components_true sim (ncs : list C) conv conns ncs' conns' :
  tick_components sim ncs conv conns = Done (true, ncs', conns') →
  conv = true ∧ Forall (converged_in (GetCurrentCycle sim)) ncs'.
Proof.
  revert conv conns ncs'.
  induction ncs as [|nc rest IH]; intros conv conns ncs' Hrun;
    apply tick_components_inv in Hrun.
  - by destruct Hrun as (-> & -> & ->).
  - destruct Hrun as (this & nc1 & conns1 & rest1 & Ht & Hrest & ->).
    apply IH in Hrest as [Hand Hrest].
    apply andb_true_iff in Hand as [-> ->].
    split; [done|]. constructor; [|done]. by eapply Tick_true.
Qed.

Lemma tick_components_converged sim (ncs : list C) conv conns :
  Forall (converged_in (GetCurrentCycle sim)) ncs →
  tick_components sim ncs conv conns = Done (conv, ncs, conns).
Proof.
  revert conv. induction ncs as [|nc rest IH]; intros conv Hall; [done|].
  apply Forall_cons_1 in Hall as [Hnc Hrest]. simpl.
  rewrite (Tick_converged sim nc conns Hnc). simpl.
  rewrite (IH (conv && true) Hrest). simpl. by rewrite andb_true_r.
Qed.

(** A property of the component alone that each phase keeps is kept by
    the loop. *)
Lemma Tick_preserves (P : C → Prop) sim c conns b c' conns' :
  (∀ k c, P c → P (with_base k c)) →
  (∀ c conns b c' conns',
     P c → TryForwardPropagation sim c conns = Done (b, c', conns') → P c') →
  (∀ c conns b c' conns',
     P c → TryReversePropagation sim c conns = Done (b, c', conns') → P c') →
  P c → Tick sim c conns = Done (b, c', conns') → P c'.
Proof.
  intros Hbase Hfwd Hrev Hc Hrun.
  apply Tick_inv in Hrun as (fwd & rev & c1 & conns1 & Hf & Hr & ->).
  assert (P c1) as Hc1.
  { apply forward_phase_inv in Hf as [(_ & _ & -> & _)|(_ & c0 & Hf & ->)];
      [done|].
    apply Hfwd in Hf; [|done]. destruct fwd; [by apply Hbase|done]. }
  apply reverse_phase_inv in Hr as [(_ & _ & -> & _)|(_ & c0 & Hr & ->)];
    [done|].
  apply Hrev in Hr; [|done]. destruct rev; [by apply Hbase|done].
Qed.

Lemma tick_components_preserves (P : C → Prop) sim (ncs : list C) conv conns
    b ncs' conns' :
  (∀ k c, P c → P (with_base k c)) →
  (∀ c conns b c' conns',
     P c → TryForwardPropagation sim c conns = Done (b, c', conns') → P c') →
  (∀ c conns b c' conns',
     P c → TryReversePropagation sim c conns = Done (b, c', conns') → P c') →
  Forall P ncs →
  tick_components sim ncs conv conns = Done (b, ncs', conns') →
  Forall P ncs'.
Proof.
  intros Hbase Hfwd Hrev. revert conv conns ncs'.
  induction ncs as [|nc rest IH]; intros conv conns ncs' Hall Hrun;
    apply tick_components_inv in Hrun.
  - by destruct Hrun as (_ & -> & _).
  - destruct Hrun as (this & nc1 & conns1 & rest1 & Ht & Hrest & ->).
    apply Forall_cons_1 in Hall as [Hnc Hall]. constructor.
    + by eapply Tick_preserves.
    + by eapply IH.
Qed.

End Laws.

(** ** The link *)

Module SimLinkFacts.
Import SimLink SimLinkInv.

Lemma link_TryForwardPropagation_inv sim l conns b l' conns' :
  TryForwardPropagation sim l conns = Done (b, l', conns') →
  ∃ src sink p,
    conns !! src_connection_index_ l = Some src
    ∧ conns !! sink_connection_index_ l = Some sink
    ∧ SimplePipelineImpl.TryPropagation (GetCurrentCycle sim)
        (SimplePipelineImpl.mk (forward_pipeline_stages_ l)
           (forward_channels src) (forward_channels sink)
           (forward_data_stages_ l)) = (b, p)
    ∧ conns' = write_forward (sink_connection_index_ l)
                 (SimplePipelineImpl.to_ p) conns
    ∧ l' = (if b
            then set_base (set_forward_propagated_cycle
                             (GetCurrentCycle sim) (base_ l))
            else λ x, x)
             (set_forward_data_stages (SimplePipelineImpl.state_ p) l).
Proof.
  unfold TryForwardPropagation. intros Hrun. inv_res.
  destruct (SimplePipelineImpl.TryPropagation _ _) as [did p] eqn:Hp.
  eexists _, _, p. split; [done|]. split; [done|].
  destruct did; injection Hrun as <- <- <-; by rewrite Hp.
Qed.

(** A forward propagation that reports success has moved nothing. *)
Lemma TryForwardPropagation_true sim l conns l' conns' :
  TryForwardPropagation sim l conns = Done (true, l', conns') →
  conns' = conns
  ∧ l' = set_base (set_forward_propagated_cycle (GetCurrentCycle sim)
                     (base_ l)) l
  ∧ fwd_stamped (GetCurrentCycle sim) conns (sink_connection_index_ l).
Proof.
  intros Hrun.
  apply link_TryForwardPropagation_inv in Hrun
    as (src & sink & p & Hsrc & Hsink & Hp & -> & ->).
  apply TryPropagation_true in Hp as (-> & _ & Hto). simpl in *.
  split; [by apply write_forward_same|]. split; [by destruct l|].
  by exists sink.
Qed.

Lemma link_TryForwardPropagation_law sim l conns b l' conns' :
  TryForwardPropagation sim l conns = Done (b, l', conns') →
  advances (GetCurrentCycle sim) conns conns'
  ∧ (src_connection_index_ l', sink_connection_index_ l')
    = (src_connection_index_ l, sink_connection_index_ l)
  ∧ reverse_propagated_cycle_ (base_ l')
    = reverse_propagated_cycle_ (base_ l)
  ∧ (if b
     then fwd_stamped (GetCurrentCycle sim) conns' (sink_connection_index_ l)
     else forward_propagated_cycle_ (base_ l')
          = forward_propagated_cycle_ (base_ l)).
Proof.
  intros Hrun. destruct b.
  - apply TryForwardPropagation_true in Hrun as (-> & -> & Hst).
    by repeat split.
  - apply link_TryForwardPropagation_inv in Hrun
      as (src & sink & p & Hsrc & Hsink & Hp & -> & ->).
    repeat split; try done.
    apply write_forward_advances.
    pose proof (TryPropagation_to_changes (GetCurrentCycle sim)
      (SimplePipelineImpl.mk (forward_pipeline_stages_ l)
         (forward_channels src) (forward_channels sink)
         (forward_data_stages_ l))) as Hto.
    rewrite Hp in Hto. simpl in Hto. destruct Hto as [Hto|Hto]; [|by left].
    right. by exists sink.
Qed.

Lemma reverse_lane_inv sim l conns0 k st st' :
  reverse_lanes_inv sim l conns0 k st →
  reverse_lane sim l k st = Done st' →
  reverse_lanes_inv sim l conns0 (S k) st'.
Proof.
  destruct st as [[num stages] conns]. intros (Hadv & Hnum & Hall) Hrun.
  unfold reverse_lane in Hrun. inv_res.
  rename x into src, x0 into sink, x1 into from, x2 into to, x3 into state.
  destruct (SimplePipelineImpl.TryPropagation _ _) as [ok p] eqn:Hp.
  injection Hrun as <-. unfold reverse_lanes_inv.
  destruct ok.
  - apply TryPropagation_true in Hp as (-> & _ & Hto). simpl in *.
    rewrite (write_reverse_same _ _ _ _ _ H H2).
    rewrite list_insert_id by done.
    split; [done|]. split; [lia|]. intros Hk.
    destruct Hall as (-> & -> & Hall); [lia|]. repeat split; try done.
    intros v Hv. destruct (decide (v = k)) as [->|Hne].
    + by exists src, to.
    + apply Hall. lia.
  - split; [|split; [lia|intros; lia]].
    etrans; [done|]. eapply write_reverse_channel_advances; [done..|].
    pose proof (TryPropagation_to_changes (GetCurrentCycle sim)
      (SimplePipelineImpl.mk (reverse_pipeline_stages_ l) from to state))
      as Hto.
    rewrite Hp in Hto. simpl in Hto. destruct Hto as [->|Hto];
      [by left|by right].
Qed.

Lemma link_TryReversePropagation_inv sim l conns b l' conns' :
  TryReversePropagation sim l conns = Done (b, l', conns') →
  ∃ sink num stages,
    conns !! sink_connection_index_ l = Some sink
    ∧ reverse_lanes_inv sim l conns (length (reverse_channels sink))
        (num, stages, conns')
    ∧ b = (num =? Z.of_nat (length (reverse_channels sink)))
    ∧ l' = (if b
            then set_base (set_reverse_propagated_cycle
                             (GetCurrentCycle sim) (base_ l))
            else λ x, x) (set_reverse_credit_stages stages l).
Proof.
  unfold TryReversePropagation. intros Hrun. inv_res.
  rename x0 into sink. destruct x1 as [[num stages] conns1].
  exists sink, num, stages. split; [done|].
  assert (conns1 = conns'
          ∧ b = (num =? Z.of_nat (length (reverse_channels sink)))) as [-> ->].
  { destruct (num =? _); by injection Hrun as <- <- <-. }
  split; [|split; [done|]].
  - eapply (for_upto_ind (reverse_lanes_inv sim l conns)); [| |done].
    + intros i st st' _. apply reverse_lane_inv.
    + split; [reflexivity|]. split; [done|]. intros _.
      repeat split; try done. intros v Hv. lia.
  - destruct (num =? _); by injection Hrun as <-.
Qed.

(** A reverse propagation that reports success has moved nothing. *)
Lemma TryReversePropagation_true sim l conns l' conns' :
  TryReversePropagation sim l conns = Done (true, l', conns') →
  conns' = conns
  ∧ l' = set_base (set_reverse_propagated_cycle (GetCurrentCycle sim)
                     (base_ l)) l.
Proof.
  intros Hrun.
  apply link_TryReversePropagation_inv in Hrun
    as (sink & num & stages & Hsink & (_ & _ & Hall) & Hb & ->).
  symmetry in Hb. apply Z.eqb_eq in Hb.
  destruct (Hall Hb) as (-> & -> & _). split; [done|]. by destruct l.
Qed.

Lemma reverse_done_advances sim w conns conns' :
  advances (GetCurrentCycle sim) conns conns' →
  reverse_done sim w conns → reverse_done sim w conns'.
Proof.
  intros Hadv Hdone sink' Hsink' v Hv.
  destruct (advances_lookup_r _ _ _ _ _ Hadv Hsink') as (sink & Hsink & Hc).
  eapply rev_stamped_advances; [done|]. eapply Hdone; [done|].
  by rewrite <- (connection_advances_rev_length _ _ _ Hc).
Qed.

Lemma link_TryReversePropagation_law sim l conns b l' conns' :
  TryReversePropagation sim l conns = Done (b, l', conns') →
  advances (GetCurrentCycle sim) conns conns'
  ∧ (src_connection_index_ l', sink_connection_index_ l')
    = (src_connection_index_ l, sink_connection_index_ l)
  ∧ forward_propagated_cycle_ (base_ l')
    = forward_propagated_cycle_ (base_ l)
  ∧ (if b
     then reverse_done sim (src_connection_index_ l,
                            sink_connection_index_ l) conns'
     else reverse_propagated_cycle_ (base_ l')
          = reverse_propagated_cycle_ (base_ l)).
Proof.
  intros Hrun.
  apply link_TryReversePropagation_inv in Hrun
    as (sink & num & stages & Hsink & (Hadv & _ & Hall) & Hb & ->).
  split; [done|]. destruct b; repeat split; try done.
  symmetry in Hb. apply Z.eqb_eq in Hb.
  destruct (Hall Hb) as (-> & _ & Hst). intros sink' Hsink' v Hv.
  simpl in *. apply Hst. congruence.
Qed.
End SimLinkFacts.

#[global] Instance SimLink_laws : SimNetworkComponentLaws SimLink.t.
Proof.
  split.
  - done.
  - done.
  - intros sim w conns conns'. apply fwd_stamped_advances.
  - exact SimLinkFacts.reverse_done_advances.
  - exact SimLinkFacts.link_TryForwardPropagation_law.
  - exact SimLinkFacts.link_TryReversePropagation_law.
Qed.

Lemma SimLink_Tick_true sim (l l' : SimLink.t) conns conns' :
  Tick sim l conns = Done (true, l', conns') →
  conns' = conns
  ∧ SimLink.forward_data_stages_ l' = SimLink.forward_data_stages_ l
  ∧ SimLink.reverse_credit_stages_ l' = SimLink.reverse_credit_stages_ l.
Proof.
  intros Hrun.
  apply Tick_inv in Hrun as (fwd & rev & l1 & conns1 & Hf & Hr & Hb).
  symmetry in Hb. apply andb_true_iff in Hb as [-> ->].
  assert (conns1 = conns
          ∧ SimLink.forward_data_stages_ l1 = SimLink.forward_data_stages_ l
          ∧ SimLink.reverse_credit_stages_ l1
            = SimLink.reverse_credit_stages_ l) as (-> & <- & <-).
  { apply forward_phase_inv in Hf as [(_ & _ & -> & ->)|(_ & l0 & Hf & ->)];
      [done|].
    by apply SimLinkFacts.TryForwardPropagation_true in Hf as (-> & -> & _). }
  apply reverse_phase_inv in Hr as [(_ & _ & -> & ->)|(_ & l0 & Hr & ->)];
    [done|].
  by apply SimLinkFacts.TryReversePropagation_true in Hr as (-> & ->).
Qed.

(** C10.  A propagation attempt reports success exactly when the upstream
    and the downstream slot already carry the stamp of the current cycle,
    so the attempt that consumes the upstream phit and drives the
    downstream slot reports failure.  For a link: a forward propagation
    that finds the downstream slot without the stamp of the current cycle
    reports failure, the tick that runs it does not converge, and a tick
    of the link that converges has moved no phit, neither between the
    connections nor in the queues of the link. *)
Theorem link_converges_after_moving :
  (∀ (T : Type) (HT : Phit T) (current_cycle : Z)
     (p : SimplePipelineImpl.t T),
     fst (SimplePipelineImpl.TryPropagation current_cycle p) = true
     ↔ cycle (SimplePipelineImpl.from_ p) = current_cycle
       ∧ cycle (SimplePipelineImpl.to_ p) = current_cycle)
  ∧ (∀ (T : Type) (HT : Phit T) (current_cycle : Z)
       (p : SimplePipelineImpl.t T),
       snd (SimplePipelineImpl.TryPropagation current_cycle p) ≠ p →
       fst (SimplePipelineImpl.TryPropagation current_cycle p) = false)
  ∧ (∀ sim (l : SimLink.t) conns sink b l' conns',
       conns !! SimLink.sink_connection_index_ l = Some sink →
       cycle (forward_channels sink) ≠ GetCurrentCycle sim →
       SimLink.TryForwardPropagation sim l conns = Done (b, l', conns') →
       b = false)
  ∧ (∀ sim (l : SimLink.t) conns sink b l' conns',
       conns !! SimLink.sink_connection_index_ l = Some sink →
       cycle (forward_channels sink) ≠ GetCurrentCycle sim →
       forward_propagated_cycle_ (SimLink.base_ l) ≠ GetCurrentCycle sim →
       Tick sim l conns = Done (b, l', conns') →
       b = false)
  ∧ (∀ sim (l : SimLink.t) conns l' conns',
       Tick sim l conns = Done (true, l', conns') →
       conns' = conns
       ∧ SimLink.forward_data_stages_ l' = SimLink.forward_data_stages_ l
       ∧ SimLink.reverse_credit_stages_ l'
         = SimLink.reverse_credit_stages_ l).
Proof.
  assert (∀ sim (l : SimLink.t) conns sink b l' conns',
       conns !! SimLink.sink_connection_index_ l = Some sink →
       cycle (forward_channels sink) ≠ GetCurrentCycle sim →
       SimLink.TryForwardPropagation sim l conns = Done (b, l', conns') →
       b = false) as Hforward.
  { intros sim l conns sink b l' conns' Hsink Hstamp Hrun.
    destruct b; [|done].
    apply SimLinkFacts.TryForwardPropagation_true in Hrun
      as (_ & _ & sink' & Hsink' & Hstamp').
    congruence. }
  split; [|split; [|split; [|split]]].
  - intros T HT cur p. rewrite TryPropagation_flag, andb_true_iff.
    by rewrite !Z.eqb_eq.
  - intros T HT cur p Hmoved.
    destruct (SimplePipelineImpl.TryPropagation cur p) as [[] p'] eqn:Hp;
      [|done].
    apply TryPropagation_true in Hp as (-> & _). by destruct Hmoved.
  - exact Hforward.
  - intros sim l conns sink b l' conns' Hsink Hstamp Hfpc Hrun.
    apply Tick_inv in Hrun as (fwd & rev & l1 & conns1 & Hf & Hr & ->).
    apply forward_phase_inv in Hf as [(Hk & _)|(_ & l0 & Hf & _)]; [done|].
    by rewrite (Hforward _ _ _ _ _ _ _ Hsink Hstamp Hf).
  - intros sim l conns l' conns'. apply SimLink_Tick_true.
Qed.

(** A link in cycle 5: the tick that takes the phit 9 from its upstream
    connection does not converge; with both connections stamped the tick
    converges and moves nothing. *)
Lemma link_converges_after_moving_witness :
  let sim := mkView 5 Examples.no_routes [] in
  let l := SimLink.mk (mkBase 7 4 4) 1 1 0 1 [] [[]] in
  let fresh := mkConnection 1 (mkTimed 4 bubble)
                 [mkTimed 4 (MetadataPhit.mk false 0)] in
  let driven := mkConnection 0 (mkTimed 5 (DataPhit.mk true 0 0 9))
                  [mkTimed 4 (MetadataPhit.mk false 0)] in
  let settled_conn := mkConnection 0 (mkTimed 5 bubble)
                        [mkTimed 5 (MetadataPhit.mk false 0)] in
  let moving := Examples.value (true, l, []) (Tick sim l [driven; fresh]) in
  let still := Examples.value (false, l, [])
                 (Tick sim l [settled_conn; settled_conn]) in
  SimLink.forward_data_stages_ moving.1.2 = [DataPhit.mk true 0 0 9]
  ∧ moving.1.1 = false
  ∧ still.1.1 = true
  ∧ still.2 = [settled_conn; settled_conn]
  ∧ SimLink.forward_data_stages_ still.1.2 = SimLink.forward_data_stages_ l
  ∧ SimLink.reverse_credit_stages_ still.1.2
    = SimLink.reverse_credit_stages_ l.
Proof.
  intros sim l fresh driven settled_conn moving still.
  split; [reflexivity|]. split.
  - apply (proj1 (proj2 (proj2 (proj2 link_converges_after_moving)))
             sim l [driven; fresh] fresh moving.1.1 moving.1.2 moving.2).
    + reflexivity.
    + simpl. lia.
    + simpl. lia.
    + reflexivity.
  - split; [reflexivity|].
    apply (proj2 (proj2 (proj2 (proj2 link_converges_after_moving)))
             sim l [settled_conn; settled_conn] still.1.2 still.2).
    reflexivity.
Defined.

(** ** The source interface *)

Module SimNetworkInterfaceSrcFacts.
Import SimNetworkInterfaceSrc SimNetworkInterfaceSrcInv.

(** *** The credit updates *)

Lemma add_credit_update_inv updates vc credit credit' :
  add_credit_update updates vc credit = Done credit' →
  ∃ u, updates !! vc = Some u
       ∧ ((CreditState.credit u ≤ 0 ∧ credit' = credit)
          ∨ (0 < CreditState.credit u
             ∧ ∃ c, credit !! vc = Some c
                    ∧ credit'
                      = <[vc := wrap_int64 (c + CreditState.credit u)]>
                          credit)).
Proof.
  unfold add_credit_update. intros Hrun. inv_res. rename x into u.
  exists u. split; [done|].
  destruct (Z.ltb_spec 0 (CreditState.credit u)).
  - inv_res. right. split; [done|]. by eexists.
  - inv_res. left. by split.
Qed.


Lemma add_credit_updates_none updates n credit credit' :
  Forall (λ u, CreditState.credit u ≤ 0) updates →
  for_upto n (add_credit_update updates) credit = Done credit' →
  credit' = credit.
Proof.
  intros Hu. apply (for_upto_inv (λ cr, cr = credit)); [|done].
  intros vc cr cr' _ -> Hstep.
  apply add_credit_update_inv in Hstep
    as (u & Hvc & [[_ ->]|(Hpos & _)]); [done|].
  pose proof (Forall_lookup_1 _ _ _ _ Hu Hvc). simpl in *. lia.
Qed.

Lemma add_credit_updates_closed updates credit :
  (length credit ≤ length updates)%nat →
  for_upto (length credit) (add_credit_update updates) credit
  = Done (SourceDescription.updated_credit updates credit).
Proof.
  intros Hlen.
  destruct (for_upto_total
    (λ k cr, length cr = length credit
             ∧ ∀ j, cr !! j = if decide (j < k)%nat
                              then SourceDescription.updated_credit
                                     updates credit !! j
                              else credit !! j)
    (length credit) (add_credit_update updates) credit)
    as (cr' & Hrun & Hlen' & Hcr').
  - intros k cr Hk [Hl Hcr].
    destruct (lookup_lt_is_Some_2 updates k) as [u Hu]; [lia|].
    destruct (lookup_lt_is_Some_2 credit k) as [c Hc]; [lia|].
    assert (cr !! k = Some c) as Hck.
    { rewrite Hcr. by rewrite decide_False by lia. }
    assert (SourceDescription.updated_credit updates credit !! k
            = Some (if 0 <? CreditState.credit u
                    then wrap_int64 (c + CreditState.credit u) else c))
      as Hclosed.
    { unfold SourceDescription.updated_credit.
      by rewrite list_lookup_imap, Hc, Hu. }
    unfold add_credit_update, subscript. rewrite Hu. simpl.
    destruct (0 <? CreditState.credit u) eqn:Hpos.
    + rewrite Hck. simpl. eexists. split; [done|].
      split; [by rewrite length_insert|]. intros j.
      destruct (decide (j = k)) as [->|Hne].
      * rewrite list_lookup_insert_eq by lia.
        by rewrite decide_True by lia.
      * rewrite list_lookup_insert_ne by done. rewrite Hcr.
        repeat case_decide; try done; lia.
    + eexists. split; [done|]. split; [done|]. intros j.
      destruct (decide (j = k)) as [->|Hne].
      * rewrite decide_True by lia. by rewrite Hck, Hclosed.
      * rewrite Hcr. repeat case_decide; try done; lia.
  - split; [done|]. intros j. by rewrite decide_False by lia.
  - rewrite Hrun. f_equal. apply list_eq. intros j. rewrite Hcr'.
    case_decide as Hj; [done|].
    rewrite !lookup_ge_None_2; [done|..].
    + unfold SourceDescription.updated_credit. rewrite length_imap. lia.
    + lia.
Qed.

(** *** The scan of the channels *)

Lemma send_data_inv sim vcs s conns b s' conns' :
  send_data sim vcs s conns = Done (b, s', conns') →
  (b = false ∧ s' = s ∧ conns' = conns)
  ∨ (b = true ∧ ∃ vc, vc ∈ vcs ∧ sends sim s conns vc s' conns').
Proof.
  induction vcs as [|vc vcs IH]; simpl; intros Hrun.
  { injection Hrun as <- <- <-. by left. }
  assert ((b = false ∧ s' = s ∧ conns' = conns)
          ∨ b = true ∧ (∃ vc0, vc0 ∈ vcs ∧ sends sim s conns vc0 s' conns')
          → (b = false ∧ s' = s ∧ conns' = conns)
            ∨ b = true
              ∧ (∃ vc0, vc0 ∈ vc :: vcs ∧ sends sim s conns vc0 s' conns'))
    as Hnext.
  { intros [?|[? (vc0 & ? & ?)]]; [by left|right]. split; [done|].
    exists vc0. split; [by right|done]. }
  inv_res. rename x into send_queue.
  destruct send_queue as [|front popped]; [by auto|].
  destruct (Z.leb_spec (cycle front) (GetCurrentCycle sim)); [|by auto].
  inv_res. rename x into credit.
  destruct (Z.ltb_spec 0 credit); [|by auto].
  injection Hrun as <- <- <-. right. split; [done|].
  exists vc. split; [by left|]. by exists front, popped, credit.
Qed.

Lemma qualifies_false cur s vc send_queue :
  data_to_send_ s !! vc = Some send_queue →
  match send_queue with
  | [] => True
  | front :: _ =>
      cur < cycle front ∨ ∃ c, credit_ s !! vc = Some c ∧ c ≤ 0
  end →
  SourceDescription.qualifies cur s vc = false.
Proof.
  unfold SourceDescription.qualifies. intros -> Hq.
  destruct send_queue as [|front popped]; [done|].
  destruct Hq as [Hq|(c & -> & Hc)].
  - destruct (credit_ s !! vc); [|done].
    apply andb_false_iff. left. by apply Z.leb_gt.
  - apply andb_false_iff. right. by apply Z.ltb_ge.
Qed.

Lemma send_data_find sim vcs s conns :
  length (credit_ s) = length (data_to_send_ s) →
  Forall (λ vc, (vc < length (data_to_send_ s))%nat) vcs →
  send_data sim vcs s conns
  = Done (match find (SourceDescription.qualifies (GetCurrentCycle sim) s)
                  vcs with
          | Some vc =>
              match data_to_send_ s !! vc, credit_ s !! vc with
              | Some (front :: popped), Some credit =>
                  (true,
                   set_data_to_send (<[vc := popped]> (data_to_send_ s))
                     (set_credit (<[vc := credit - 1]> (credit_ s)) s),
                   write_forward (sink_connection_index_ s)
                     (mkTimed (GetCurrentCycle sim)
                        (DataPhit.mk true
                           (DataPhit.destination_index (phit front))
                           (Z.of_nat vc) (DataPhit.data (phit front))))
                     conns)
              | _, _ => (false, s, conns)
              end
          | None => (false, s, conns)
          end).
Proof.
  intros Hlen. induction vcs as [|vc vcs IH]; intros Hvcs; [done|].
  apply Forall_cons_1 in Hvcs as [Hvc Hvcs]. specialize (IH Hvcs).
  destruct (lookup_lt_is_Some_2 (data_to_send_ s) vc) as [q Hq]; [done|].
  destruct (lookup_lt_is_Some_2 (credit_ s) vc) as [c Hc]; [lia|].
  simpl. unfold subscript. rewrite Hq. simpl.
  destruct q as [|front popped].
  { by rewrite (qualifies_false _ _ _ _ Hq). }
  destruct (Z.leb_spec (cycle front) (GetCurrentCycle sim)) as [Hdue|Hdue].
  2:{ rewrite (qualifies_false _ _ _ _ Hq); [done|]. by left. }
  rewrite Hc. simpl.
  destruct (Z.ltb_spec 0 c) as [Hpos|Hpos].
  2:{ rewrite (qualifies_false _ _ _ _ Hq); [done|]. right. by exists c. }
  assert (SourceDescription.qualifies (GetCurrentCycle sim) s vc = true)
    as ->.
  { unfold SourceDescription.qualifies. rewrite Hq, Hc.
    apply andb_true_iff. split; [by apply Z.leb_le|by apply Z.ltb_lt]. }
  by rewrite Hq, Hc.
Qed.

(** *** The two propagations *)

Lemma src_TryForwardPropagation_inv sim s conns b s' conns' :
  TryForwardPropagation sim s conns = Done (b, s', conns') →
  ∃ credit did s2 conns2,
    b = true
    ∧ (sink_connection_index_ s < length conns)%nat
    ∧ for_upto (length (credit_ s)) (add_credit_update (credit_update_ s))
        (credit_ s) = Done credit
    ∧ send_data sim (seq 0 (length (data_to_send_ s))) (set_credit credit s)
        conns = Done (did, s2, conns2)
    ∧ s' = set_base (set_forward_propagated_cycle (GetCurrentCycle sim)
                       (base_ s2)) s2
    ∧ conns' = if did then conns2
               else write_forward (sink_connection_index_ s)
                      (mkTimed (GetCurrentCycle sim) bubble) conns2.
Proof.
  unfold TryForwardPropagation. intros Hrun. inv_res.
  destruct x1 as [[did s2] conns2]. injection Hrun as <- <- <-.
  exists x0, did, s2, conns2. repeat split; try done.
  by eapply lookup_lt_Some.
Qed.

Lemma src_TryForwardPropagation_law sim s conns b s' conns' :
  TryForwardPropagation sim s conns = Done (b, s', conns') →
  advances (GetCurrentCycle sim) conns conns'
  ∧ sink_connection_index_ s' = sink_connection_index_ s
  ∧ reverse_propagated_cycle_ (base_ s')
    = reverse_propagated_cycle_ (base_ s)
  ∧ (if b
     then fwd_stamped (GetCurrentCycle sim) conns' (sink_connection_index_ s)
     else forward_propagated_cycle_ (base_ s')
          = forward_propagated_cycle_ (base_ s)).
Proof.
  intros Hrun.
  apply src_TryForwardPropagation_inv in Hrun
    as (credit & did & s2 & conns2 & -> & Hidx & _ & Hsend & -> & ->).
  apply send_data_inv in Hsend
    as [(-> & -> & ->)|(-> & vc & _ & front & popped & c & _ & _ & _ & _
                        & -> & ->)]; simpl.
  - split; [apply write_forward_advances; by left|].
    repeat split; try done. by apply write_forward_stamped.
  - split; [apply write_forward_advances; by left|].
    repeat split; try done. by apply write_forward_stamped.
Qed.

Lemma receive_credit_inv sim idx conns vc st st' :
  receive_credit sim idx conns vc st = Done st' →
  length st'.2 = length st.2.
Proof.
  destruct st as [num updates]. unfold receive_credit. intros Hrun.
  inv_res. destruct (_ =? _); inv_res; [|done].
  simpl. destruct (_ =? _); [done|]. by rewrite length_insert.
Qed.

Lemma src_TryReversePropagation_inv sim s conns b s' conns' :
  TryReversePropagation sim s conns = Done (b, s', conns') →
  ∃ updates,
    conns' = conns
    ∧ s' = (if b
            then set_base (set_reverse_propagated_cycle
                             (GetCurrentCycle sim) (base_ s))
            else λ x, x) (set_credit_update updates s).
Proof.
  unfold TryReversePropagation. intros Hrun. inv_res.
  destruct x0 as [num updates]. exists updates.
  destruct (num =? _); by injection Hrun as <- <- <-.
Qed.

Lemma src_TryReversePropagation_law sim s conns b s' conns' :
  TryReversePropagation sim s conns = Done (b, s', conns') →
  advances (GetCurrentCycle sim) conns conns'
  ∧ sink_connection_index_ s' = sink_connection_index_ s
  ∧ forward_propagated_cycle_ (base_ s')
    = forward_propagated_cycle_ (base_ s)
  ∧ (if b then True
     else reverse_propagated_cycle_ (base_ s')
          = reverse_propagated_cycle_ (base_ s)).
Proof.
  intros Hrun.
  apply src_TryReversePropagation_inv in Hrun as (updates & -> & ->).
  split; [reflexivity|]. by destruct b.
Qed.

(** *** Credits *)


End SimNetworkInterfaceSrcFacts.

#[global] Instance SimNetworkInterfaceSrc_laws
  : SimNetworkComponentLaws SimNetworkInterfaceSrc.t.
Proof.
  split.
  - done.
  - done.
  - intros sim w conns conns'. apply fwd_stamped_advances.
  - done.
  - exact SimNetworkInterfaceSrcFacts.src_TryForwardPropagation_law.
  - exact SimNetworkInterfaceSrcFacts.src_TryReversePropagation_law.
Qed.

(** The shape that the forward propagation of the source expects is the
    one that [InitializeImpl] builds; the injection of traffic and the
    two propagations keep it. *)
Lemma source_shaped :
  (∀ b n k i,
     SimNetworkInterfaceSrcInv.shaped
       (SimNetworkInterfaceSrc.InitializeImpl b n k i))
  ∧ (∀ p s,
       SimNetworkInterfaceSrcInv.shaped s →
       SimNetworkInterfaceSrcInv.shaped
         (SimNetworkInterfaceSrc.SendPhitAtTime p s).2)
  ∧ (∀ sim s conns b s' conns',
       SimNetworkInterfaceSrcInv.shaped s →
       SimNetworkInterfaceSrc.TryForwardPropagation sim s conns
       = Done (b, s', conns') →
       SimNetworkInterfaceSrcInv.shaped s')
  ∧ (∀ sim s conns b s' conns',
       SimNetworkInterfaceSrcInv.shaped s →
       SimNetworkInterfaceSrc.TryReversePropagation sim s conns
       = Done (b, s', conns') →
       SimNetworkInterfaceSrcInv.shaped s').
Proof.
  unfold SimNetworkInterfaceSrcInv.shaped.
  split; [|split; [|split]].
  - intros b n k i. simpl. by rewrite !length_replicate.
  - intros p s [Hc Hu]. unfold SimNetworkInterfaceSrc.SendPhitAtTime.
    destruct (_ <? _); simpl; [|done]. by rewrite length_alter.
  - intros sim s conns b s' conns' [Hc Hu] Hrun.
    apply SimNetworkInterfaceSrcFacts.src_TryForwardPropagation_inv in Hrun
      as (credit & did & s2 & conns2 & _ & _ & Hadd & Hsend & -> & _).
    rewrite SimNetworkInterfaceSrcFacts.add_credit_updates_closed in Hadd
      by lia.
    injection Hadd as <-.
    apply SimNetworkInterfaceSrcFacts.send_data_inv in Hsend
      as [(_ & -> & _)|(_ & vc & _ & front & popped & c & _ & _ & _ & _
                        & -> & _)];
      simpl; unfold SourceDescription.updated_credit;
      rewrite ?length_insert, length_imap; done.
  - intros sim s conns b s' conns' [Hc Hu] Hrun.
    unfold SimNetworkInterfaceSrc.TryReversePropagation in Hrun. inv_res.
    destruct x0 as [num updates].
    assert (length updates
            = length (SimNetworkInterfaceSrc.credit_update_ s)) as Hlen.
    { revert H0.
      apply (for_upto_inv
               (λ st : Z * list CreditState.t,
                  length st.2
                  = length (SimNetworkInterfaceSrc.credit_update_ s)));
        [|done].
      intros vc st st' _ Hst Hstep.
      apply SimNetworkInterfaceSrcFacts.receive_credit_inv in Hstep.
      congruence. }
    destruct (num =? _); injection Hrun as <- <- <-; simpl; split; congruence.
Qed.

(** C6.  In a source whose connection exists and whose three vectors have
    one entry for each virtual channel (as [InitializeImpl] builds them
    and every step of a run keeps them), the forward propagation finishes
    and reports success in the tick that runs it, and it is the
    propagation of the description: after the pending credit is added,
    the first channel in ascending order whose head is due and whose
    credit is positive sends its head, with [valid] set, [vc] set to the
    number of the channel and the stamp of the current cycle, the queue is
    popped and the credit decremented; if no channel qualifies, a bubble
    with the stamp of the current cycle is written. *)
Theorem source_forward_propagation (sim : SimulatorView)
    (s : SimNetworkInterfaceSrc.t) (conns : Connections) :
  (SimNetworkInterfaceSrc.sink_connection_index_ s < length conns)%nat →
  SimNetworkInterfaceSrcInv.shaped s →
  SimNetworkInterfaceSrc.TryForwardPropagation sim s conns
  = Done
      (let '(s2, conns2) :=
         SourceDescription.forward_propagation (GetCurrentCycle sim)
           (SimNetworkInterfaceSrc.set_credit
              (SourceDescription.updated_credit
                 (SimNetworkInterfaceSrc.credit_update_ s)
                 (SimNetworkInterfaceSrc.credit_ s)) s)
           conns in
       (true,
        SimNetworkInterfaceSrc.set_base
          (set_forward_propagated_cycle (GetCurrentCycle sim)
             (SimNetworkInterfaceSrc.base_ s2)) s2,
        conns2)).
Proof.
  intros Hidx [Hcredit Hupdates].
  destruct (lookup_lt_is_Some_2 _ _ Hidx) as [sink Hsink].
  unfold SimNetworkInterfaceSrc.TryForwardPropagation,
    GetSimConnectionByIndex, subscript.
  rewrite Hsink. simpl.
  rewrite SimNetworkInterfaceSrcFacts.add_credit_updates_closed by lia.
  simpl.
  set (s1 := SimNetworkInterfaceSrc.set_credit _ s).
  assert (length (SimNetworkInterfaceSrc.credit_ s1)
          = length (SimNetworkInterfaceSrc.data_to_send_ s1)) as Hlen1.
  { simpl. unfold SourceDescription.updated_credit.
    by rewrite length_imap. }
  rewrite SimNetworkInterfaceSrcFacts.send_data_find; [|done|].
  2:{ apply Forall_forall. intros vc Hvc. apply in_seq in Hvc.
      subst s1. simpl in *. lia. }
  simpl. unfold SourceDescription.forward_propagation,
    SourceDescription.first_qualifying.
  destruct (find _ _) as [vc|] eqn:Hfind; [|done].
  apply find_some in Hfind as [_ Hq].
  unfold SourceDescription.qualifies in Hq. subst s1. simpl in *.
  destruct (SimNetworkInterfaceSrc.data_to_send_ s !! vc)
    as [[|front popped]|]; try done.
  by destruct (SourceDescription.updated_credit _ _ !! vc).
Qed.

(** A source in cycle 3 with two channels: the head of channel 0 is not
    due, channel 1 has no credit until the pending update of 2 is added,
    and sends its head. *)
Lemma source_forward_propagation_witness :
  let sim := mkView 3 (mkRoutingTable (λ _ _ _, None) (λ _ _, None)
                          (λ _ _, None)) [] in
  let s := SimNetworkInterfaceSrc.mk (mkBase 1 2 2) 0
             [[mkTimed 5 (DataPhit.mk false 4 0 10)];
              [mkTimed 2 (DataPhit.mk false 6 0 11);
               mkTimed 3 (DataPhit.mk false 6 0 12)]]
             [1; 0] [CreditState.mk 2 0; CreditState.mk 2 2] in
  let conns := [mkConnection 0 (mkTimed 2 bubble)
                  [mkTimed 2 (MetadataPhit.mk false 0);
                   mkTimed 2 (MetadataPhit.mk false 0)]] in
  SimNetworkInterfaceSrc.TryForwardPropagation sim s conns
  = Done (true,
          SimNetworkInterfaceSrc.mk (mkBase 1 3 2) 0
            [[mkTimed 5 (DataPhit.mk false 4 0 10)];
             [mkTimed 3 (DataPhit.mk false 6 0 12)]]
            [1; 1] [CreditState.mk 2 0; CreditState.mk 2 2],
          [mkConnection 0 (mkTimed 3 (DataPhit.mk true 6 1 11))
             [mkTimed 2 (MetadataPhit.mk false 0);
              mkTimed 2 (MetadataPhit.mk false 0)]]).
Proof.
  intros sim s conns.
  rewrite (source_forward_propagation sim s conns); [reflexivity|..].
  - simpl. lia.
  - split; reflexivity.
Defined.

(** ** The content of a reverse channel *)

Lemma write_reverse_channel conns i v r n :
  rev_channels_count conns i n → (v < n)%nat →
  rev_channel (write_reverse i v r conns) i v r.
Proof.
  intros (c & Hi & Hn) Hv. exists (set_reverse_channel v r c).
  unfold write_reverse. rewrite list_lookup_alter_eq, Hi. simpl.
  split; [done|]. apply list_lookup_insert_eq. lia.
Qed.

Lemma write_reverse_channel_other conns i v r j w t :
  (i, v) ≠ (j, w) → rev_channel conns j w t →
  rev_channel (write_reverse i v r conns) j w t.
Proof.
  intros Hne (c & Hj & Hw). unfold write_reverse.
  destruct (decide (i = j)) as [->|Hij].
  - exists (set_reverse_channel v r c).
    rewrite list_lookup_alter_eq, Hj. simpl. split; [done|].
    rewrite list_lookup_insert_ne; [done|]. congruence.
  - exists c. by rewrite list_lookup_alter_ne.
Qed.

Lemma write_reverse_count conns i v r j n :
  rev_channels_count conns j n →
  rev_channels_count (write_reverse i v r conns) j n.
Proof.
  intros (c & Hj & Hn). unfold write_reverse.
  destruct (decide (i = j)) as [->|Hij].
  - exists (set_reverse_channel v r c).
    rewrite list_lookup_alter_eq, Hj. simpl. split; [done|].
    by rewrite length_insert.
  - exists c. by rewrite list_lookup_alter_ne.
Qed.

Lemma rev_channels_count_advances cur conns conns' i n :
  advances cur conns conns' → rev_channels_count conns i n →
  rev_channels_count conns' i n.
Proof.
  intros Hadv (c & Hi & Hn).
  destruct (advances_lookup _ _ _ _ _ Hadv Hi) as (c' & Hi' & Hc).
  exists c'. split; [done|].
  by rewrite (connection_advances_rev_length _ _ _ Hc).
Qed.

Lemma rev_stamped_count cur conns i n :
  rev_channels_count conns i n →
  (∀ v, (v < n)%nat → rev_stamped cur conns i v) →
  all_rev_stamped cur conns i.
Proof.
  intros (c & Hi & Hn) Hall. apply all_rev_stamped_alt.
  exists c. split; [done|]. intros v Hv. apply Hall. lia.
Qed.

(** ** The sink interface *)

Module SimNetworkInterfaceSinkFacts.
Import SimNetworkInterfaceSink SimNetworkInterfaceSinkInv.

Lemma full_credit_update_inv sim s vc conns conns' :
  full_credit_update sim s vc conns = Done conns' →
  ∃ buffer,
    input_buffers_ s !! vc = Some buffer
    ∧ conns' = write_reverse (src_connection_index_ s) vc
                 (mkTimed (GetCurrentCycle sim)
                    (MetadataPhit.mk true
                       (InputBuffer.max_queue_size buffer))) conns.
Proof.
  unfold full_credit_update. intros Hrun. inv_res. by eexists.
Qed.

Lemma no_credit_update_inv sim s vc conns conns' :
  no_credit_update sim s vc conns = Done conns' →
  (conns' = conns
   ∧ rev_stamped (GetCurrentCycle sim) conns (src_connection_index_ s) vc)
  ∨ conns' = write_reverse (src_connection_index_ s) vc
               (mkTimed (GetCurrentCycle sim) (MetadataPhit.mk false 0))
               conns.
Proof.
  unfold no_credit_update. intros Hrun. inv_res.
  destruct (Z.eqb_spec (cycle x0) (GetCurrentCycle sim)); inv_res.
  - left. split; [done|]. by exists x, x0.
  - by right.
Qed.

Lemma credit_loop_step sim s conns0 n k conns conns' :
  rev_channels_count conns0 (src_connection_index_ s) n →
  (k < n)%nat →
  credit_loop_inv sim s conns0 n k conns →
  (full_credit_update sim s k conns = Done conns'
   ∨ no_credit_update sim s k conns = Done conns') →
  credit_loop_inv sim s conns0 n (S k) conns'.
Proof.
  intros Hn Hk [Hadv Hst] Hstep.
  destruct (rev_channels_count_advances _ _ _ _ _ Hadv Hn)
    as (c & Hc & Hlen).
  assert (∀ p,
    credit_loop_inv sim s conns0 n (S k)
      (write_reverse (src_connection_index_ s) k
         (mkTimed (GetCurrentCycle sim) p) conns)) as Hwrite.
  { intros p.
    assert (advances (GetCurrentCycle sim) conns
              (write_reverse (src_connection_index_ s) k
                 (mkTimed (GetCurrentCycle sim) p) conns)) as Hadv'.
    { by apply write_reverse_advances. }
    split; [by etrans|]. intros v Hv.
    destruct (decide (v = k)) as [->|Hne].
    - eapply write_reverse_stamped; [done|lia].
    - eapply rev_stamped_advances; [done|]. apply Hst. lia. }
  destruct Hstep as [Hstep|Hstep].
  - apply full_credit_update_inv in Hstep as (buffer & _ & ->).
    apply Hwrite.
  - apply no_credit_update_inv in Hstep as [[-> Hstamped]| ->];
      [|apply Hwrite].
    split; [done|]. intros v Hv.
    destruct (decide (v = k)) as [->|Hne]; [done|]. apply Hst. lia.
Qed.

Lemma sink_TryForwardPropagation_inv sim s conns b s' conns' :
  TryForwardPropagation sim s conns = Done (b, s', conns') →
  ∃ src,
    conns !! src_connection_index_ s = Some src
    ∧ ((b = false ∧ s' = s ∧ conns' = conns
        ∧ cycle (forward_channels src) ≠ GetCurrentCycle sim)
       ∨ (b = true
          ∧ cycle (forward_channels src) = GetCurrentCycle sim
          ∧ ∃ conns1,
              ((DataPhit.valid (phit (forward_channels src)) = false
                ∧ s' = s ∧ conns1 = conns)
               ∨ (DataPhit.valid (phit (forward_channels src)) = true
                  ∧ s' = set_received_traffic
                           (received_traffic_ s ++
                              [mkTimed (GetCurrentCycle sim)
                                 (phit (forward_channels src))]) s
                  ∧ conns1
                    = write_reverse (src_connection_index_ s)
                        (Z.to_nat (DataPhit.vc (phit (forward_channels src))))
                        (mkTimed (GetCurrentCycle sim)
                           (MetadataPhit.mk true 1)) conns))
              ∧ (if GetCurrentCycle sim =? 0
                 then for_upto (length (reverse_channels src))
                        (full_credit_update sim s') conns1
                 else for_upto (length (reverse_channels src))
                        (no_credit_update sim s') conns1) = Done conns')).
Proof.
  unfold TryForwardPropagation. intros Hrun. inv_res. rename x into src.
  exists src. split; [done|].
  destruct (Z.eqb_spec (cycle (forward_channels src)) (GetCurrentCycle sim))
    as [Hstamp|Hstamp]; inv_res.
  2:{ by left. }
  destruct x as [s1 conns1]. inv_res.
  right. split; [done|]. split; [done|]. exists conns1.
  destruct (DataPhit.valid (phit (forward_channels src))) eqn:Hvalid;
    inv_res.
  - split; [by right|]. done.
  - split; [by left|]. done.
Qed.

Lemma sink_TryForwardPropagation_law sim s conns b s' conns' :
  TryForwardPropagation sim s conns = Done (b, s', conns') →
  advances (GetCurrentCycle sim) conns conns'
  ∧ src_connection_index_ s' = src_connection_index_ s
  ∧ reverse_propagated_cycle_ (base_ s')
    = reverse_propagated_cycle_ (base_ s)
  ∧ (if b
     then all_rev_stamped (GetCurrentCycle sim) conns'
            (src_connection_index_ s)
     else forward_propagated_cycle_ (base_ s')
          = forward_propagated_cycle_ (base_ s)).
Proof.
  intros Hrun.
  apply sink_TryForwardPropagation_inv in Hrun
    as (src & Hsrc & [(-> & -> & -> & _)|(-> & Hstamp & conns1 & Hrecv
                                          & Hloop)]).
  { split; [reflexivity|]. done. }
  assert (advances (GetCurrentCycle sim) conns conns1
          ∧ src_connection_index_ s' = src_connection_index_ s
          ∧ base_ s' = base_ s) as (Hadv1 & Hidx & Hbase).
  { destruct Hrecv as [(_ & -> & ->)|(_ & -> & ->)].
    - split; [reflexivity|done].
    - split; [by apply write_reverse_advances|done]. }
  assert (rev_channels_count conns1 (src_connection_index_ s')
            (length (reverse_channels src))) as Hn.
  { rewrite Hidx. eapply rev_channels_count_advances; [done|].
    by exists src. }
  assert (credit_loop_inv sim s' conns1 (length (reverse_channels src))
            (length (reverse_channels src)) conns') as [Hadv Hst].
  { destruct (GetCurrentCycle sim =? 0).
    - eapply (for_upto_ind
        (credit_loop_inv sim s' conns1 (length (reverse_channels src))));
        [| |done].
      + intros k c c' Hk Hinv Hstep.
        eapply credit_loop_step; [done..|by left].
      + split; [reflexivity|]. intros v Hv. lia.
    - eapply (for_upto_ind
        (credit_loop_inv sim s' conns1 (length (reverse_channels src))));
        [| |done].
      + intros k c c' Hk Hinv Hstep.
        eapply credit_loop_step; [done..|by right].
      + split; [reflexivity|]. intros v Hv. lia. }
  split; [by etrans|]. split; [done|]. split; [by rewrite Hbase|].
  rewrite <- Hidx. eapply rev_stamped_count; [|done].
  by eapply rev_channels_count_advances.
Qed.

Lemma sink_TryReversePropagation_law sim s conns b s' conns' :
  TryReversePropagation sim s conns = Done (b, s', conns') →
  advances (GetCurrentCycle sim) conns conns'
  ∧ src_connection_index_ s' = src_connection_index_ s
  ∧ forward_propagated_cycle_ (base_ s')
    = forward_propagated_cycle_ (base_ s)
  ∧ (if b then True
     else reverse_propagated_cycle_ (base_ s')
          = reverse_propagated_cycle_ (base_ s)).
Proof.
  intros [= <- <- <-]. split; [reflexivity|done].
Qed.

(** At cycle 0 every reverse channel receives the depth of its buffer. *)
Lemma full_credit_updates sim s conns conns' n :
  rev_channels_count conns (src_connection_index_ s) n →
  for_upto n (full_credit_update sim s) conns = Done conns' →
  ∀ v, (v < n)%nat →
    ∃ buffer,
      input_buffers_ s !! v = Some buffer
      ∧ rev_channel conns' (src_connection_index_ s) v
          (mkTimed (GetCurrentCycle sim)
             (MetadataPhit.mk true (InputBuffer.max_queue_size buffer))).
Proof.
  intros Hn Hrun.
  apply (for_upto_ind
    (λ k c,
       rev_channels_count c (src_connection_index_ s) n
       ∧ ∀ v, (v < k)%nat →
           ∃ buffer,
             input_buffers_ s !! v = Some buffer
             ∧ rev_channel c (src_connection_index_ s) v
                 (mkTimed (GetCurrentCycle sim)
                    (MetadataPhit.mk true
                       (InputBuffer.max_queue_size buffer)))))
    in Hrun as [_ Hall]; [done| |].
  - intros k c c' Hk [Hc Hdone] Hstep.
    apply full_credit_update_inv in Hstep as (buffer & Hbuf & ->).
    split; [by apply write_reverse_count|]. intros v Hv.
    destruct (decide (v = k)) as [->|Hne].
    + exists buffer. split; [done|]. by eapply write_reverse_channel.
    + destruct (Hdone v) as (buffer' & Hbuf' & Hch); [lia|].
      exists buffer'. split; [done|].
      apply write_reverse_channel_other; [congruence|done].
  - split; [done|]. intros v Hv. lia.
Qed.
End SimNetworkInterfaceSinkFacts.

#[global] Instance SimNetworkInterfaceSink_laws
  : SimNetworkComponentLaws SimNetworkInterfaceSink.t.
Proof.
  split.
  - done.
  - done.
  - intros sim w conns conns'. apply all_rev_stamped_advances.
  - done.
  - exact SimNetworkInterfaceSinkFacts.sink_TryForwardPropagation_law.
  - exact SimNetworkInterfaceSinkFacts.sink_TryReversePropagation_law.
Qed.

(** ** The router: forward propagation *)

Module RouterForward.
Import SimInputBufferedVCRouter RouterInv.

#[global] Instance same_frame_refl : Reflexive same_frame.
Proof. by intros r. Qed.

#[global] Instance same_frame_trans : Transitive same_frame.
Proof.
  intros r1 r2 r3 (?&?&?&?&?) (?&?&?&?&?). unfold same_frame.
  repeat split; congruence.
Qed.

Lemma span_subscript_Done sim sp i idx :
  span_subscript sim sp i = Done idx ↔
  (i < span_size sp)%nat
  ∧ component_to_connection_index_ sim !! (span_start sp + i)%nat = Some idx.
Proof.
  unfold span_subscript. destruct (Nat.ltb_spec i (span_size sp)).
  - rewrite subscript_Done. split; [done|by intros [_ ?]].
  - split; [done|]. intros [? _]. lia.
Qed.

Lemma span_at_Done sim sp z idx :
  span_at sim sp z = Done idx ↔
  0 ≤ z ∧ (Z.to_nat z < span_size sp)%nat
  ∧ component_to_connection_index_ sim !! (span_start sp + Z.to_nat z)%nat
    = Some idx.
Proof.
  unfold span_at. destruct (position z) as [i|] eqn:Hp.
  - apply position_Some in Hp as [Hz ->].
    destruct (Nat.ltb_spec (Z.to_nat z) (span_size sp)).
    + rewrite subscript_Done. split; [done|by intros (_ & _ & ?)].
    + split; [done|]. intros (_ & ? & _). lia.
  - split; [done|]. intros (Hz & _). unfold position in Hp.
    destruct (Z.ltb_spec z 0); [lia|done].
Qed.

Lemma arbitrate_inv sim pos r conns r' conns' :
  arbitrate sim pos (r, conns) = Done (r', conns') →
  (r' = r ∧ conns' = conns) ∨ forwards sim pos r conns r' conns'.
Proof.
  destruct pos as [vc i]. unfold arbitrate. intros Hrun. inv_res.
  rename x into buffers_i.
  destruct (length buffers_i <=? vc)%nat; inv_res; [by left|].
  rename x into buffer.
  destruct (InputBuffer.queue buffer) as [|phit popped] eqn:Hqueue;
    inv_res; [by left|].
  destruct (GetDestinationPortIndexAndVcIndex _ _ _ _) as [output|] eqn:Hroute;
    [|done].
  inv_res. rename x into credit_row, x0 into credit.
  destruct (Z.leb_spec credit 0); inv_res; [by left|].
  rename x into out_index, x0 into output_state.
  destruct (Z.eqb_spec (cycle (forward_channels output_state))
              (GetCurrentCycle sim)); inv_res; [by left|].
  right. unfold forwards. simpl.
  by exists buffers_i, buffer, phit, popped, output, credit_row, credit,
    out_index, output_state, x, x0.
Qed.

Lemma forwards_frame sim pos r conns r' conns' :
  forwards sim pos r conns r' conns' → same_frame r r'.
Proof.
  intros (?&?&?&?&?&?&?&?&?&?&?&?&?&?&?&?&?&?&?&?&?&?&?&?&?&->&?).
  unfold same_frame. simpl. repeat split; try done.
  by rewrite length_insert.
Qed.

Lemma forwards_advances sim pos r conns r' conns' :
  forwards sim pos r conns r' conns' →
  advances (GetCurrentCycle sim) conns conns'.
Proof.
  intros (?&?&?&?&?&?&?&?&?&?&?&?&?&?&?&?&?&?&?&?&?&?&?&?&?&?&->).
  apply write_forward_advances. by left.
Qed.

#[global] Instance step_le_refl sim : Reflexive (step_le sim).
Proof. intros st. split; reflexivity. Qed.

#[global] Instance step_le_trans sim : Transitive (step_le sim).
Proof. intros s1 s2 s3 [??] [??]. split; by etrans. Qed.

Lemma arbitrate_le sim pos st st' :
  arbitrate sim pos st = Done st' → step_le sim st st'.
Proof.
  destruct st as [r conns], st' as [r' conns']. intros Hrun.
  apply arbitrate_inv in Hrun as [[-> ->]|Hfwd]; [reflexivity|].
  split; [by eapply forwards_frame|by eapply forwards_advances].
Qed.

Lemma arbitrations_le sim order st st' :
  for_each order (arbitrate sim) st = Done st' → step_le sim st st'.
Proof.
  intros Hrun.
  apply (for_each_inv (step_le sim st) order (arbitrate sim) st st');
    [|reflexivity|done].
  intros pos s1 s2 _ Hs1 Hstep. etrans; [done|]. by eapply arbitrate_le.
Qed.

(** *** A failed routing lookup *)

Lemma arbitrate_route_failure sim vc i r conns buffers_i buffer phit popped :
  input_buffers_ r !! i = Some buffers_i →
  buffers_i !! vc = Some buffer →
  InputBuffer.queue buffer = phit :: popped →
  GetDestinationPortIndexAndVcIndex sim r
    (mkPortIndexAndVCIndex (Z.of_nat i) (Z.of_nat vc))
    (DataPhit.destination_index phit) = None →
  arbitrate sim (vc, i) (r, conns) = Abort CheckFailure.
Proof.
  intros Hi Hvc Hq Hroute. unfold arbitrate, subscript.
  rewrite Hi. simpl.
  destruct (Nat.leb_spec (length buffers_i) vc) as [Hlen|_].
  { apply lookup_lt_Some in Hvc. lia. }
  rewrite Hvc. simpl. by rewrite Hq, Hroute.
Qed.

Lemma for_each_abort {I St} (before after : list I) i body (s s1 : St) f :
  for_each before body s = Done s1 →
  body i s1 = Abort f →
  for_each (before ++ i :: after) body s = Abort f.
Proof.
  intros Hbefore Hstep. rewrite for_each_app, Hbefore. simpl.
  by rewrite Hstep.
Qed.

(** *** One winner for each output *)

(** An output that carries the stamp of the current cycle is not
    written by an arbitration step. *)
Lemma arbitrate_stamped sim pos r conns r' conns' j c :
  conns !! j = Some c →
  cycle (forward_channels c) = GetCurrentCycle sim →
  arbitrate sim pos (r, conns) = Done (r', conns') →
  conns' !! j = Some c.
Proof.
  intros Hj Hstamp Hrun.
  apply arbitrate_inv in Hrun as [[-> ->]|Hfwd]; [done|].
  destruct Hfwd as (?&?&?&?&?&?&?&out_index&output_state&?&?&?&?&?&?&?&?
                    &?&?&?&?&Hout&Hfree&?&?&?&->).
  unfold write_forward. rewrite list_lookup_alter_ne; [done|].
  intros ->. congruence.
Qed.

Lemma arbitrations_stamped sim order st st' j c :
  st.2 !! j = Some c →
  cycle (forward_channels c) = GetCurrentCycle sim →
  for_each order (arbitrate sim) st = Done st' →
  st'.2 !! j = Some c.
Proof.
  intros Hj Hstamp Hrun.
  apply (for_each_inv (λ s, s.2 !! j = Some c) order (arbitrate sim) st st');
    [|done..].
  intros pos [r1 c1] [r2 c2] _ H1 Hstep. by eapply arbitrate_stamped.
Qed.

(** A step that changes the forward channel of connection [j] has sent a
    valid phit on it and has stamped it. *)
Lemma arbitrate_writes sim pos r conns r' conns' j :
  arbitrate sim pos (r, conns) = Done (r', conns') →
  conns' !! j ≠ conns !! j →
  forwards sim pos r conns r' conns'
  ∧ ∃ c c',
      conns !! j = Some c ∧ conns' !! j = Some c'
      ∧ cycle (forward_channels c) ≠ GetCurrentCycle sim
      ∧ cycle (forward_channels c') = GetCurrentCycle sim
      ∧ DataPhit.valid (phit (forward_channels c')) = true.
Proof.
  intros Hrun Hchanged.
  apply arbitrate_inv in Hrun as [[-> ->]|Hfwd]; [done|].
  split; [done|].
  destruct Hfwd as (?&?&?&?&?&?&?&out_index&output_state&?&?&?&?&?&?&?&?
                    &?&?&?&?&Hout&Hfree&?&?&?&->).
  unfold write_forward in *.
  destruct (decide (out_index = j)) as [->|Hne].
  - exists output_state, (set_forward_channels
      (mkTimed (GetCurrentCycle sim)
         (DataPhit.set_vc (vc_index x3) (DataPhit.set_valid true x1)))
      output_state).
    rewrite list_lookup_alter_eq, Hout. done.
  - by rewrite list_lookup_alter_ne in Hchanged.
Qed.
End RouterForward.

(** ** Entries of a vector of vectors *)

Lemma entry_insert_eq {A} (v : list (list A)) i vc row x y :
  v !! i = Some row → row !! vc = Some y →
  entry (<[i := <[vc := x]> row]> v) i vc = Some x.
Proof.
  intros Hi Hvc. unfold entry.
  rewrite list_lookup_insert_eq by (by eapply lookup_lt_Some).
  apply list_lookup_insert_eq. by eapply lookup_lt_Some.
Qed.

Lemma entry_insert_ne {A} (v : list (list A)) i vc row x j w :
  v !! i = Some row → (i, vc) ≠ (j, w) →
  entry (<[i := <[vc := x]> row]> v) j w = entry v j w.
Proof.
  intros Hi Hne. unfold entry.
  destruct (decide (i = j)) as [->|Hij].
  - rewrite list_lookup_insert_eq by (by eapply lookup_lt_Some).
    rewrite Hi. apply list_lookup_insert_ne. congruence.
  - by rewrite list_lookup_insert_ne.
Qed.

Module RouterForwardPhases.
Import SimInputBufferedVCRouter RouterInv RouterForward.

(** *** Credits *)





(** *** The phases of the forward propagation *)

Lemma credit_phase_frame sim r r1 :
  credit_phase sim r r1 →
  same_frame r r1
  ∧ input_buffers_ r1 = input_buffers_ r
  ∧ input_credit_to_send_ r1 = input_credit_to_send_ r
  ∧ credit_update_ r1 = credit_update_ r.
Proof. by intros [[_ ->]|(_ & credit & _ & ->)]. Qed.


Lemma router_TryForwardPropagation_inv sim r conns b r' conns' :
  TryForwardPropagation sim r conns = Done (b, r', conns') →
  ∃ r1,
    credit_phase sim r r1
    ∧ ((b = false ∧ r' = r1 ∧ conns' = conns
        ∧ can_propagate_forward sim r1 conns
            (seq 0 (input_connection_count_ r1)) = Done false)
       ∨ (b = true
          ∧ can_propagate_forward sim r1 conns
              (seq 0 (input_connection_count_ r1)) = Done true
          ∧ ∃ to_send buffers r4 conns4,
              for_upto (input_connection_count_ r1) reset_credit_to_send
                (input_credit_to_send_ r1) = Done to_send
              ∧ for_upto (input_connection_count_ r1)
                  (receive_phit sim (set_input_credit_to_send to_send r1)
                     conns)
                  (input_buffers_ r1) = Done buffers
              ∧ arbitration sim
                  (set_input_buffers buffers
                     (set_input_credit_to_send to_send r1), conns)
                = Done (r4, conns4)
              ∧ for_upto (output_connection_count_ r4) (fill_bubble sim r4)
                  conns4 = Done conns'
              ∧ r' = set_base (set_forward_propagated_cycle
                                 (GetCurrentCycle sim) (base_ r4)) r4)).
Proof.
  unfold TryForwardPropagation. intros Hrun. inv_res.
  destruct x as [ready r3]. unfold prepare_arbitration in H. inv_res.
  rename x into r1, x0 into ready'. exists r1. split.
  { destruct (Z.eqb_spec (internal_propagated_cycle_ r)
                (GetCurrentCycle sim)); inv_res; [by left|].
    right. split; [done|]. by eexists. }
  destruct ready'; inv_res; [|by left].
  destruct x1 as [r4 conns4]. inv_res. right.
  split; [done|]. split; [done|]. by exists x, x0, r4, conns4.
Qed.

Lemma fill_bubble_inv sim r i conns conns' :
  fill_bubble sim r i conns = Done conns' →
  ∃ index,
    span_subscript sim (output_connection_index r) i = Done index
    ∧ advances (GetCurrentCycle sim) conns conns'
    ∧ fwd_stamped (GetCurrentCycle sim) conns' index.
Proof.
  unfold fill_bubble. intros Hrun. inv_res.
  rename x into index, x0 into output. exists index. split; [done|].
  destruct (Z.eqb_spec (cycle (forward_channels output))
              (GetCurrentCycle sim)); inv_res.
  - split; [reflexivity|]. by exists output.
  - split; [apply write_forward_advances; by left|].
    apply write_forward_stamped. by eapply lookup_lt_Some.
Qed.

Lemma fill_bubbles sim r conns conns' :
  for_upto (output_connection_count_ r) (fill_bubble sim r) conns
  = Done conns' →
  advances (GetCurrentCycle sim) conns conns'
  ∧ outputs_stamped sim (output_connection_index r) conns'
      (output_connection_count_ r).
Proof.
  apply (for_upto_ind
    (λ k c, advances (GetCurrentCycle sim) conns c
            ∧ outputs_stamped sim (output_connection_index r) c k)).
  - intros k c c' Hk [Hadv Hst] Hstep.
    apply fill_bubble_inv in Hstep as (index & Hidx & Hadv' & Hst').
    split; [by etrans|]. intros i Hi.
    destruct (decide (i = k)) as [->|Hne].
    + exists index. split; [|done].
      by apply span_subscript_Done in Hidx as [_ ?].
    + destruct (Hst i) as (index' & Hidx' & Hst''); [lia|].
      exists index'. split; [done|]. by eapply fwd_stamped_advances.
  - split; [reflexivity|]. intros i Hi. lia.
Qed.

Lemma outputs_stamped_advances sim sp conns conns' k :
  advances (GetCurrentCycle sim) conns conns' →
  outputs_stamped sim sp conns k → outputs_stamped sim sp conns' k.
Proof.
  intros Hadv Hst i Hi. destruct (Hst i Hi) as (index & Hidx & Hst').
  exists index. split; [done|]. by eapply fwd_stamped_advances.
Qed.

Lemma arbitration_le sim st st' :
  arbitration sim st = Done st' → step_le sim st st'.
Proof. apply arbitrations_le. Qed.

Lemma router_TryForwardPropagation_law sim r conns b r' conns' :
  TryForwardPropagation sim r conns = Done (b, r', conns') →
  advances (GetCurrentCycle sim) conns conns'
  ∧ (input_connection_index r', output_connection_index r')
    = (input_connection_index r, output_connection_index r)
  ∧ reverse_propagated_cycle_ (base_ r')
    = reverse_propagated_cycle_ (base_ r)
  ∧ (if b
     then outputs_stamped sim (output_connection_index r) conns'
            (span_size (output_connection_index r))
     else forward_propagated_cycle_ (base_ r')
          = forward_propagated_cycle_ (base_ r)).
Proof.
  intros Hrun.
  apply router_TryForwardPropagation_inv in Hrun as (r1 & Hcredit & Hrun).
  apply credit_phase_frame in Hcredit as ((Hb1 & Hi1 & Ho1 & _) & _).
  destruct Hrun as [(-> & -> & -> & _)|(-> & _ & to_send & buffers & r4
                                         & conns4 & _ & _ & Harb & Hfill
                                         & ->)].
  { split; [reflexivity|]. by rewrite Hb1, Hi1, Ho1. }
  apply arbitration_le in Harb as [(Hb4 & Hi4 & Ho4 & _) Hadv4].
  apply fill_bubbles in Hfill as [Hadv5 Hst].
  assert (base_ r4 = base_ r
          ∧ input_connection_index r4 = input_connection_index r
          ∧ output_connection_index r4 = output_connection_index r)
    as (Hb & Hi & Ho).
  { repeat split; (etrans; [|eassumption]); assumption. }
  split; [by etrans|].
  change (input_connection_index (set_base _ r4))
    with (input_connection_index r4).
  change (output_connection_index (set_base _ r4))
    with (output_connection_index r4).
  rewrite Hi, Ho. repeat split; try done.
  - simpl. by rewrite Hb.
  - by rewrite <- Ho.
Qed.

End RouterForwardPhases.

(** ** The router: reverse propagation *)

Module RouterReverse.
Import SimInputBufferedVCRouter RouterInv RouterForward.

Lemma send_credit_inv sim r index i vc conns conns' :
  send_credit sim r index i vc conns = Done conns' →
  ∃ t, credit_sent sim r i vc t ∧ conns' = write_reverse index vc t conns.
Proof.
  unfold send_credit. intros Hrun. inv_res. rename x into data.
  exists (mkTimed (GetCurrentCycle sim) (MetadataPhit.mk true data)).
  split; [|done]. exists data. split; [done|].
  destruct (GetCurrentCycle sim =? 0); inv_res; by eauto.
Qed.

Lemma credit_sent_cycle sim r i v t :
  credit_sent sim r i v t → cycle t = GetCurrentCycle sim.
Proof. by intros (data & -> & _). Qed.

(** The loop over the channels of one input. *)
Lemma send_credit_loop sim r index i n conns conns' :
  rev_channels_count conns index n →
  for_upto n (send_credit sim r index i) conns = Done conns' →
  advances (GetCurrentCycle sim) conns conns'
  ∧ (∀ v, (v < n)%nat →
       ∃ t, credit_sent sim r i v t ∧ rev_channel conns' index v t)
  ∧ (∀ j w t, j ≠ index → rev_channel conns j w t →
              rev_channel conns' j w t).
Proof.
  intros Hn.
  apply (for_upto_ind
    (λ k c,
       advances (GetCurrentCycle sim) conns c
       ∧ (∀ v, (v < k)%nat →
            ∃ t, credit_sent sim r i v t ∧ rev_channel c index v t)
       ∧ (∀ j w t, j ≠ index → rev_channel conns j w t →
                   rev_channel c j w t))).
  - intros k c c' Hk (Hadv & Hdone & Hother) Hstep.
    apply send_credit_inv in Hstep as (t & Ht & ->).
    split; [|split].
    + etrans; [done|]. apply write_reverse_advances.
      by eapply credit_sent_cycle.
    + intros v Hv. destruct (decide (v = k)) as [->|Hne].
      * exists t. split; [done|].
        apply (write_reverse_channel _ _ _ _ n); [|done].
        eapply rev_channels_count_advances; [exact Hadv|exact Hn].
      * destruct (Hdone v) as (t' & Ht' & Hch); [lia|].
        exists t'. split; [done|].
        apply write_reverse_channel_other; [congruence|done].
    + intros j w t' Hj Hch.
      apply write_reverse_channel_other; [congruence|]. by apply Hother.
  - split; [reflexivity|]. split; [intros v Hv; lia|done].
Qed.

Lemma send_credits_inv sim r i conns conns' :
  send_credits sim r i conns = Done conns' →
  ∃ index input,
    span_subscript sim (input_connection_index r) i = Done index
    ∧ conns !! index = Some input
    ∧ for_upto (length (reverse_channels input)) (send_credit sim r index i)
        conns = Done conns'.
Proof.
  unfold send_credits. intros Hrun. inv_res. by exists x, x0.
Qed.

Lemma inputs_stamped_advances sim sp conns conns' k :
  advances (GetCurrentCycle sim) conns conns' →
  inputs_stamped sim sp conns k → inputs_stamped sim sp conns' k.
Proof.
  intros Hadv Hst i Hi. destruct (Hst i Hi) as (index & Hidx & Hst').
  exists index. split; [done|]. by eapply all_rev_stamped_advances.
Qed.

Lemma send_credits_stamped sim r conns conns' :
  for_upto (input_connection_count_ r) (send_credits sim r) conns
  = Done conns' →
  advances (GetCurrentCycle sim) conns conns'
  ∧ inputs_stamped sim (input_connection_index r) conns'
      (input_connection_count_ r).
Proof.
  apply (for_upto_ind
    (λ k c, advances (GetCurrentCycle sim) conns c
            ∧ inputs_stamped sim (input_connection_index r) c k)).
  - intros k c c' Hk [Hadv Hst] Hstep.
    apply send_credits_inv in Hstep as (index & input & Hidx & Hin & Hloop).
    assert (rev_channels_count c index (length (reverse_channels input)))
      as Hn by (by exists input).
    apply send_credit_loop in Hloop as (Hadv' & Hsent & _); [|done].
    split; [by etrans|]. intros i Hi.
    destruct (decide (i = k)) as [->|Hne].
    + exists index. apply span_subscript_Done in Hidx as [_ Hidx].
      split; [done|].
      eapply rev_stamped_count;
        [by eapply rev_channels_count_advances|].
      intros v Hv. destruct (Hsent v Hv) as (t & Ht & c0 & Hc0 & Hv0).
      exists c0, t. repeat split; try done. by eapply credit_sent_cycle.
    + destruct (Hst i) as (index' & Hidx' & Hst'); [lia|].
      exists index'. split; [done|]. by eapply all_rev_stamped_advances.
  - split; [reflexivity|]. intros i Hi. lia.
Qed.

Lemma send_credits_published sim r conns conns' :
  inputs_distinct sim (input_connection_index r) →
  for_upto (input_connection_count_ r) (send_credits sim r) conns
  = Done conns' →
  credits_published sim r conns conns' (input_connection_count_ r).
Proof.
  intros Hdistinct Hrun.
  apply (for_upto_ind
    (λ k c, advances (GetCurrentCycle sim) conns c
            ∧ credits_published sim r conns c k)) in Hrun as [_ Hpub];
    [done| |].
  - intros k c c' Hk [Hadv Hpub] Hstep.
    apply send_credits_inv in Hstep as (index & input & Hidx & Hin & Hloop).
    assert (rev_channels_count c index (length (reverse_channels input)))
      as Hn by (by exists input).
    apply send_credit_loop in Hloop as (Hadv' & Hsent & Hother); [|done].
    apply span_subscript_Done in Hidx as [_ Hidx].
    split; [by etrans|]. intros i Hi.
    destruct (decide (i = k)) as [->|Hne].
    + destruct (advances_lookup_r _ _ _ _ _ Hadv Hin)
        as (input0 & Hin0 & Hc0).
      exists index, input0. repeat split; try done.
      intros v Hv. apply Hsent.
      by rewrite (connection_advances_rev_length _ _ _ Hc0).
    + destruct (Hpub i) as (index' & input' & Hidx' & Hin' & Hsent');
        [lia|].
      exists index', input'. repeat split; try done.
      intros v Hv. destruct (Hsent' v Hv) as (t & Ht & Hch).
      exists t. split; [done|]. apply Hother; [|done].
      intros ->. apply Hne. eapply Hdistinct; [..|done|done]; simpl; lia.
  - split; [reflexivity|]. intros i Hi. lia.
Qed.

Lemma router_TryReversePropagation_inv sim r conns b r' conns' :
  TryReversePropagation sim r conns = Done (b, r', conns') →
  (forward_propagated_cycle_ (base_ r) ≠ GetCurrentCycle sim
   ∧ b = false ∧ r' = r ∧ conns' = conns)
  ∨ (forward_propagated_cycle_ (base_ r) = GetCurrentCycle sim
     ∧ for_upto (input_connection_count_ r) (send_credits sim r) conns
       = Done conns'
     ∧ ∃ updates, r' = set_credit_update updates r).
Proof.
  unfold TryReversePropagation. intros Hrun.
  destruct (Z.eqb_spec (forward_propagated_cycle_ (base_ r))
              (GetCurrentCycle sim)); inv_res; [|by left].
  destruct x0 as [[num possible] updates]. right. split; [done|].
  destruct (possible =? num); inv_res; eauto.
Qed.

Lemma router_TryReversePropagation_law sim r conns b r' conns' :
  TryReversePropagation sim r conns = Done (b, r', conns') →
  advances (GetCurrentCycle sim) conns conns'
  ∧ (input_connection_index r', output_connection_index r')
    = (input_connection_index r, output_connection_index r)
  ∧ forward_propagated_cycle_ (base_ r')
    = forward_propagated_cycle_ (base_ r)
  ∧ (if b
     then inputs_stamped sim (input_connection_index r) conns'
            (span_size (input_connection_index r))
     else reverse_propagated_cycle_ (base_ r')
          = reverse_propagated_cycle_ (base_ r)).
Proof.
  intros Hrun.
  apply router_TryReversePropagation_inv in Hrun
    as [(_ & -> & -> & ->)|(_ & Hsend & updates & ->)].
  { split; [reflexivity|done]. }
  apply send_credits_stamped in Hsend as [Hadv Hst].
  split; [done|]. by destruct b.
Qed.

Lemma router_TryReversePropagation_credit sim r conns b r' conns' :
  RouterInv.credit_nonneg r →
  TryReversePropagation sim r conns = Done (b, r', conns') →
  RouterInv.credit_nonneg r'.
Proof.
  intros Hr Hrun.
  by apply router_TryReversePropagation_inv in Hrun
    as [(_ & -> & -> & ->)|(_ & _ & updates & ->)].
Qed.
End RouterReverse.

#[global] Instance SimInputBufferedVCRouter_laws
  : SimNetworkComponentLaws SimInputBufferedVCRouter.t.
Proof.
  split.
  - done.
  - done.
  - intros sim w conns conns'.
    apply RouterForwardPhases.outputs_stamped_advances.
  - intros sim w conns conns'.
    apply RouterReverse.inputs_stamped_advances.
  - exact RouterForwardPhases.router_TryForwardPropagation_law.
  - exact RouterReverse.router_TryReversePropagation_law.
Qed.

(** ** The credit of a component over a tick *)



(** ** The simulator *)

Module NocSimulatorFacts.
Import NocSimulator NocSimulatorInv.

Lemma simulator_Tick_inv s b s' :
  Tick s = Done (b, s') →
  ∃ c1 c2 c3 srcs links routers sinks conns1 conns2 conns3 conns4,
    tick_components (view s) (network_interface_sources_ s) true
      (connections_ s) = Done (c1, srcs, conns1)
    ∧ tick_components (view s) (links_ s) c1 conns1
      = Done (c2, links, conns2)
    ∧ tick_components (view s) (routers_ s) c2 conns2
      = Done (c3, routers, conns3)
    ∧ tick_components (view s) (network_interface_sinks_ s) c3 conns3
      = Done (b, sinks, conns4)
    ∧ s' = mk (cycle_ s) (routing_ s) (indices_store_ s) conns4
             srcs links routers sinks.
Proof.
  unfold Tick. intros Hrun.
  apply bind_Done in Hrun as ([[c1 srcs] conns1] & H1 & Hrun).
  apply bind_Done in Hrun as ([[c2 links] conns2] & H2 & Hrun).
  apply bind_Done in Hrun as ([[c3 routers] conns3] & H3 & Hrun).
  apply bind_Done in Hrun as ([[c4 sinks] conns4] & H4 & Hrun).
  injection Hrun as <- <-.
  by exists c1, c2, c3, srcs, links, routers, sinks, conns1, conns2, conns3,
    conns4.
Qed.

Lemma simulator_Tick_true s s' : Tick s = Done (true, s') → all_converged s'.
Proof.
  intros Hrun.
  apply simulator_Tick_inv in Hrun
    as (c1 & c2 & c3 & srcs & links & routers & sinks & conns1 & conns2
        & conns3 & conns4 & H1 & H2 & H3 & H4 & ->).
  apply tick_components_true in H4 as [-> H4].
  apply tick_components_true in H3 as [-> H3].
  apply tick_components_true in H2 as [-> H2].
  apply tick_components_true in H1 as [_ H1].
  by repeat split.
Qed.

Lemma simulator_Tick_converged s : all_converged s → Tick s = Done (true, s).
Proof.
  intros (H1 & H2 & H3 & H4). unfold Tick.
  rewrite (tick_components_converged (view s) _ true _ H1). simpl.
  rewrite (tick_components_converged (view s) _ true _ H2). simpl.
  rewrite (tick_components_converged (view s) _ true _ H3). simpl.
  rewrite (tick_components_converged (view s) _ true _ H4). simpl.
  by destruct s.
Qed.

(** *** Stamps: the channels of finished phases are stamped *)

Lemma Forall2_wiring_refl {C} `{SimNetworkComponentLaws C} (l : list C) :
  Forall2 (λ c c', wiring c' = wiring c) l l.
Proof. by apply Forall_Forall2_diag, Forall_true. Qed.

Lemma Forall2_wiring_trans {C} `{SimNetworkComponentLaws C}
    (l1 l2 l3 : list C) :
  Forall2 (λ c c', wiring c' = wiring c) l1 l2 →
  Forall2 (λ c c', wiring c' = wiring c) l2 l3 →
  Forall2 (λ c c', wiring c' = wiring c) l1 l3.
Proof.
  intros H12 H23. eapply Forall2_trans; [|done..].
  simpl. intros c1 c2 c3 ? ?. congruence.
Qed.

Lemma same_wiring_refl s : same_wiring s s.
Proof. repeat split; apply Forall2_wiring_refl. Qed.

Lemma same_wiring_trans s1 s2 s3 :
  same_wiring s1 s2 → same_wiring s2 s3 → same_wiring s1 s3.
Proof.
  intros (Hv1 & Ha1 & Hb1 & Hc1 & Hd1) (Hv2 & Ha2 & Hb2 & Hc2 & Hd2).
  split; [congruence|].
  repeat split; by eapply Forall2_wiring_trans.
Qed.

Lemma settled_list_advances {C} `{SimNetworkComponentLaws C} sim
    (l : list C) conns conns' :
  advances (GetCurrentCycle sim) conns conns' →
  Forall (λ c, settled sim c conns) l → Forall (λ c, settled sim c conns') l.
Proof.
  intros Hadv Hl. eapply Forall_impl; [|exact Hl].
  intros c. by apply settled_advances.
Qed.

Lemma simulator_Tick_law s b s' :
  all_settled s → Tick s = Done (b, s') →
  all_settled s' ∧ same_wiring s s'
  ∧ advances (cycle_ s) (connections_ s) (connections_ s').
Proof.
  intros (Ha & Hb & Hc & Hd) Hrun.
  apply simulator_Tick_inv in Hrun
    as (c1 & c2 & c3 & srcs & links & routers & sinks & conns1 & conns2
        & conns3 & conns4 & H1 & H2 & H3 & H4 & ->).
  apply tick_components_law in H1 as (Hadv1 & Hw1 & Hs1); [|done].
  apply tick_components_law in H2 as (Hadv2 & Hw2 & Hs2);
    [|by eapply settled_list_advances].
  assert (advances (cycle_ s) (connections_ s) conns2) as Hadv12
    by (by etrans).
  apply tick_components_law in H3 as (Hadv3 & Hw3 & Hs3);
    [|by eapply settled_list_advances].
  assert (advances (cycle_ s) (connections_ s) conns3) as Hadv13
    by (by etrans).
  apply tick_components_law in H4 as (Hadv4 & Hw4 & Hs4);
    [|by eapply settled_list_advances].
  assert (advances (cycle_ s) conns2 conns4) as Hadv24 by (by etrans).
  assert (advances (cycle_ s) conns1 conns4) as Hadv14 by (by etrans).
  split; [|split; [by repeat split|by etrans]].
  repeat split; simpl.
  - eapply (settled_list_advances (view s)); [exact Hadv14|exact Hs1].
  - eapply (settled_list_advances (view s)); [exact Hadv24|exact Hs2].
  - eapply (settled_list_advances (view s)); [exact Hadv4|exact Hs3].
  - exact Hs4.
Qed.

Lemma tick_until_converged_inv fuel nticks s n s' :
  tick_until_converged fuel nticks s = Some (Done (n, s')) →
  ∃ fuel1,
    fuel = S fuel1
    ∧ ((Tick s = Done (true, s') ∧ n = nticks + 1)
       ∨ ∃ s1, Tick s = Done (false, s1)
               ∧ tick_until_converged fuel1 (nticks + 1) s1
                 = Some (Done (n, s'))).
Proof.
  destruct fuel as [|fuel1]; [done|]. simpl. intros Hrun.
  exists fuel1. split; [done|].
  destruct (Tick s) as [[[] s1]|]; [|by eauto|done].
  injection Hrun as <- <-. by left.
Qed.

Lemma tick_until_converged_law fuel nticks s n s' :
  all_settled s →
  tick_until_converged fuel nticks s = Some (Done (n, s')) →
  all_settled s' ∧ same_wiring s s' ∧ all_converged s'
  ∧ advances (cycle_ s) (connections_ s) (connections_ s').
Proof.
  revert nticks s. induction fuel as [|fuel IH]; intros nticks s Hs Hrun;
    apply tick_until_converged_inv in Hrun as (fuel1 & Hfuel & Hrun);
    [done|].
  injection Hfuel as <-.
  destruct Hrun as [[Htick _]|(s1 & Htick & Hrun)].
  - pose proof (simulator_Tick_true _ _ Htick).
    apply simulator_Tick_law in Htick as (? & ? & ?); done.
  - apply simulator_Tick_law in Htick as (Hs1 & Hw1 & Hadv1); [|done].
    apply IH in Hrun as (Hs' & Hw' & Hc' & Hadv'); [|done].
    assert (cycle_ s1 = cycle_ s) as Hcycle.
    { destruct Hw1 as [Hv _]. by injection Hv. }
    rewrite Hcycle in Hadv'.
    split; [done|]. split; [by eapply same_wiring_trans|].
    split; [done|by etrans].
Qed.

Lemma RunCycle_inv fuel max_ticks s status s' :
  RunCycle fuel max_ticks s = Some (Done (status, s')) →
  ∃ nticks,
    tick_until_converged fuel 0 (set_cycle (cycle_ s + 1) s)
    = Some (Done (nticks, s'))
    ∧ status = log_connections (connections_ s') nticks max_ticks
                 (cycle_ s').
Proof.
  unfold RunCycle. intros Hrun.
  destruct (tick_until_converged _ _ _) as [[[nticks s1]|]|]; [|done..].
  injection Hrun as <- <-. by exists nticks.
Qed.

(** *** Credits *)



End NocSimulatorFacts.

(** C8.  Once a tick has reported convergence, another tick in the same
    cycle reports convergence again and leaves the whole simulator as it
    is: the connections with their phits and stamps, and every component
    with its queues, buffers and credit. *)
Theorem tick_after_convergence (s s' : NocSimulator.t) :
  NocSimulator.Tick s = Done (true, s') →
  NocSimulator.cycle_ s' = NocSimulator.cycle_ s
  ∧ NocSimulator.Tick s' = Done (true, s').
Proof.
  intros Hrun. split.
  - apply NocSimulatorFacts.simulator_Tick_inv in Hrun
      as (c1 & c2 & c3 & srcs & links & routers & sinks & conns1 & conns2
          & conns3 & conns4 & _ & _ & _ & _ & ->).
    done.
  - apply NocSimulatorFacts.simulator_Tick_converged.
    by apply NocSimulatorFacts.simulator_Tick_true with s.
Qed.

(** A sink in cycle 3 whose connection carries a phit: the first tick
    receives it and converges, the second changes nothing. *)
Lemma tick_after_convergence_witness :
  let s := NocSimulator.mk 3 Examples.no_routes []
             [mkConnection 0 (mkTimed 3 (DataPhit.mk true 0 0 7))
                [mkTimed 2 (MetadataPhit.mk false 0)]]
             [] [] []
             [SimNetworkInterfaceSink.mk (mkBase 1 2 2) 0
                [InputBuffer.mk [] 2] []] in
  let s' := NocSimulator.mk 3 Examples.no_routes []
              [mkConnection 0 (mkTimed 3 (DataPhit.mk true 0 0 7))
                 [mkTimed 3 (MetadataPhit.mk true 1)]]
              [] [] []
              [SimNetworkInterfaceSink.mk (mkBase 1 3 3) 0
                 [InputBuffer.mk [] 2]
                 [mkTimed 3 (DataPhit.mk true 0 0 7)]] in
  NocSimulator.Tick s = Done (true, s')
  ∧ NocSimulator.Tick s' = Done (true, s').
Proof.
  intros s s'.
  assert (NocSimulator.Tick s = Done (true, s')) as Hfirst by reflexivity.
  split; [exact Hfirst|].
  exact (proj2 (tick_after_convergence s s' Hfirst)).
Defined.

Lemma Forall2_elem_of_l {A B} (R : A → B → Prop) l k x :
  Forall2 R l k → x ∈ l → ∃ y, y ∈ k ∧ R x y.
Proof.
  intros HR Hx. apply list_elem_of_lookup in Hx as [i Hi].
  destruct (Forall2_lookup_l _ _ _ _ _ HR Hi) as (y & Hy & Hxy).
  exists y. split; [|done]. apply list_elem_of_lookup. by exists i.
Qed.

Lemma Forall_elem_of {A} (P : A → Prop) l x : Forall P l → x ∈ l → P x.
Proof.
  intros Hl Hx. apply list_elem_of_lookup in Hx as [i Hi].
  by eapply Forall_lookup_1.
Qed.

(** C3.  In a network in which every connection is driven, and from a
    state in which no component is ahead of the simulator: when
    [RunCycle] returns Ok, the simulator is in the next cycle [k], and
    the forward channel and every reverse channel of every connection
    carry the stamp [k]. *)
Theorem connections_stamped_after_cycle (fuel : nat) (max_ticks : Z)
    (s s' : NocSimulator.t) :
  Network.every_connection_driven s →
  Network.no_phase_ahead s →
  NocSimulator.RunCycle fuel max_ticks s = Some (Done (OkStatus, s')) →
  NocSimulator.cycle_ s' = NocSimulator.cycle_ s + 1
  ∧ ∀ i c,
      NocSimulator.connections_ s' !! i = Some c →
      cycle (forward_channels c) = NocSimulator.cycle_ s'
      ∧ ∀ v r, reverse_channels c !! v = Some r →
               cycle r = NocSimulator.cycle_ s'.
Proof.
  intros Hdriven (Ha & Hb & Hc & Hd) Hrun.
  apply NocSimulatorFacts.RunCycle_inv in Hrun as (nticks & Hrun & _).
  set (s0 := NocSimulator.set_cycle (NocSimulator.cycle_ s + 1) s) in *.
  assert (NocSimulatorInv.all_settled s0) as Hsettled.
  { repeat split; simpl;
      (eapply Forall_impl; [|eassumption]); simpl;
      intros c [Hf Hr]; split; simpl; intros Hk; lia. }
  apply NocSimulatorFacts.tick_until_converged_law in Hrun
    as (Hs' & (Hview & Hwa & Hwb & Hwc & Hwd) & (Hca & Hcb & Hcc & Hcd)
        & Hadv); [|done].
  destruct Hs' as (Hsa & Hsb & Hsc & Hsd).
  assert (NocSimulator.cycle_ s' = NocSimulator.cycle_ s + 1) as Hcycle.
  { by injection Hview. }
  assert (NocSimulator.indices_store_ s' = NocSimulator.indices_store_ s)
    as Hstore.
  { by injection Hview. }
  split; [done|]. intros i c Hi.
  assert (i < length (NocSimulator.connections_ s))%nat as Hlt.
  { apply lookup_lt_Some in Hi.
    by rewrite (advances_length _ _ _ Hadv) in Hi. }
  destruct (Hdriven i Hlt) as [Hfwd Hrev]. split.
  - assert (fwd_stamped (NocSimulator.cycle_ s')
              (NocSimulator.connections_ s') i) as (c0 & Hc0 & Hst).
    { destruct Hfwd as [(src & Hin & Hw)|[(l & Hin & Hw)|(r & k & Hin & Hk
                                                          & Hw)]].
      - destruct (Forall2_elem_of_l _ _ _ _ Hwa Hin) as (src' & Hin' & Hw').
        pose proof (Forall_elem_of _ _ _ Hsa Hin') as [Hset _].
        pose proof (Forall_elem_of _ _ _ Hca Hin') as [Hconv _].
        specialize (Hset Hconv). simpl in Hset, Hw'. by rewrite Hw', Hw in Hset.
      - destruct (Forall2_elem_of_l _ _ _ _ Hwb Hin) as (l' & Hin' & Hw').
        pose proof (Forall_elem_of _ _ _ Hsb Hin') as [Hset _].
        pose proof (Forall_elem_of _ _ _ Hcb Hin') as [Hconv _].
        specialize (Hset Hconv). simpl in Hset, Hw'.
        injection Hw' as _ Hw'. by rewrite Hw', Hw in Hset.
      - destruct (Forall2_elem_of_l _ _ _ _ Hwc Hin) as (r' & Hin' & Hw').
        pose proof (Forall_elem_of _ _ _ Hsc Hin') as [Hset _].
        pose proof (Forall_elem_of _ _ _ Hcc Hin') as [Hconv _].
        specialize (Hset Hconv). simpl in Hset, Hw'.
        injection Hw' as ? ? Hstart Hcount.
        destruct (Hset k) as (index & Hindex & Hst); [lia|].
        simpl in Hindex. rewrite Hstore, Hstart, Hw in Hindex.
        by injection Hindex as <-. }
    congruence.
  - assert (all_rev_stamped (NocSimulator.cycle_ s')
              (NocSimulator.connections_ s') i) as (c0 & Hc0 & Hst).
    { destruct Hrev as [(sink & Hin & Hw)
                       |[(l & up & down & Hin & Hw & Hup & Hdown & Hlen)
                        |(r & k & Hin & Hk & Hw)]].
      - destruct (Forall2_elem_of_l _ _ _ _ Hwd Hin) as (sink' & Hin' & Hw').
        pose proof (Forall_elem_of _ _ _ Hsd Hin') as [Hset _].
        pose proof (Forall_elem_of _ _ _ Hcd Hin') as [Hconv _].
        specialize (Hset Hconv). simpl in Hset, Hw'. by rewrite Hw', Hw in Hset.
      - destruct (Forall2_elem_of_l _ _ _ _ Hwb Hin) as (l' & Hin' & Hw').
        pose proof (Forall_elem_of _ _ _ Hsb Hin') as [_ Hset].
        pose proof (Forall_elem_of _ _ _ Hcb Hin') as [_ Hconv].
        specialize (Hset Hconv). simpl in Hset, Hw'.
        injection Hw' as Hsrc' Hsink'. rewrite Hsrc', Hsink', Hw in Hset.
        destruct (advances_lookup _ _ _ _ _ Hadv Hup) as (up' & Hup' & Hcu).
        destruct (advances_lookup _ _ _ _ _ Hadv Hdown)
          as (down' & Hdown' & Hcd').
        apply all_rev_stamped_alt. exists up'. split; [done|].
        intros v Hv. apply (Hset down' Hdown').
        rewrite (connection_advances_rev_length _ _ _ Hcu) in Hv.
        rewrite (connection_advances_rev_length _ _ _ Hcd'). lia.
      - destruct (Forall2_elem_of_l _ _ _ _ Hwc Hin) as (r' & Hin' & Hw').
        pose proof (Forall_elem_of _ _ _ Hsc Hin') as [_ Hset].
        pose proof (Forall_elem_of _ _ _ Hcc Hin') as [_ Hconv].
        specialize (Hset Hconv). simpl in Hset, Hw'.
        injection Hw' as Hstart Hcount ? ?.
        destruct (Hset k) as (index & Hindex & Hst); [lia|].
        simpl in Hindex. rewrite Hstore, Hstart, Hw in Hindex.
        by injection Hindex as <-. }
    intros v r Hv. rewrite Hi in Hc0. injection Hc0 as <-. by eapply Hst.
Qed.

(** The two premises on the network hold again after every cycle that
    returns, so that they hold along a run of cycles once they hold at
    its start. *)
Lemma network_after_cycle (fuel : nat) (max_ticks : Z) (s s' : NocSimulator.t)
    (status : Status) :
  Network.every_connection_driven s →
  Network.no_phase_ahead s →
  NocSimulator.RunCycle fuel max_ticks s = Some (Done (status, s')) →
  Network.every_connection_driven s' ∧ Network.no_phase_ahead s'.
Proof.
  intros Hdriven (Ha & Hb & Hc & Hd) Hrun.
  apply NocSimulatorFacts.RunCycle_inv in Hrun as (nticks & Hrun & _).
  set (s0 := NocSimulator.set_cycle (NocSimulator.cycle_ s + 1) s) in *.
  assert (NocSimulatorInv.all_settled s0) as Hsettled.
  { repeat split; simpl;
      (eapply Forall_impl; [|eassumption]); simpl;
      intros c [Hf Hr]; split; simpl; intros Hk; lia. }
  apply NocSimulatorFacts.tick_until_converged_law in Hrun
    as (_ & (Hview & Hwa & Hwb & Hwc & Hwd) & (Hca & Hcb & Hcc & Hcd)
        & Hadv); [|done].
  assert (NocSimulator.indices_store_ s' = NocSimulator.indices_store_ s)
    as Hstore.
  { by injection Hview. }
  split.
  - intros i Hi. rewrite (advances_length _ _ _ Hadv) in Hi.
    destruct (Hdriven i Hi) as [Hfwd Hrev]. split.
    + destruct Hfwd as [(src & Hin & Hw)|[(l & Hin & Hw)|(r & k & Hin & Hk
                                                          & Hw)]].
      * destruct (Forall2_elem_of_l _ _ _ _ Hwa Hin) as (src' & Hin' & Hw').
        left. exists src'. split; [done|]. simpl in Hw'. congruence.
      * destruct (Forall2_elem_of_l _ _ _ _ Hwb Hin) as (l' & Hin' & Hw').
        right. left. exists l'. split; [done|]. simpl in Hw'.
        injection Hw' as _ Hw'. congruence.
      * destruct (Forall2_elem_of_l _ _ _ _ Hwc Hin) as (r' & Hin' & Hw').
        right. right. exists r', k. split; [done|]. simpl in Hw'.
        injection Hw' as ? ? Hstart Hcount.
        split; [lia|]. by rewrite Hstore, Hstart.
    + destruct Hrev as [(sink & Hin & Hw)
                       |[(l & up & down & Hin & Hw & Hup & Hdown & Hlen)
                        |(r & k & Hin & Hk & Hw)]].
      * destruct (Forall2_elem_of_l _ _ _ _ Hwd Hin) as (sink' & Hin' & Hw').
        left. exists sink'. split; [done|]. simpl in Hw'. congruence.
      * destruct (Forall2_elem_of_l _ _ _ _ Hwb Hin) as (l' & Hin' & Hw').
        simpl in Hw'. injection Hw' as Hsrc' Hsink'.
        destruct (advances_lookup _ _ _ _ _ Hadv Hup) as (up' & Hup' & Hcu).
        destruct (advances_lookup _ _ _ _ _ Hadv Hdown)
          as (down' & Hdown' & Hcd').
        right. left. exists l', up', down'.
        split; [done|]. split; [congruence|]. split; [done|].
        split; [by rewrite Hsink'|].
        rewrite (connection_advances_rev_length _ _ _ Hcu).
        by rewrite (connection_advances_rev_length _ _ _ Hcd').
      * destruct (Forall2_elem_of_l _ _ _ _ Hwc Hin) as (r' & Hin' & Hw').
        right. right. exists r', k. split; [done|]. simpl in Hw'.
        injection Hw' as Hstart Hcount ? ?.
        split; [lia|]. by rewrite Hstore, Hstart.
  - repeat split; (eapply Forall_impl; [|eassumption]); simpl;
      intros c [Hf Hr]; split; simpl in *; lia.
Qed.

(** Cycle 0 of the line. *)
Lemma connections_stamped_after_cycle_witness :
  NocSimulator.RunCycle 10 10 Examples.line
  = Some (Done (OkStatus, Examples.line_after_cycle_0))
  ∧ NocSimulator.cycle_ Examples.line_after_cycle_0 = 0
  ∧ Forall (λ c, cycle (forward_channels c) = 0
                 ∧ Forall (λ r, cycle r = 0) (reverse_channels c))
      (NocSimulator.connections_ Examples.line_after_cycle_0).
Proof.
  assert (NocSimulator.RunCycle 10 10 Examples.line
          = Some (Done (OkStatus, Examples.line_after_cycle_0))) as Hrun
    by (vm_compute; reflexivity).
  split; [exact Hrun|].
  destruct (connections_stamped_after_cycle 10 10 Examples.line
              Examples.line_after_cycle_0) as [Hcycle Hstamps].
  - intros i Hi. destruct i as [|[|i]]; [| |simpl in Hi; lia].
    + split.
      * left. eexists. split; [apply list_elem_of_here|reflexivity].
      * right. left. eexists _, _, _.
        split; [apply list_elem_of_here|].
        split; [reflexivity|]. split; [reflexivity|].
        split; [reflexivity|]. simpl. lia.
    + split.
      * right. left. eexists. split; [apply list_elem_of_here|reflexivity].
      * left. eexists. split; [apply list_elem_of_here|reflexivity].
  - unfold Network.no_phase_ahead, Network.phases_not_ahead. simpl.
    repeat split; repeat constructor; simpl; lia.
  - exact Hrun.
  - split; [exact Hcycle|].
    apply Forall_lookup_2. intros i c Hi.
    destruct (Hstamps i c Hi) as [Hf Hr]. split; [exact Hf|].
    apply Forall_lookup_2. intros v r Hv. exact (Hr v r Hv).
Defined.



(** Without that room the sum wraps around: a source whose credit is the
    largest [int64] and which adds a pending update of 1 is left with the
    least one, and withholds the phit that is due. *)
Lemma credit_wraps_around :
  let sim := mkView 5 Examples.no_routes [] in
  let conns := [Examples.new_connection 0] in
  SimNetworkInterfaceSrcInv.credit_nonneg source_at_limit
  ∧ ¬ SimNetworkInterfaceSrcInv.credit_fits source_at_limit
  ∧ ∃ s',
      SimNetworkInterfaceSrc.TryForwardPropagation sim source_at_limit conns
      = Done (true, s', write_forward 0 (mkTimed 5 bubble) conns)
      ∧ SimNetworkInterfaceSrc.credit_ s' = [- 2 ^ 63].
Proof.
  intros sim conns. split; [|split].
  - unfold SimNetworkInterfaceSrcInv.credit_nonneg. simpl.
    repeat constructor. lia.
  - intros Hfits.
    specialize (Hfits 0%nat (2 ^ 63 - 1) (CreditState.mk 4 1) eq_refl eq_refl).
    simpl in Hfits. lia.
  - eexists. split; [vm_compute; reflexivity|reflexivity].
Qed.

(** ** The forward channels during the reverse propagation of a router *)

Lemma write_reverse_forward i v r conns :
  same_forward_channels conns (write_reverse i v r conns).
Proof.
  intros j. unfold write_reverse. destruct (decide (i = j)) as [->|Hne].
  - rewrite list_lookup_alter_eq. by destruct (conns !! j).
  - by rewrite list_lookup_alter_ne.
Qed.

Lemma for_upto_same_forward n body conns conns' :
  (∀ i c c', body i c = Done c' → same_forward_channels c c') →
  for_upto n body conns = Done conns' → same_forward_channels conns conns'.
Proof.
  intros Hbody. apply (for_upto_inv (same_forward_channels conns)).
  - intros i c c' _ Hc Hstep j. rewrite (Hbody _ _ _ Hstep j). apply Hc.
  - by intros j.
Qed.

Lemma router_reverse_forward_channels sim r conns b r' conns' :
  SimInputBufferedVCRouter.TryReversePropagation sim r conns
  = Done (b, r', conns') →
  same_forward_channels conns conns'.
Proof.
  intros Hrun.
  apply RouterReverse.router_TryReversePropagation_inv in Hrun
    as [(_ & _ & _ & ->)|(_ & Hsend & _)]; [by intros j|].
  revert Hsend. apply for_upto_same_forward. intros i c c' Hstep.
  apply RouterReverse.send_credits_inv in Hstep
    as (index & input & _ & _ & Hloop).
  revert Hloop. apply for_upto_same_forward. intros v c1 c2 Hstep.
  apply RouterReverse.send_credit_inv in Hstep as (t & _ & ->).
  apply write_reverse_forward.
Qed.

(** C5.  In the forward pass of a router, a step of the arbitration that
    writes the forward channel of an output connection finds it without
    the stamp of the current cycle and leaves it with a valid phit and
    that stamp; no later step of the pass writes the channel again: a
    step whose phit is routed to an output with the stamp of the current
    cycle changes nothing, and the bubbles skip the stamped outputs.  Once
    the pass has succeeded the router does not run it again in the same
    cycle: its ticks leave every forward channel as it is. *)
Theorem single_writer_per_cycle :
  (∀ sim st before pos after st1 st2 st' j,
     SimInputBufferedVCRouter.arbitration_order
       (SimInputBufferedVCRouter.max_vc_ st.1)
       (length (SimInputBufferedVCRouter.input_buffers_ st.1))
     = before ++ pos :: after →
     for_each before (SimInputBufferedVCRouter.arbitrate sim) st = Done st1 →
     SimInputBufferedVCRouter.arbitrate sim pos st1 = Done st2 →
     st2.2 !! j ≠ st1.2 !! j →
     SimInputBufferedVCRouter.arbitration sim st = Done st' →
     ∃ c c',
       st1.2 !! j = Some c
       ∧ cycle (forward_channels c) ≠ GetCurrentCycle sim
       ∧ st2.2 !! j = Some c'
       ∧ cycle (forward_channels c') = GetCurrentCycle sim
       ∧ DataPhit.valid (phit (forward_channels c')) = true
       ∧ st'.2 !! j = Some c')
  ∧ (∀ sim vc i r conns r' conns' buffers_i buffer phit popped output
       out_index c,
       SimInputBufferedVCRouter.input_buffers_ r !! i = Some buffers_i →
       buffers_i !! vc = Some buffer →
       InputBuffer.queue buffer = phit :: popped →
       SimInputBufferedVCRouter.GetDestinationPortIndexAndVcIndex sim r
         (mkPortIndexAndVCIndex (Z.of_nat i) (Z.of_nat vc))
         (DataPhit.destination_index phit) = Some output →
       span_at sim (SimInputBufferedVCRouter.output_connection_index r)
         (port_index output) = Done out_index →
       conns !! out_index = Some c →
       cycle (forward_channels c) = GetCurrentCycle sim →
       SimInputBufferedVCRouter.arbitrate sim (vc, i) (r, conns)
       = Done (r', conns') →
       r' = r ∧ conns' = conns)
  ∧ (∀ sim r conns conns' j c,
       conns !! j = Some c →
       cycle (forward_channels c) = GetCurrentCycle sim →
       for_upto (SimInputBufferedVCRouter.output_connection_count_ r)
         (SimInputBufferedVCRouter.fill_bubble sim r) conns = Done conns' →
       conns' !! j = Some c)
  ∧ (∀ sim (r : SimInputBufferedVCRouter.t) conns b r' conns',
       forward_propagated_cycle_ (SimInputBufferedVCRouter.base_ r)
       = GetCurrentCycle sim →
       Tick sim r conns = Done (b, r', conns') →
       ∀ j, forward_channels <$> conns' !! j
            = forward_channels <$> conns !! j).
Proof.
  split; [|split; [|split]].
  - intros sim st before pos after [r1 conns1] [r2 conns2] st' j Horder
      Hbefore Hstep Hwrites Hpass.
    unfold SimInputBufferedVCRouter.arbitration in Hpass.
    rewrite Horder, for_each_app, Hbefore in Hpass. simpl in Hpass.
    rewrite Hstep in Hpass. simpl in Hpass, Hwrites.
    apply RouterForward.arbitrate_writes with (j := j) in Hstep
      as (_ & c & c' & Hc & Hc' & Hfree & Hstamp & Hvalid); [|done].
    exists c, c'. repeat split; try done.
    by eapply (RouterForward.arbitrations_stamped sim after (r2, conns2)).
  - intros sim vc i r conns r' conns' buffers_i buffer phit popped output
      out_index c Hi Hvc Hqueue Hroute Hout Hc Hstamp Hrun.
    apply RouterForward.arbitrate_inv in Hrun as [?|Hfwd]; [done|].
    destruct Hfwd as (buffers_i' & buffer' & phit' & popped' & output' & row
                      & credit & out_index' & output_state & to_send_row
                      & to_send & Hi' & Hvc' & Hqueue' & Hroute' & _ & _ & _
                      & _ & _ & Hout' & Hstate & Hfree & _).
    simpl in *.
    rewrite Hi in Hi'. injection Hi' as <-.
    rewrite Hvc in Hvc'. injection Hvc' as <-.
    rewrite Hqueue in Hqueue'. injection Hqueue' as <- <-.
    rewrite Hroute in Hroute'. injection Hroute' as <-.
    rewrite Hout in Hout'. injection Hout' as <-.
    rewrite Hc in Hstate. injection Hstate as <-. done.
  - intros sim r conns conns' j c Hj Hstamp.
    apply (for_upto_inv (λ cs, cs !! j = Some c)); [|done].
    intros i c1 c2 _ H1 Hstep.
    unfold SimInputBufferedVCRouter.fill_bubble in Hstep. inv_res.
    destruct (Z.eqb_spec (cycle (forward_channels x0)) (GetCurrentCycle sim));
      inv_res; [done|].
    unfold write_forward. rewrite list_lookup_alter_ne; [done|].
    intros ->. congruence.
  - intros sim r conns b r' conns' Hfpc Hrun.
    apply Tick_inv in Hrun as (fwd & rev & r1 & conns1 & Hf & Hr & ->).
    apply forward_phase_inv in Hf as [(_ & _ & -> & ->)|(Hne & _)]; [|done].
    apply reverse_phase_inv in Hr as [(_ & _ & _ & ->)|(_ & r0 & Hr & _)];
      [done|].
    by apply router_reverse_forward_channels in Hr.
Qed.

(** ** The propagations that grant credit finish

    Nothing in the two propagations that publish credit leaves a vector
    when the component fits its connections. *)

Lemma sink_forward_total sim (s : SimNetworkInterfaceSink.t) conns src :
  SimNetworkInterfaceSinkInv.fits s conns →
  conns !! SimNetworkInterfaceSink.src_connection_index_ s = Some src →
  cycle (forward_channels src) = GetCurrentCycle sim →
  ∃ s' conns',
    SimNetworkInterfaceSink.TryForwardPropagation sim s conns
    = Done (true, s', conns').
Proof.
  intros (src0 & Hsrc0 & Hbuffers & Hvc) Hsrc Hstamp.
  rewrite Hsrc in Hsrc0. injection Hsrc0 as <-.
  unfold SimNetworkInterfaceSink.TryForwardPropagation,
    GetSimConnectionByIndex, subscript.
  rewrite Hsrc. simpl. rewrite Hstamp, Z.eqb_refl.
  set (received := if DataPhit.valid (phit (forward_channels src)) then _
                   else _).
  assert (∃ s1 conns1,
            received = Done (s1, conns1)
            ∧ SimNetworkInterfaceSink.input_buffers_ s1
              = SimNetworkInterfaceSink.input_buffers_ s
            ∧ SimNetworkInterfaceSink.src_connection_index_ s1
              = SimNetworkInterfaceSink.src_connection_index_ s
            ∧ advances (GetCurrentCycle sim) conns conns1)
    as (s1 & conns1 & -> & Hb1 & Hi1 & Hadv1).
  { subst received.
    destruct (DataPhit.valid (phit (forward_channels src))).
    - destruct (Hvc eq_refl) as [Hlo Hhi].
      destruct (lookup_lt_is_Some_2 (reverse_channels src)
                  (Z.to_nat (DataPhit.vc (phit (forward_channels src)))))
        as [ch Hch]; [lia|].
      rewrite (proj2 (subscriptZ_Done _ _ ch)) by done. simpl.
      eexists _, _. split; [done|]. repeat split.
      by apply write_reverse_advances.
    - eexists _, _. split; [done|]. repeat split. reflexivity. }
  simpl.
  set (granted := if GetCurrentCycle sim =? 0 then _ else _).
  assert (∃ conns2, granted = Done conns2) as [conns2 ->];
    [|by eexists _, _].
  subst granted. destruct (GetCurrentCycle sim =? 0).
  - destruct (for_upto_total (λ _ _, True) (length (reverse_channels src))
                (SimNetworkInterfaceSink.full_credit_update sim s1) conns1)
      as (conns2 & Hrun & _); [|done|by eexists].
    intros k c Hk _.
    destruct (lookup_lt_is_Some_2
                (SimNetworkInterfaceSink.input_buffers_ s1) k)
      as [buffer Hbuffer]; [rewrite Hb1; lia|].
    unfold SimNetworkInterfaceSink.full_credit_update, subscript.
    rewrite Hbuffer. simpl. by eexists.
  - destruct (for_upto_total
                (λ _ c, advances (GetCurrentCycle sim) conns c)
                (length (reverse_channels src))
                (SimNetworkInterfaceSink.no_credit_update sim s1) conns1)
      as (conns2 & Hrun & _); [|done|by eexists].
    intros k c Hk Hadv.
    destruct (advances_lookup _ _ _ _ _ Hadv Hsrc) as (src' & Hsrc' & Hc).
    destruct (lookup_lt_is_Some_2 (reverse_channels src') k) as [ch Hch].
    { rewrite (connection_advances_rev_length _ _ _ Hc). lia. }
    unfold SimNetworkInterfaceSink.no_credit_update,
      GetSimConnectionByIndex, subscript.
    rewrite Hi1, Hsrc'. simpl. rewrite Hch. simpl.
    destruct (cycle ch =? GetCurrentCycle sim);
      eexists; (split; [done|]); [done|].
    etrans; [done|]. by apply write_reverse_advances.
Qed.

(** The credit updates keep their shape while credit is received. *)
Lemma receive_credit_total sim output i vc num possible updates row :
  (vc < length (reverse_channels output))%nat →
  updates !! i = Some row →
  (vc < length row)%nat →
  ∃ num' possible' updates',
    SimInputBufferedVCRouter.receive_credit sim output i vc
      (num, possible, updates) = Done (num', possible', updates')
    ∧ length <$> updates' = length <$> updates.
Proof.
  intros Hvc Hrow Hlen.
  destruct (lookup_lt_is_Some_2 _ _ Hvc) as [ch Hch].
  destruct (lookup_lt_is_Some_2 _ _ Hlen) as [u Hu].
  unfold SimInputBufferedVCRouter.receive_credit, subscript.
  rewrite Hch. simpl.
  destruct (cycle ch =? GetCurrentCycle sim); [|by eexists _, _, _].
  rewrite Hrow. simpl. rewrite Hu. simpl.
  eexists _, _, _. split; [done|].
  destruct (CreditState.cycle u =? GetCurrentCycle sim); [done|].
  rewrite list_fmap_insert, length_insert.
  apply list_insert_id. by rewrite list_lookup_fmap, Hrow.
Qed.

Lemma router_reverse_total sim (r : SimInputBufferedVCRouter.t) conns :
  RouterInv.fits sim r conns →
  ∃ b r' conns',
    SimInputBufferedVCRouter.TryReversePropagation sim r conns
    = Done (b, r', conns').
Proof.
  intros [Hinputs Houtputs].
  unfold SimInputBufferedVCRouter.TryReversePropagation.
  destruct (_ =? _); [|by eexists _, _, _].
  (* credit is sent upstream *)
  destruct (for_upto_total
              (λ _ c, advances (GetCurrentCycle sim) conns c)
              (SimInputBufferedVCRouter.input_connection_count_ r)
              (SimInputBufferedVCRouter.send_credits sim r) conns)
    as (conns1 & -> & Hadv1); [|done|].
  { intros i c Hi Hadv.
    destruct (Hinputs i Hi)
      as (index & input & buffers & to_send & Hindex & Hinput & Hbuffers
          & Hlen & Hto_send & Hlen').
    destruct (advances_lookup _ _ _ _ _ Hadv Hinput)
      as (input' & Hinput' & Hc).
    unfold SimInputBufferedVCRouter.send_credits.
    rewrite (proj2 (RouterForward.span_subscript_Done _ _ _ index))
      by (split; [simpl; lia|done]).
    simpl. unfold GetSimConnectionByIndex, subscript. rewrite Hinput'.
    simpl.
    destruct (for_upto_total (λ _ _, True)
                (length (reverse_channels input'))
                (SimInputBufferedVCRouter.send_credit sim r index i) c)
      as (c' & Hrun & _); [|done|].
    { intros vc c0 Hvc _.
      rewrite (connection_advances_rev_length _ _ _ Hc) in Hvc.
      destruct (lookup_lt_is_Some_2 buffers vc) as [buffer Hbuffer];
        [lia|].
      destruct (lookup_lt_is_Some_2 to_send vc) as [data Hdata]; [lia|].
      unfold SimInputBufferedVCRouter.send_credit, subscript.
      rewrite Hbuffers, Hto_send. simpl. rewrite Hbuffer, Hdata.
      destruct (GetCurrentCycle sim =? 0); by eexists. }
    exists c'. split; [done|]. etrans; [done|].
    eapply for_each_advances; [|exact Hrun].
    intros vc c0 c0' Hstep.
    apply RouterReverse.send_credit_inv in Hstep as (t & Ht & ->).
    apply write_reverse_advances.
    by eapply RouterReverse.credit_sent_cycle. }
  simpl.
  (* credit is received from downstream *)
  destruct (for_upto_total
              (λ _ (st : Z * Z * list (list CreditState.t)),
                 length <$> st.2
                 = length <$> SimInputBufferedVCRouter.credit_update_ r)
              (length (SimInputBufferedVCRouter.credit_update_ r))
              (SimInputBufferedVCRouter.receive_credits sim r conns1)
              (0, 0, SimInputBufferedVCRouter.credit_update_ r))
    as ([[num possible] updates] & -> & _); [|done|].
  { intros i [[num possible] updates] Hi Hshape. simpl in Hshape.
    destruct (lookup_lt_is_Some_2 _ _ Hi) as [row0 Hrow0].
    destruct (Houtputs i row0 Hrow0)
      as (Hcount & index & output & Hindex & Houtput & Hlen).
    destruct (advances_lookup _ _ _ _ _ Hadv1 Houtput)
      as (output' & Houtput' & Hc).
    assert (∃ row, updates !! i = Some row ∧ length row = length row0)
      as (row & Hrow & Hrowlen).
    { assert ((length <$> updates) !! i = Some (length row0)) as Hl.
      { by rewrite Hshape, list_lookup_fmap, Hrow0. }
      rewrite list_lookup_fmap in Hl.
      destruct (updates !! i) as [row|]; [|done].
      exists row. split; [done|]. by injection Hl. }
    unfold SimInputBufferedVCRouter.receive_credits.
    rewrite (proj2 (RouterForward.span_at_Done _ _ _ index)).
    2:{ rewrite Nat2Z.id. split; [lia|]. split; [simpl; lia|done]. }
    simpl. unfold GetSimConnectionByIndex, subscript. rewrite Houtput'.
    simpl. rewrite Hrow. simpl.
    destruct (for_upto_total
                (λ _ (st : Z * Z * list (list CreditState.t)),
                   length <$> st.2 = length <$> updates)
                (length row)
                (SimInputBufferedVCRouter.receive_credit sim output' i)
                (num, possible, updates))
      as (st' & Hrun & Hshape'); [|done|].
    { intros vc [[num1 possible1] updates1] Hvc Hshape1.
      simpl in Hshape1.
      assert (∃ row1, updates1 !! i = Some row1
                      ∧ length row1 = length row)
        as (row1 & Hrow1 & Hrow1len).
      { assert ((length <$> updates1) !! i = Some (length row)) as Hl.
        { by rewrite Hshape1, list_lookup_fmap, Hrow. }
        rewrite list_lookup_fmap in Hl.
        destruct (updates1 !! i) as [row1|]; [|done].
        exists row1. split; [done|]. by injection Hl. }
      destruct (receive_credit_total sim output' i vc num1 possible1
                  updates1 row1)
        as (num' & possible' & updates' & Hstep & Hshape');
        [|done|lia|].
      { rewrite (connection_advances_rev_length _ _ _ Hc). lia. }
      exists (num', possible', updates'). split; [done|]. simpl.
      by rewrite Hshape'. }
    exists st'. split; [done|]. by rewrite Hshape'. }
  simpl. destruct (possible =? num); by eexists _, _, _.
Qed.

(** ** Cycle 0 *)

Lemma depths_insert (buffers : list (list InputBuffer.t)) i v row buffer
    buffer' :
  buffers !! i = Some row → row !! v = Some buffer →
  InputBuffer.max_queue_size buffer' = InputBuffer.max_queue_size buffer →
  (λ row : list InputBuffer.t, InputBuffer.max_queue_size <$> row)
    <$> <[i := <[v := buffer']> row]> buffers
  = (λ row : list InputBuffer.t, InputBuffer.max_queue_size <$> row)
      <$> buffers.
Proof.
  intros Hi Hv Hsize. rewrite list_fmap_insert. apply list_insert_id.
  rewrite list_lookup_fmap, Hi. simpl. f_equal.
  rewrite list_fmap_insert. symmetry. apply list_insert_id.
  by rewrite list_lookup_fmap, Hv, Hsize.
Qed.

Lemma router_forward_depths sim r conns b r' conns' :
  SimInputBufferedVCRouter.TryForwardPropagation sim r conns
  = Done (b, r', conns') →
  router_buffer_depths r' = router_buffer_depths r.
Proof.
  intros Hrun.
  apply RouterForwardPhases.router_TryForwardPropagation_inv in Hrun
    as (r1 & Hcredit & Hrun).
  apply RouterForwardPhases.credit_phase_frame in Hcredit
    as (_ & Hbuffers & _).
  unfold router_buffer_depths.
  destruct Hrun as [(-> & -> & -> & _)|(-> & _ & to_send & buffers & r4
                                         & conns4 & _ & Hreceive & Harb & _
                                         & ->)];
    [by rewrite Hbuffers|].
  rewrite <- Hbuffers. simpl.
  transitivity ((λ row : list InputBuffer.t,
                   InputBuffer.max_queue_size <$> row) <$> buffers).
  - apply (for_each_inv
      (λ st : SimInputBufferedVCRouter.t * Connections,
         router_buffer_depths st.1
         = (λ row : list InputBuffer.t, InputBuffer.max_queue_size <$> row)
             <$> buffers)) in Harb; [done| |done].
    intros pos [ra ca] [rb cb] _ Ha Hstep.
    apply RouterForward.arbitrate_inv in Hstep as [[-> ->]|Hfwd]; [done|].
    destruct Hfwd as (buffers_i & buffer & phit & popped & ? & ? & ? & ? & ?
                      & ? & ? & Hi & Hvc & _ & _ & _ & _ & _ & _ & _ & _ & _
                      & _ & _ & _ & -> & _).
    simpl in *. rewrite <- Ha. unfold router_buffer_depths. simpl.
    by eapply depths_insert.
  - revert Hreceive.
    apply (for_upto_inv
      (λ bs, (λ row : list InputBuffer.t, InputBuffer.max_queue_size <$> row)
               <$> bs
             = (λ row : list InputBuffer.t,
                  InputBuffer.max_queue_size <$> row)
                 <$> SimInputBufferedVCRouter.input_buffers_ r1)); [|done].
    intros i bs bs' _ Hbs Hstep.
    unfold SimInputBufferedVCRouter.receive_phit in Hstep. inv_res.
    destruct (DataPhit.valid _); inv_res; [|done].
    rewrite <- Hbs. by eapply depths_insert.
Qed.

Lemma after_sends_credit phits s :
  SimNetworkInterfaceSrc.credit_ (after_sends phits s)
  = SimNetworkInterfaceSrc.credit_ s
  ∧ SimNetworkInterfaceSrc.credit_update_ (after_sends phits s)
    = SimNetworkInterfaceSrc.credit_update_ s
  ∧ SimNetworkInterfaceSrc.sink_connection_index_ (after_sends phits s)
    = SimNetworkInterfaceSrc.sink_connection_index_ s.
Proof.
  revert s. induction phits as [|p phits IH]; intros s; [done|].
  simpl. destruct (IH (SimNetworkInterfaceSrc.SendPhitAtTime p s).2)
    as (-> & -> & ->).
  unfold SimNetworkInterfaceSrc.SendPhitAtTime. by destruct (_ <? _).
Qed.

(** C7.  In cycle 0 the reverse propagation of a router (which runs once
    its forward propagation is done) writes on every reverse channel of
    every input connection a valid credit phit that carries the depth of
    the buffer of that input and channel; the forward propagation of a
    sink that succeeds does the same on every reverse channel of its
    connection.  These depths are the configured ones: [InitializeImpl]
    stores them and the forward propagation of the router keeps them.  A
    source is initialized with credit 0 and no pending credit on every
    channel, the injection of traffic does not change that, and the
    forward propagation of such a source writes a bubble: no source sends
    a valid phit before a credit has arrived.  The two propagations that
    grant the credit finish whenever the component fits its connections
    (a buffer for every reverse channel), the one of the sink with
    success once its forward channel is stamped. *)
Theorem initial_credit_grant :
  (∀ sim (r : SimInputBufferedVCRouter.t) conns b r' conns',
     GetCurrentCycle sim = 0 →
     RouterInv.inputs_distinct sim
       (SimInputBufferedVCRouter.input_connection_index r) →
     forward_propagated_cycle_ (SimInputBufferedVCRouter.base_ r) = 0 →
     SimInputBufferedVCRouter.TryReversePropagation sim r conns
     = Done (b, r', conns') →
     ∀ i, (i < SimInputBufferedVCRouter.input_connection_count_ r)%nat →
       ∃ index input,
         component_to_connection_index_ sim
           !! (SimInputBufferedVCRouter.input_connection_index_start_ r + i)%nat
         = Some index
         ∧ conns !! index = Some input
         ∧ ∀ v, (v < length (reverse_channels input))%nat →
             ∃ row depth,
               router_buffer_depths r !! i = Some row
               ∧ row !! v = Some depth
               ∧ rev_channel conns' index v
                   (mkTimed 0 (MetadataPhit.mk true depth)))
  ∧ (∀ sim (s : SimNetworkInterfaceSink.t) conns s' conns' src,
       GetCurrentCycle sim = 0 →
       conns !! SimNetworkInterfaceSink.src_connection_index_ s = Some src →
       SimNetworkInterfaceSink.TryForwardPropagation sim s conns
       = Done (true, s', conns') →
       ∀ v, (v < length (reverse_channels src))%nat →
         ∃ depth,
           sink_buffer_depths s !! v = Some depth
           ∧ rev_channel conns'
               (SimNetworkInterfaceSink.src_connection_index_ s) v
               (mkTimed 0 (MetadataPhit.mk true depth)))
  ∧ (∀ b i ins o outs k,
       router_buffer_depths
         (SimInputBufferedVCRouter.InitializeImpl b i ins o outs k) = ins)
  ∧ (∀ sim r conns b r' conns',
       SimInputBufferedVCRouter.TryForwardPropagation sim r conns
       = Done (b, r', conns') →
       router_buffer_depths r' = router_buffer_depths r)
  ∧ (∀ b depths i,
       sink_buffer_depths (SimNetworkInterfaceSink.InitializeImpl b depths i)
       = depths)
  ∧ (∀ b n k index phits sim conns ok s' conns',
       SimNetworkInterfaceSrc.TryForwardPropagation sim
         (after_sends phits (SimNetworkInterfaceSrc.InitializeImpl b n k index))
         conns = Done (ok, s', conns') →
       conns' = write_forward index (mkTimed (GetCurrentCycle sim) bubble)
                  conns)
  ∧ (∀ sim (r : SimInputBufferedVCRouter.t) conns,
       RouterInv.fits sim r conns →
       ∃ b r' conns',
         SimInputBufferedVCRouter.TryReversePropagation sim r conns
         = Done (b, r', conns'))
  ∧ (∀ sim (s : SimNetworkInterfaceSink.t) conns src,
       SimNetworkInterfaceSinkInv.fits s conns →
       conns !! SimNetworkInterfaceSink.src_connection_index_ s = Some src →
       cycle (forward_channels src) = GetCurrentCycle sim →
       ∃ s' conns',
         SimNetworkInterfaceSink.TryForwardPropagation sim s conns
         = Done (true, s', conns')).
Proof.
  split; [|split; [|split; [|split; [|split; [|split; [|split]]]]]].
  - intros sim r conns b r' conns' Hcycle Hdistinct Hfpc Hrun i Hi.
    apply RouterReverse.router_TryReversePropagation_inv in Hrun
      as [(Hne & _)|(_ & Hsend & _)]; [congruence|].
    apply RouterReverse.send_credits_published in Hsend; [|done].
    destruct (Hsend i Hi) as (index & input & Hindex & Hinput & Hsent).
    exists index, input. repeat split; try done. intros v Hv.
    destruct (Hsent v Hv) as (t & (data & -> & Hdata) & Hch).
    rewrite Hcycle in Hdata, Hch. simpl in Hdata.
    destruct Hdata as (row & buffer & Hrow & Hbuffer & ->).
    exists (InputBuffer.max_queue_size <$> row),
      (InputBuffer.max_queue_size buffer).
    unfold router_buffer_depths.
    by rewrite !list_lookup_fmap, Hrow, Hbuffer.
  - intros sim s conns s' conns' src Hcycle Hsrc Hrun v Hv.
    apply SimNetworkInterfaceSinkFacts.sink_TryForwardPropagation_inv in Hrun
      as (src' & Hsrc' & [(? & _)|(_ & _ & conns1 & Hrecv & Hloop)]);
      [done|].
    rewrite Hsrc in Hsrc'. injection Hsrc' as <-.
    rewrite Hcycle in Hloop. simpl in Hloop.
    assert (SimNetworkInterfaceSink.input_buffers_ s'
            = SimNetworkInterfaceSink.input_buffers_ s
            ∧ SimNetworkInterfaceSink.src_connection_index_ s'
              = SimNetworkInterfaceSink.src_connection_index_ s
            ∧ rev_channels_count conns1
                (SimNetworkInterfaceSink.src_connection_index_ s)
                (length (reverse_channels src))) as (Hbuf & Hidx & Hn).
    { destruct Hrecv as [(_ & -> & ->)|(_ & -> & ->)].
      - repeat split. by exists src.
      - repeat split. apply write_reverse_count. by exists src. }
    rewrite <- Hidx in Hn.
    destruct (SimNetworkInterfaceSinkFacts.full_credit_updates _ _ _ _ _ Hn
                Hloop v Hv) as (buffer & Hbuffer & Hch).
    exists (InputBuffer.max_queue_size buffer).
    rewrite Hcycle, Hidx in Hch. split; [|done].
    unfold sink_buffer_depths. by rewrite list_lookup_fmap, <- Hbuf, Hbuffer.
  - intros b i ins o outs k. unfold router_buffer_depths. simpl.
    rewrite <- list_fmap_compose. rewrite <- (list_fmap_id ins) at 2.
    apply list_fmap_ext. intros _ depths _. simpl.
    rewrite <- list_fmap_compose. by rewrite <- (list_fmap_id depths) at 2.
  - apply router_forward_depths.
  - intros b depths i. unfold sink_buffer_depths. simpl.
    rewrite <- list_fmap_compose. by rewrite <- (list_fmap_id depths) at 2.
  - intros b n k index phits sim conns ok s' conns' Hrun.
    destruct (after_sends_credit phits
                (SimNetworkInterfaceSrc.InitializeImpl b n k index))
      as (Hcredit & Hupdate & Hindex).
    apply SimNetworkInterfaceSrcFacts.src_TryForwardPropagation_inv in Hrun
      as (credit & did & s2 & conns2 & _ & _ & Hadd & Hsend & _ & ->).
    rewrite Hindex. simpl.
    apply SimNetworkInterfaceSrcFacts.add_credit_updates_none in Hadd.
    2:{ rewrite Hupdate. simpl. by apply Forall_replicate. }
    subst credit.
    apply SimNetworkInterfaceSrcFacts.send_data_inv in Hsend
      as [(-> & -> & ->)|(-> & vc & _ & front & popped & c & _ & _ & Hc & Hpos
                          & _)]; [done|].
    simpl in Hc. rewrite Hcredit in Hc. simpl in Hc.
    apply lookup_replicate in Hc as [-> _]. lia.
  - apply router_reverse_total.
  - apply sink_forward_total.
Qed.

(** Two inputs with a phit for the same output: the first one wins, the
    step of the second one changes nothing. *)
Lemma single_writer_per_cycle_witness :
  let st := (Examples.contended_router, Examples.contended_connections) in
  let st2 := Examples.value st
               (SimInputBufferedVCRouter.arbitrate Examples.contended_view
                  (0, 0)%nat st) in
  let st' := Examples.value st
               (SimInputBufferedVCRouter.arbitration Examples.contended_view
                  st) in
  (∃ c c',
     st.2 !! 2%nat = Some c
     ∧ cycle (forward_channels c) ≠ 1
     ∧ st2.2 !! 2%nat = Some c'
     ∧ cycle (forward_channels c') = 1
     ∧ DataPhit.valid (phit (forward_channels c')) = true
     ∧ st'.2 !! 2%nat = Some c')
  ∧ Examples.value st
      (SimInputBufferedVCRouter.arbitrate Examples.contended_view (0, 1)%nat
         st2) = st2.
Proof.
  intros st st2 st'. split.
  - apply (proj1 single_writer_per_cycle Examples.contended_view st []
             (0, 0)%nat [(0, 1)%nat] st st2 st' 2%nat).
    + reflexivity.
    + reflexivity.
    + reflexivity.
    + vm_compute. discriminate.
    + reflexivity.
  - destruct (proj1 (proj2 single_writer_per_cycle) Examples.contended_view
                0%nat 1%nat st2.1 st2.2
                (Examples.value st
                   (SimInputBufferedVCRouter.arbitrate Examples.contended_view
                      (0, 1)%nat st2)).1
                (Examples.value st
                   (SimInputBufferedVCRouter.arbitrate Examples.contended_view
                      (0, 1)%nat st2)).2
                [InputBuffer.mk [DataPhit.mk true 0 0 11] 2]
                (InputBuffer.mk [DataPhit.mk true 0 0 11] 2)
                (DataPhit.mk true 0 0 11) []
                (mkPortIndexAndVCIndex 0 0) 2%nat
                (mkConnection 2 (mkTimed 1 (DataPhit.mk true 0 0 10))
                   [mkTimed 0 (MetadataPhit.mk false 0)])) as [H1 H2];
      try reflexivity.
Defined.

(** The router of the misrouted network, with buffers of depth 2, grants
    a credit of 2 on the reverse channel of its input in cycle 0. *)
Lemma initial_credit_grant_witness :
  let sim := mkView 0 Examples.no_routes [0; 1]%nat in
  let r := SimInputBufferedVCRouter.InitializeImpl (mkBase 31 0 (-1)) 0 [[2]]
             1 [1%nat] (-1) in
  let conns := [Examples.new_connection 0; Examples.new_connection 1] in
  let out := Examples.value (false, r, conns)
               (SimInputBufferedVCRouter.TryReversePropagation sim r conns) in
  rev_channel out.2 0 0 (mkTimed 0 (MetadataPhit.mk true 2)).
Proof.
  intros sim r conns out.
  destruct (proj1 initial_credit_grant sim r conns out.1.1 out.1.2 out.2)
    with (i := 0%nat) as (index & input & Hindex & Hinput & Hsent).
  - reflexivity.
  - intros i j index Hi Hj _ _. simpl in Hi, Hj. lia.
  - reflexivity.
  - reflexivity.
  - simpl. lia.
  - injection Hindex as <-. injection Hinput as <-.
    destruct (Hsent 0%nat) as (row & depth & Hrow & Hdepth & Hch).
    + simpl. lia.
    + injection Hrow as <-. injection Hdepth as <-. exact Hch.
Defined.

(** ** A process that stops inside a cycle *)

Section Abort.
Context {C : Type} `{SimNetworkComponent C}.

Lemma Tick_forward_abort sim (c : C) conns f :
  forward_propagated_cycle_ (base c) ≠ GetCurrentCycle sim →
  TryForwardPropagation sim c conns = Abort f →
  Tick sim c conns = Abort f.
Proof.
  intros Hfpc Hrun. unfold Tick, forward_phase.
  destruct (Z.eqb_spec (forward_propagated_cycle_ (base c))
              (GetCurrentCycle sim)); [done|].
  by rewrite Hrun.
Qed.

Lemma tick_components_abort sim (before after : list C) nc conv conns b
    before' conns1 f :
  tick_components sim before conv conns = Done (b, before', conns1) →
  Tick sim nc conns1 = Abort f →
  tick_components sim (before ++ nc :: after) conv conns = Abort f.
Proof.
  revert conv conns before'.
  induction before as [|c before IH]; intros conv conns before' Hbefore
    Hnc; simpl in *.
  - injection Hbefore as <- <- <-. by rewrite Hnc.
  - apply bind_Done in Hbefore as ([[this c1] conns0] & Hc & Hbefore).
    apply bind_Done in Hbefore as ([[b1 rest1] conns2] & Hrest & Hbefore).
    injection Hbefore as <- <- <-. rewrite Hc. simpl.
    by rewrite (IH _ _ _ Hrest Hnc).
Qed.
End Abort.

Lemma tick_until_converged_abort s f fuel nticks :
  NocSimulator.Tick s = Abort f →
  NocSimulator.tick_until_converged (S fuel) nticks s = Some (Abort f).
Proof. intros Hrun. simpl. by rewrite Hrun. Qed.

Lemma ticks_to_abort s k s' f fuel nticks :
  Lookup.ticks_to s k s' →
  NocSimulator.Tick s' = Abort f →
  NocSimulator.tick_until_converged (k + S fuel) nticks s = Some (Abort f).
Proof.
  intros Hticks. revert nticks.
  induction Hticks as [s|s s1 k s' Htick _ IH]; intros nticks Hrun.
  - by apply tick_until_converged_abort.
  - simpl. rewrite Htick. by apply IH.
Qed.

Lemma router_forward_abort sim r conns pos st :
  Lookup.arbitration_reaches sim r conns pos st →
  Lookup.lookup_fails sim pos st →
  SimInputBufferedVCRouter.TryForwardPropagation sim r conns
  = Abort CheckFailure.
Proof.
  intros (_ & r3 & before & after & Hprepare & Horder & Hbefore)
    (buffers_i & buffer & phit & popped & Hi & Hvc & Hqueue & Hroute).
  unfold SimInputBufferedVCRouter.TryForwardPropagation.
  rewrite Hprepare. simpl.
  unfold SimInputBufferedVCRouter.arbitration. simpl. rewrite Horder.
  destruct pos as [vc i], st as [r4 conns4].
  erewrite RouterForward.for_each_abort; [done|done|].
  by eapply RouterForward.arbitrate_route_failure.
Qed.

(** C2, as the code has it.  When, in some tick of a cycle, the
    arbitration of a router reaches a buffer that is not empty and the
    routing lookup for its head fails, the check on the status of the
    lookup fails: the forward propagation of the router does not return,
    and neither do the tick and [RunCycle]; the process is aborted and no
    status reaches the caller. *)
Theorem routing_failure_aborts (s s1 : NocSimulator.t) (k : nat)
    (r : SimInputBufferedVCRouter.t) (conns : Connections)
    (pos : nat * nat) (st : SimInputBufferedVCRouter.t * Connections)
    (fuel : nat) (max_ticks : Z) :
  Lookup.ticks_to
    (NocSimulator.set_cycle (NocSimulator.cycle_ s + 1) s) k s1 →
  Lookup.router_turn s1 r conns →
  Lookup.arbitration_reaches (NocSimulator.view s1) r conns pos st →
  Lookup.lookup_fails (NocSimulator.view s1) pos st →
  SimInputBufferedVCRouter.TryForwardPropagation (NocSimulator.view s1) r conns
  = Abort CheckFailure
  ∧ NocSimulator.Tick s1 = Abort CheckFailure
  ∧ NocSimulator.RunCycle (k + S fuel) max_ticks s
    = Some (Abort CheckFailure).
Proof.
  intros Hticks Hturn Hreach Hfail.
  pose proof (router_forward_abort _ _ _ _ _ Hreach Hfail) as Hforward.
  assert (NocSimulator.Tick s1 = Abort CheckFailure) as Htick.
  { destruct Hturn as (c1 & srcs & conns1 & c2 & links & conns2 & before
                       & after & c3 & before' & Hsrcs & Hlinks & Hrouters
                       & Hbefore).
    unfold NocSimulator.Tick. rewrite Hsrcs. simpl. rewrite Hlinks. simpl.
    rewrite Hrouters.
    erewrite tick_components_abort; [done|done|].
    apply Tick_forward_abort; [|done]. by destruct Hreach. }
  split; [done|]. split; [done|].
  unfold NocSimulator.RunCycle.
  by rewrite (ticks_to_abort _ _ _ _ fuel 0 Hticks Htick).
Qed.

(** Cycle 1 of the misrouted network: the first tick is aborted in the
    router. *)
Lemma routing_failure_aborts_witness :
  NocSimulator.RunCycle 1 10 Examples.misrouted_after_cycle_0
  = Some (Abort CheckFailure).
Proof.
  set (s := Examples.misrouted_after_cycle_0).
  set (s1 := NocSimulator.set_cycle (NocSimulator.cycle_ s + 1) s).
  set (conns :=
         (Examples.value (true, [], [])
            (tick_components (NocSimulator.view s1)
               (NocSimulator.network_interface_sources_ s1) true
               (NocSimulator.connections_ s1))).2).
  set (r := nth 0 (NocSimulator.routers_ s1) Examples.contended_router).
  set (r3 := (Examples.value (true, r)
                (SimInputBufferedVCRouter.prepare_arbitration
                   (NocSimulator.view s1) r conns)).2).
  apply (proj2 (proj2 (routing_failure_aborts s s1 0 r conns (0, 0)%nat
                         (r3, conns) 0 10
                         (Lookup.ticks_to_here s1)
                         ltac:(eexists _, _, _, _, _, _, [], [], _, _;
                               repeat split; reflexivity)
                         ltac:(split; [simpl; lia|]; eexists _, [], [];
                               repeat split; reflexivity)
                         ltac:(eexists _, _, _, _;
                               repeat split; reflexivity)))).
Defined.

(** The claim C2 fails on the misrouted network.  In cycle 1 the phit of
    the source reaches the router, whose routing table sends it to a port
    that does not exist: [RunCycle] is aborted by the failed check.
    Whatever the number of ticks that are unfolded, it returns no status
    to its caller, and so no [InternalError]. *)
Lemma routing_failure_returns_no_status :
  Examples.after_cycle 10 10 Examples.misrouted
  = Examples.misrouted_after_cycle_0
  ∧ NocSimulator.RunCycle 10 10 Examples.misrouted_after_cycle_0
    = Some (Abort CheckFailure)
  ∧ ¬ ∃ fuel status s',
        NocSimulator.RunCycle fuel 10 Examples.misrouted_after_cycle_0
        = Some (Done (status, s')).
Proof.
  assert (NocSimulator.Tick
            (NocSimulator.set_cycle
               (NocSimulator.cycle_ Examples.misrouted_after_cycle_0 + 1)
               Examples.misrouted_after_cycle_0) = Abort CheckFailure)
    as Htick by (vm_compute; reflexivity).
  split; [vm_compute; reflexivity|]. split; [vm_compute; reflexivity|].
  intros (fuel & status & s' & Hrun). destruct fuel as [|fuel]; [done|].
  unfold NocSimulator.RunCycle in Hrun.
  by rewrite (tick_until_converged_abort _ _ fuel 0 Htick) in Hrun.
Qed.

(** ** The bound on the ticks *)

Lemma tick_until_converged_next s s1 fuel nticks :
  NocSimulator.Tick s = Done (false, s1) →
  NocSimulator.tick_until_converged (S fuel) nticks s
  = NocSimulator.tick_until_converged fuel (nticks + 1) s1.
Proof. intros Hrun. simpl. by rewrite Hrun. Qed.

Lemma ring_never_converges fuel nticks :
  NocSimulator.tick_until_converged fuel nticks Examples.ring_after_tick
  = None.
Proof.
  revert nticks. induction fuel as [|fuel IH]; intros nticks; [done|].
  assert (NocSimulator.Tick Examples.ring_after_tick
          = Done (false, Examples.ring_after_tick)) as Htick
    by (vm_compute; reflexivity).
  rewrite (tick_until_converged_next _ _ _ _ Htick). apply IH.
Qed.

(** C1, on two networks.  In the line, cycle 0 converges with the third
    tick; with [max_ticks = 3] the tick count does not exceed the bound,
    and [RunCycle] returns an error all the same, from the converged
    state.  In the ring no tick converges: the loop of [RunCycle] is
    still running after any number of ticks, for every [max_ticks], and
    no error is returned. *)
Theorem run_cycle_tick_bound :
  (∃ s',
     NocSimulator.tick_until_converged 3 0
       (NocSimulator.set_cycle 0 Examples.line) = Some (Done (3, s'))
     ∧ NocSimulatorInv.all_converged s'
     ∧ NocSimulator.RunCycle 3 3 Examples.line
       = Some (Done (InternalError 3 0, s')))
  ∧ (∀ fuel max_ticks, NocSimulator.RunCycle fuel max_ticks Examples.ring
                       = None).
Proof.
  split.
  - destruct (NocSimulator.tick_until_converged 3 0
                (NocSimulator.set_cycle 0 Examples.line))
      as [[[n s']|]|] eqn:Hloop; try (vm_compute in Hloop; discriminate).
    assert (n = 3) as ->.
    { vm_compute in Hloop. by injection Hloop as <- _. }
    exists s'. split; [done|]. split.
    + apply NocSimulatorFacts.tick_until_converged_law in Hloop
        as (_ & _ & Hconv & _); [done|].
      repeat split; simpl; repeat constructor; simpl; lia.
    + unfold NocSimulator.RunCycle.
      change (NocSimulator.set_cycle (NocSimulator.cycle_ Examples.line + 1)
                Examples.line)
        with (NocSimulator.set_cycle 0 Examples.line).
      rewrite Hloop. vm_compute in Hloop. injection Hloop as <-.
      vm_compute. reflexivity.
  - intros fuel max_ticks. destruct fuel as [|fuel]; [done|].
    unfold NocSimulator.RunCycle.
    assert (NocSimulator.Tick
              (NocSimulator.set_cycle (NocSimulator.cycle_ Examples.ring + 1)
                 Examples.ring)
            = Done (false, Examples.ring_after_tick)) as Htick
      by (vm_compute; reflexivity).
    rewrite (tick_until_converged_next _ _ _ _ Htick).
    by rewrite ring_never_converges.
Qed.

(** ** The latency of a lane *)

Section Latency.
Context {T : Type} `{Phit T}.

(** One cycle of a lane that holds [k ≤ n] phits. *)
Lemma lane_step (n : nat) cur x (to : Timed T) state :
  Z.of_nat n < 2 ^ 64 →
  cycle to ≠ cur →
  (length state ≤ n)%nat →
  snd (SimplePipelineImpl.TryPropagation cur
         (SimplePipelineImpl.mk (Z.of_nat n) (mkTimed cur x) to state))
  = match state ++ [x] with
    | front :: rest =>
        if (n <? length (state ++ [x]))%nat
        then SimplePipelineImpl.mk (Z.of_nat n) (mkTimed cur x)
               (mkTimed cur front) rest
        else SimplePipelineImpl.mk (Z.of_nat n) (mkTimed cur x)
               (mkTimed cur (bubble_of (phit to))) (state ++ [x])
    | [] => SimplePipelineImpl.mk (Z.of_nat n) (mkTimed cur x) to state
    end.
Proof.
  intros Hn Hto Hlen. unfold SimplePipelineImpl.TryPropagation. simpl.
  rewrite Z.eqb_refl.
  destruct (Z.eqb_spec (cycle to) cur) as [|_]; [done|].
  unfold to_uint64. rewrite Z.mod_small by lia.
  destruct (Z.ltb_spec (Z.of_nat n) (Z.of_nat (length (state ++ [x]))));
    destruct (Nat.ltb_spec n (length (state ++ [x]))); try lia;
    (destruct (state ++ [x]) as [|front rest] eqn:Hpushed;
     [by destruct state|done]).
Qed.

Lemma run_lane_queue (n : nat) cur xs (to : Timed T) state :
  (∀ q : T, bubble_of (bubble_of q) = bubble_of q) →
  Z.of_nat n < 2 ^ 64 →
  cycle to ≠ cur →
  (length state ≤ n)%nat →
  run_lane (Z.of_nat n) cur xs to state
  = (imap (λ k q, mkTimed (cur + Z.of_nat k) q)
       (take (length xs)
          (replicate (n - length state) (bubble_of (phit to))
             ++ state ++ xs)),
     drop (length (state ++ xs) - n) (state ++ xs)).
Proof.
  intros Hidem Hn. revert cur to state.
  induction xs as [|x xs IH]; intros cur to state Hto Hlen.
  { simpl. rewrite app_nil_r.
    by replace (length state - n)%nat with 0%nat by lia. }
  cbn [run_lane]. rewrite lane_step by done.
  destruct (state ++ [x]) as [|front rest] eqn:Hpushed;
    [by destruct state|].
  assert (state ++ x :: xs = (front :: rest) ++ xs) as Hall.
  { by rewrite <- Hpushed, <- (assoc_L (++)). }
  assert (length rest = length state) as Hrest.
  { apply (f_equal length) in Hpushed. rewrite length_app in Hpushed.
    simpl in Hpushed. lia. }
  rewrite Hall.
  destruct (Nat.ltb_spec n (length (front :: rest))) as [Hfull|Hroom];
    cbn [length] in *;
    cbn [SimplePipelineImpl.to_ SimplePipelineImpl.state_].
  - (* the queue is full: its front is delivered *)
    rewrite IH by (simpl; lia).
    replace (n - length rest)%nat with 0%nat by lia.
    replace (n - length state)%nat with 0%nat by lia.
    cbn [replicate app length take imap]. f_equal.
    + f_equal; [by rewrite Z.add_0_r|].
      apply imap_ext. intros k q _. simpl. f_equal. lia.
    + replace (S (length (rest ++ xs)) - n)%nat
        with (S (length (rest ++ xs) - n)).
      * done.
      * rewrite length_app. lia.
  - (* the queue has room: a bubble is delivered *)
    rewrite IH by (simpl; lia). cbn [phit]. rewrite Hidem.
    replace (n - length state)%nat
      with (S (n - length (front :: rest))) by (simpl; lia).
    cbn [replicate app length take imap]. f_equal.
    f_equal; [by rewrite Z.add_0_r|].
    apply imap_ext. intros k q _. simpl. f_equal. lia.
Qed.
End Latency.

(** X1.  A lane with [n] stages whose queue is empty delays every phit
    by [n] cycles: driven once in each of the cycles [cur], [cur + 1],
    ... with the phits [xs], it delivers a bubble in each of the first
    [n] cycles and then the phits in their order, each with the stamp of
    the cycle in which it is delivered; at the end the queue holds the
    last [n] phits. *)
Theorem lane_latency {T : Type} `{Phit T} (n : nat) (cur : Z) (xs : list T)
    (to : Timed T) :
  (∀ q : T, bubble_of (bubble_of q) = bubble_of q) →
  Z.of_nat n < 2 ^ 64 →
  cycle to ≠ cur →
  run_lane (Z.of_nat n) cur xs to []
  = (imap (λ k q, mkTimed (cur + Z.of_nat k) q)
       (take (length xs) (replicate n (bubble_of (phit to)) ++ xs)),
     drop (length xs - n) xs).
Proof.
  intros Hidem Hn Hto.
  rewrite run_lane_queue by (done || simpl; lia). simpl.
  by rewrite Nat.sub_0_r.
Qed.

(** A link with two stages in the cycles 5 to 8. *)
Lemma lane_latency_witness :
  run_lane 2 5
    [DataPhit.mk true 1 0 10; DataPhit.mk true 1 0 11;
     DataPhit.mk false 0 0 0; DataPhit.mk true 1 0 13]
    (mkTimed 4 (DataPhit.mk true 7 1 9)) []
  = ([mkTimed 5 (DataPhit.mk false 7 1 0); mkTimed 6 (DataPhit.mk false 7 1 0);
      mkTimed 7 (DataPhit.mk true 1 0 10); mkTimed 8 (DataPhit.mk true 1 0 11)],
     [DataPhit.mk false 0 0 0; DataPhit.mk true 1 0 13]).
Proof.
  refine (eq_trans
            (lane_latency 2 5
               [DataPhit.mk true 1 0 10; DataPhit.mk true 1 0 11;
                DataPhit.mk false 0 0 0; DataPhit.mk true 1 0 13]
               (mkTimed 4 (DataPhit.mk true 7 1 9)) _ _ _) _).
  - intros q. reflexivity.
  - reflexivity.
  - simpl. lia.
  - reflexivity.
Defined.

(** X2.  The number of stages is a signed integer that is compared with
    the size of the queue as an unsigned one: a lane with a negative
    number of stages never delivers a phit.  It writes a bubble in every
    cycle and keeps every phit in its queue. *)
Theorem lane_negative_stage_count {T : Type} `{Phit T} (n cur : Z)
    (xs : list T) (to : Timed T) (state : list T) :
  (∀ q : T, bubble_of (bubble_of q) = bubble_of q) →
  - 2 ^ 63 ≤ n < 0 →
  Z.of_nat (length state + length xs) < 2 ^ 63 →
  cycle to ≠ cur →
  run_lane n cur xs to state
  = (imap (λ k _, mkTimed (cur + Z.of_nat k) (bubble_of (phit to))) xs,
     state ++ xs).
Proof.
  intros Hidem Hn. revert cur to state.
  induction xs as [|x xs IH]; intros cur to state Hlen Hto.
  { simpl. by rewrite app_nil_r. }
  cbn [run_lane]. unfold SimplePipelineImpl.TryPropagation.
  cbn [SimplePipelineImpl.from_ SimplePipelineImpl.to_
       SimplePipelineImpl.state_ SimplePipelineImpl.stage_count_ cycle phit].
  rewrite Z.eqb_refl.
  destruct (Z.eqb_spec (cycle to) cur) as [|_]; [done|].
  assert (to_uint64 n = n + 2 ^ 64) as ->.
  { unfold to_uint64. symmetry. apply Z.mod_unique_pos with (q := -1); lia. }
  simpl length in Hlen.
  destruct (Z.ltb_spec (n + 2 ^ 64) (Z.of_nat (length (state ++ [x])))).
  { rewrite length_app in *. simpl in *. lia. }
  cbn [snd SimplePipelineImpl.to_ SimplePipelineImpl.state_].
  change (phit_set_data 0 (phit_set_valid false (phit to)))
    with (bubble_of (phit to)).
  rewrite IH.
  - cbn [phit imap]. rewrite Hidem, <- (assoc_L (++)). simpl. f_equal.
    f_equal; [by rewrite Z.add_0_r|].
    apply imap_ext. intros k q _. simpl. f_equal. lia.
  - rewrite length_app. simpl. lia.
  - simpl. lia.
Qed.

(** A reverse lane configured with -1 stages. *)
Lemma lane_negative_stage_count_witness :
  run_lane (-1) 5 [MetadataPhit.mk true 2; MetadataPhit.mk true 1]
    (mkTimed 4 (MetadataPhit.mk true 3)) []
  = ([mkTimed 5 (MetadataPhit.mk false 0); mkTimed 6 (MetadataPhit.mk false 0)],
     [MetadataPhit.mk true 2; MetadataPhit.mk true 1]).
Proof.
  refine (eq_trans
            (lane_negative_stage_count (-1) 5
               [MetadataPhit.mk true 2; MetadataPhit.mk true 1]
               (mkTimed 4 (MetadataPhit.mk true 3)) [] _ _ _ _) _).
  - intros q. reflexivity.
  - lia.
  - simpl. lia.
  - simpl. lia.
  - reflexivity.
Defined.

(** ** The injection of traffic *)

(** X3.  [SendPhitAtTime] accepts a phit exactly when its [vc] is the
    number of a queue of the source; a negative [vc] is refused like one
    that is too large.  An accepted phit is put at the back of the queue
    of its channel, and nothing else changes; a refused one leaves the
    source as it is and the error names the [vc] and the number of
    queues. *)
Theorem SendPhitAtTime_queues (p : TimedDataPhit)
    (s : SimNetworkInterfaceSrc.t) :
  - 2 ^ 63 ≤ DataPhit.vc (phit p) < 2 ^ 63 →
  Z.of_nat (length (SimNetworkInterfaceSrc.data_to_send_ s)) < 2 ^ 63 →
  match SimNetworkInterfaceSrc.data_to_send_ s
          !! Z.to_nat (DataPhit.vc (phit p)) with
  | Some queue =>
      if 0 <=? DataPhit.vc (phit p)
      then SimNetworkInterfaceSrc.SendPhitAtTime p s
           = (OkStatus,
              SimNetworkInterfaceSrc.set_data_to_send
                (<[Z.to_nat (DataPhit.vc (phit p)) := queue ++ [p]]>
                   (SimNetworkInterfaceSrc.data_to_send_ s)) s)
      else SimNetworkInterfaceSrc.SendPhitAtTime p s
           = (OutOfRangeError (DataPhit.vc (phit p))
                (Z.of_nat (length (SimNetworkInterfaceSrc.data_to_send_ s))),
              s)
  | None =>
      SimNetworkInterfaceSrc.SendPhitAtTime p s
      = (OutOfRangeError (DataPhit.vc (phit p))
           (Z.of_nat (length (SimNetworkInterfaceSrc.data_to_send_ s))),
         s)
  end.
Proof.
  intros Hvc Hlen. unfold SimNetworkInterfaceSrc.SendPhitAtTime, to_uint64.
  set (vc := DataPhit.vc (phit p)) in *.
  set (queues := SimNetworkInterfaceSrc.data_to_send_ s) in *.
  destruct (Z.leb_spec 0 vc) as [Hpos|Hneg].
  - rewrite Z.mod_small by lia.
    destruct (queues !! Z.to_nat vc) as [queue|] eqn:Hq.
    + apply lookup_lt_Some in Hq as Hlt.
      destruct (Z.ltb_spec vc (Z.of_nat (length queues))); [|lia].
      f_equal. f_equal. apply list_eq. intros j.
      destruct (decide (Z.to_nat vc = j)) as [<-|Hne].
      * rewrite list_lookup_alter_eq, list_lookup_insert_eq by done.
        by rewrite Hq.
      * by rewrite list_lookup_alter_ne, list_lookup_insert_ne.
    + apply lookup_ge_None in Hq.
      destruct (Z.ltb_spec vc (Z.of_nat (length queues))); [lia|done].
  - assert (vc mod 2 ^ 64 = vc + 2 ^ 64) as ->.
    { symmetry. apply Z.mod_unique_pos with (q := -1); lia. }
    destruct (Z.ltb_spec (vc + 2 ^ 64) (Z.of_nat (length queues))); [lia|].
    by destruct (queues !! Z.to_nat vc).
Qed.

(** A source with two channels: a phit for channel 1, one for channel 2
    and one for channel -1. *)
Lemma SendPhitAtTime_queues_witness :
  let s := SimNetworkInterfaceSrc.mk (mkBase 1 0 0) 0
             [[]; [mkTimed 2 (DataPhit.mk false 3 1 7)]] [0; 0]
             [CreditState.mk 0 0; CreditState.mk 0 0] in
  SimNetworkInterfaceSrc.SendPhitAtTime (mkTimed 4 (DataPhit.mk false 3 1 8)) s
  = (OkStatus,
     SimNetworkInterfaceSrc.mk (mkBase 1 0 0) 0
       [[]; [mkTimed 2 (DataPhit.mk false 3 1 7);
             mkTimed 4 (DataPhit.mk false 3 1 8)]] [0; 0]
       [CreditState.mk 0 0; CreditState.mk 0 0])
  ∧ SimNetworkInterfaceSrc.SendPhitAtTime
      (mkTimed 4 (DataPhit.mk false 3 2 8)) s
    = (OutOfRangeError 2 2, s)
  ∧ SimNetworkInterfaceSrc.SendPhitAtTime
      (mkTimed 4 (DataPhit.mk false 3 (-1) 8)) s
    = (OutOfRangeError (-1) 2, s).
Proof.
  intros s. split; [|split].
  - apply (SendPhitAtTime_queues (mkTimed 4 (DataPhit.mk false 3 1 8)) s);
      simpl; lia.
  - apply (SendPhitAtTime_queues (mkTimed 4 (DataPhit.mk false 3 2 8)) s);
      simpl; lia.
  - apply (SendPhitAtTime_queues (mkTimed 4 (DataPhit.mk false 3 (-1) 8)) s);
      simpl; lia.
Defined.

(** ** The source receives credit *)

(** X4.  The reverse propagation of a source whose connection has a
    reverse channel for each of its virtual channels finishes, reads its
    connection without writing it and changes nothing of the source but
    the pending updates (and the mark of the phase).  The update of a
    channel is taken from the reverse channel, a credit that is not valid
    counting as 0, when the reverse channel carries the stamp of the
    current cycle and the update has not been taken in this cycle; else
    it stays.  The propagation succeeds exactly when every reverse
    channel of the source carries the stamp of the current cycle. *)
Theorem source_receives_credit (sim : SimulatorView)
    (s : SimNetworkInterfaceSrc.t) (conns : Connections)
    (sink : SimConnectionState) :
  conns !! SimNetworkInterfaceSrc.sink_connection_index_ s = Some sink →
  (length (SimNetworkInterfaceSrc.credit_update_ s)
   ≤ length (reverse_channels sink))%nat →
  ∃ (b : bool) updates,
    SimNetworkInterfaceSrc.TryReversePropagation sim s conns
    = Done (b,
            (if b
             then SimNetworkInterfaceSrc.set_base
                    (set_reverse_propagated_cycle (GetCurrentCycle sim)
                       (SimNetworkInterfaceSrc.base_ s))
             else λ x, x)
              (SimNetworkInterfaceSrc.set_credit_update updates s),
            conns)
    ∧ length updates = length (SimNetworkInterfaceSrc.credit_update_ s)
    ∧ (∀ vc u ch,
         SimNetworkInterfaceSrc.credit_update_ s !! vc = Some u →
         reverse_channels sink !! vc = Some ch →
         updates !! vc
         = Some (if (cycle ch =? GetCurrentCycle sim)
                    && negb (CreditState.cycle u =? GetCurrentCycle sim)
                 then received_credit (GetCurrentCycle sim) ch
                 else u))
    ∧ (b = true ↔
       ∀ vc ch,
         (vc < length (SimNetworkInterfaceSrc.credit_update_ s))%nat →
         reverse_channels sink !! vc = Some ch →
         cycle ch = GetCurrentCycle sim).
Proof.
  intros Hsink Hlen.
  set (cur := GetCurrentCycle sim).
  set (orig := SimNetworkInterfaceSrc.credit_update_ s) in *.
  set (take_credit := λ (u : CreditState.t) (ch : TimedMetadataPhit),
         if (cycle ch =? cur) && negb (CreditState.cycle u =? cur)
         then received_credit cur ch else u).
  destruct (for_upto_total
              (λ k (st : Z * list CreditState.t),
                 length st.2 = length orig
                 ∧ 0 ≤ st.1 ≤ Z.of_nat k
                 ∧ (st.1 = Z.of_nat k ↔
                    ∀ vc ch, (vc < k)%nat →
                      reverse_channels sink !! vc = Some ch → cycle ch = cur)
                 ∧ (∀ vc u ch, (vc < k)%nat →
                      orig !! vc = Some u →
                      reverse_channels sink !! vc = Some ch →
                      st.2 !! vc = Some (take_credit u ch))
                 ∧ (∀ vc, (k ≤ vc)%nat → st.2 !! vc = orig !! vc))
              (length orig)
              (SimNetworkInterfaceSrc.receive_credit sim
                 (SimNetworkInterfaceSrc.sink_connection_index_ s) conns)
              (0, orig))
    as ([num updates] & Hrun & Hn & Hnum & Hall & Htaken & _).
  - intros k [num upd] Hk (Hn & Hnum & Hall & Htaken & Hrest).
    simpl in Hn, Hnum, Hall, Htaken, Hrest.
    destruct (lookup_lt_is_Some_2 (reverse_channels sink) k) as [ch Hch];
      [lia|].
    destruct (lookup_lt_is_Some_2 orig k) as [u Hu]; [done|].
    unfold SimNetworkInterfaceSrc.receive_credit, GetSimConnectionByIndex,
      subscript.
    rewrite Hsink. simpl. rewrite Hch. simpl. fold cur.
    rewrite (Hrest k) by lia. rewrite Hu. simpl.
    destruct (Z.eqb_spec (cycle ch) cur) as [Hst|Hst].
    + eexists. split; [done|]. simpl.
      split; [by destruct (_ =? _); rewrite ?length_insert|].
      split; [lia|]. split; [|split].
      * split.
        -- intros Heq vc ch' Hvc Hch'.
           destruct (decide (vc = k)) as [->|]; [congruence|].
           exact (proj1 Hall ltac:(lia) vc ch' ltac:(lia) Hch').
        -- intros Hstamped. rewrite (proj2 Hall); [lia|].
           intros vc ch' Hvc. apply Hstamped. lia.
      * intros vc u' ch' Hvc Hu' Hch'.
        destruct (decide (vc = k)) as [->|Hne].
        -- rewrite Hu in Hu'. rewrite Hch in Hch'.
           injection Hu' as <-. injection Hch' as <-.
           unfold take_credit. rewrite (proj2 (Z.eqb_eq _ _) Hst). simpl.
           destruct (Z.eqb_spec (CreditState.cycle u) cur); simpl.
           ++ by rewrite Hrest, Hu by lia.
           ++ apply list_lookup_insert_eq. lia.
        -- destruct (_ =? _); [apply Htaken; [lia|done..]|].
           rewrite list_lookup_insert_ne by done.
           apply Htaken; [lia|done..].
      * intros vc Hvc. destruct (_ =? _); [apply Hrest; lia|].
        rewrite list_lookup_insert_ne by lia. apply Hrest. lia.
    + eexists. split; [done|]. simpl.
      split; [done|]. split; [lia|]. split; [|split].
      * split; [lia|]. intros Hstamped. destruct Hst.
        by apply (Hstamped k ch); [lia|].
      * intros vc u' ch' Hvc Hu' Hch'.
        destruct (decide (vc = k)) as [->|Hne].
        -- rewrite Hu in Hu'. rewrite Hch in Hch'.
           injection Hu' as <-. injection Hch' as <-.
           unfold take_credit.
           destruct (Z.eqb_spec (cycle ch) cur); [done|]. simpl.
           by rewrite Hrest, Hu by lia.
        -- apply Htaken; [lia|done..].
      * intros vc Hvc. apply Hrest. lia.
  - simpl. split; [done|]. split; [lia|]. split; [|split].
    + split; [|done]. intros _ vc ch Hvc. lia.
    + intros vc u ch Hvc. lia.
    + done.
  - simpl in Hn, Hnum, Hall, Htaken.
    exists (num =? Z.of_nat (length orig)), updates.
    split; [|split; [done|split]].
    + unfold SimNetworkInterfaceSrc.TryReversePropagation,
        GetSimConnectionByIndex, subscript.
      rewrite Hsink. simpl. fold orig. rewrite Hrun. simpl.
      by destruct (_ =? _).
    + intros vc u ch Hu Hch. apply Htaken; [|done..].
      by apply lookup_lt_Some in Hu.
    + rewrite Z.eqb_eq. exact Hall.
Qed.

(** A source with two channels in cycle 5: the reverse channel 0 carries
    a credit of 3 with the stamp 5, the reverse channel 1 has the stamp
    of cycle 4. *)
Lemma source_receives_credit_witness :
  let sim := mkView 5 Examples.no_routes [] in
  let s := SimNetworkInterfaceSrc.mk (mkBase 1 5 4) 0 [[]; []] [0; 0]
             [CreditState.mk 4 1; CreditState.mk 4 2] in
  let sink := mkConnection 0 (mkTimed 5 bubble)
                [mkTimed 5 (MetadataPhit.mk true 3);
                 mkTimed 4 (MetadataPhit.mk true 1)] in
  SimNetworkInterfaceSrc.TryReversePropagation sim s [sink]
  = Done (false,
          SimNetworkInterfaceSrc.set_credit_update
            [CreditState.mk 5 3; CreditState.mk 4 2] s,
          [sink]).
Proof.
  intros sim s sink.
  destruct (source_receives_credit sim s [sink] sink eq_refl
              ltac:(simpl; lia))
    as (b & updates & Hrun & Hlen & Htaken & Hb).
  assert (b = false) as ->.
  { destruct b; [|done].
    pose proof (proj1 Hb eq_refl 1%nat _ ltac:(simpl; lia) eq_refl) as Hst.
    simpl in Hst. lia. }
  pose proof (Htaken 0%nat _ _ eq_refl eq_refl) as H0.
  pose proof (Htaken 1%nat _ _ eq_refl eq_refl) as H1.
  destruct updates as [|u0 [|u1 [|u2 updates]]]; simpl in *;
    try discriminate.
  injection H0 as ->. injection H1 as ->. exact Hrun.
Defined.

(** ** The reverse lanes of a link and the channels of its connections *)

Section LinkLanes.
Context (sim : SimulatorView) (l : SimLink.t) (conns : Connections)
  (up down : SimConnectionState).
Context
  (Hup : conns !! SimLink.src_connection_index_ l = Some up)
  (Hdown : conns !! SimLink.sink_connection_index_ l = Some down).

(** While the lanes run, the connections keep their channels and the
    link keeps its queues. *)
Lemma link_lane_done vc num stages conns1 :
  advances (GetCurrentCycle sim) conns conns1 →
  length stages = length (SimLink.reverse_credit_stages_ l) →
  (vc < length (reverse_channels down))%nat →
  (vc < length (reverse_channels up))%nat →
  (vc < length (SimLink.reverse_credit_stages_ l))%nat →
  ∃ num' stages' conns',
    SimLink.reverse_lane sim l vc (num, stages, conns1)
    = Done (num', stages', conns')
    ∧ advances (GetCurrentCycle sim) conns conns'
    ∧ length stages' = length (SimLink.reverse_credit_stages_ l).
Proof.
  intros Hadv Hstages Hvd Hvu Hvs.
  destruct (advances_lookup _ _ _ _ _ Hadv Hup) as (up' & Hup' & Hcu).
  destruct (advances_lookup _ _ _ _ _ Hadv Hdown)
    as (down' & Hdown' & Hcd).
  destruct (lookup_lt_is_Some_2 (reverse_channels down') vc)
    as [from Hfrom].
  { by rewrite (connection_advances_rev_length _ _ _ Hcd). }
  destruct (lookup_lt_is_Some_2 (reverse_channels up') vc) as [to Hto].
  { by rewrite (connection_advances_rev_length _ _ _ Hcu). }
  destruct (lookup_lt_is_Some_2 stages vc) as [state Hstate]; [lia|].
  unfold SimLink.reverse_lane, GetSimConnectionByIndex, subscript, at_.
  rewrite Hup', Hdown'. simpl. rewrite Hfrom, Hto. simpl.
  rewrite Hstate. simpl.
  pose proof (TryPropagation_to_changes (GetCurrentCycle sim)
    (SimplePipelineImpl.mk (SimLink.reverse_pipeline_stages_ l) from to
       state)) as Hchanges.
  destruct (SimplePipelineImpl.TryPropagation _ _) as [ok p].
  simpl in Hchanges. eexists _, _, _. split; [done|]. split.
  - etrans; [done|]. eapply write_reverse_channel_advances; [done..|].
    destruct Hchanges as [->|Hst]; [by left|by right].
  - by rewrite length_insert.
Qed.

Lemma link_lane_out_of_range vc num stages conns1 :
  advances (GetCurrentCycle sim) conns conns1 →
  length stages = length (SimLink.reverse_credit_stages_ l) →
  (vc < length (reverse_channels down))%nat →
  (length (reverse_channels up) ≤ vc
   ∨ length (SimLink.reverse_credit_stages_ l) ≤ vc)%nat →
  SimLink.reverse_lane sim l vc (num, stages, conns1)
  = Abort OutOfRangeException.
Proof.
  intros Hadv Hstages Hvd Hshort.
  destruct (advances_lookup _ _ _ _ _ Hadv Hup) as (up' & Hup' & Hcu).
  destruct (advances_lookup _ _ _ _ _ Hadv Hdown)
    as (down' & Hdown' & Hcd).
  destruct (lookup_lt_is_Some_2 (reverse_channels down') vc)
    as [from Hfrom].
  { by rewrite (connection_advances_rev_length _ _ _ Hcd). }
  unfold SimLink.reverse_lane, GetSimConnectionByIndex, subscript, at_.
  rewrite Hup', Hdown'. simpl. rewrite Hfrom. simpl.
  destruct (reverse_channels up' !! vc) as [to|] eqn:Hto; [|done].
  simpl. apply lookup_lt_Some in Hto.
  rewrite (connection_advances_rev_length _ _ _ Hcu) in Hto.
  destruct Hshort as [?|Hshort]; [lia|].
  rewrite (proj2 (lookup_ge_None stages vc)); [done|lia].
Qed.

Lemma link_lanes_done n :
  (n ≤ length (reverse_channels down))%nat →
  (n ≤ length (reverse_channels up))%nat →
  (n ≤ length (SimLink.reverse_credit_stages_ l))%nat →
  ∃ num stages conns',
    for_upto n (SimLink.reverse_lane sim l)
      (0, SimLink.reverse_credit_stages_ l, conns)
    = Done (num, stages, conns')
    ∧ advances (GetCurrentCycle sim) conns conns'
    ∧ length stages = length (SimLink.reverse_credit_stages_ l).
Proof.
  intros Hnd Hnu Hns.
  destruct (for_upto_total
              (λ _ (st : Z * list (list MetadataPhit.t) * Connections),
                 advances (GetCurrentCycle sim) conns st.2
                 ∧ length st.1.2
                   = length (SimLink.reverse_credit_stages_ l))
              n (SimLink.reverse_lane sim l)
              (0, SimLink.reverse_credit_stages_ l, conns))
    as ([[num stages] conns'] & Hrun & Hadv & Hlen).
  - intros vc [[num stages] conns1] Hvc [Hadv Hlen]. simpl in *.
    destruct (link_lane_done vc num stages conns1)
      as (num' & stages' & conns' & Hstep & Hadv' & Hlen');
      [done|done|lia..|].
    by exists (num', stages', conns').
  - by split.
  - by exists num, stages, conns'.
Qed.
End LinkLanes.

(** X5.  The reverse propagation of a link drives one lane for each
    reverse channel of its downstream connection, and reaches for the
    same channel upstream and for a queue of its own with [at].  It
    finishes when the upstream connection has at least as many reverse
    channels as the downstream one and the link has a queue for each of
    them; if not, [std::out_of_range] is thrown and nobody catches it. *)
Theorem link_reverse_channels (sim : SimulatorView) (l : SimLink.t)
    (conns : Connections) (up down : SimConnectionState) :
  conns !! SimLink.src_connection_index_ l = Some up →
  conns !! SimLink.sink_connection_index_ l = Some down →
  if decide (length (reverse_channels down) ≤ length (reverse_channels up)
             ∧ length (reverse_channels down)
               ≤ length (SimLink.reverse_credit_stages_ l))%nat
  then ∃ b l' conns',
         SimLink.TryReversePropagation sim l conns = Done (b, l', conns')
  else SimLink.TryReversePropagation sim l conns
       = Abort OutOfRangeException.
Proof.
  intros Hup Hdown.
  unfold SimLink.TryReversePropagation, GetSimConnectionByIndex, subscript.
  rewrite Hup, Hdown. simpl.
  destruct (decide _) as [[Hnu Hns]|Hshort].
  - destruct (link_lanes_done sim l conns up down Hup Hdown
                (length (reverse_channels down)))
      as (num & stages & conns' & -> & _); [lia..|].
    simpl. destruct (_ =? _); by eexists _, _, _.
  - set (k := (length (reverse_channels up)
               `min` length (SimLink.reverse_credit_stages_ l))%nat).
    assert (k < length (reverse_channels down))%nat as Hk by lia.
    destruct (link_lanes_done sim l conns up down Hup Hdown k)
      as (num & stages & conns' & Hrun & Hadv & Hlen); [lia..|].
    unfold for_upto in *.
    replace (length (reverse_channels down))
      with (k + S (length (reverse_channels down) - S k))%nat by lia.
    rewrite seq_app. simpl.
    erewrite RouterForward.for_each_abort; [done|exact Hrun|].
    eapply link_lane_out_of_range; [done..|lia].
Qed.

(** A link between an upstream connection with one reverse channel and a
    downstream connection with two. *)
Lemma link_reverse_channels_witness :
  let sim := mkView 5 Examples.no_routes [] in
  let l := SimLink.mk (mkBase 7 5 4) 1 1 0 1 [] [[]; []] in
  let up := mkConnection 0 (mkTimed 5 bubble)
              [mkTimed 4 (MetadataPhit.mk false 0)] in
  let down := mkConnection 1 (mkTimed 5 bubble)
                [mkTimed 5 (MetadataPhit.mk true 1);
                 mkTimed 5 (MetadataPhit.mk false 0)] in
  SimLink.TryReversePropagation sim l [up; down] = Abort OutOfRangeException
  ∧ ∃ b l' conns',
      SimLink.TryReversePropagation sim l [down; down]
      = Done (b, l', conns').
Proof.
  intros sim l up down. split.
  - exact (link_reverse_channels sim l [up; down] up down eq_refl eq_refl).
  - exact (link_reverse_channels sim l [down; down] down down eq_refl
             eq_refl).
Defined.

(** ** What a tick reports and what it leaves alone *)

Section TickFrame.
Context {C : Type} `{SimNetworkComponentLaws C}.
Implicit Types (c : C) (conns : Connections) (sim : SimulatorView).

Lemma forward_phase_frame sim c conns b c1 conns1 :
  forward_phase sim c conns = Done (b, c1, conns1) →
  advances (GetCurrentCycle sim) conns conns1
  ∧ wiring c1 = wiring c
  ∧ reverse_propagated_cycle_ (base c1) = reverse_propagated_cycle_ (base c)
  ∧ (b = false →
     forward_propagated_cycle_ (base c1) ≠ GetCurrentCycle sim).
Proof.
  intros Hrun.
  apply forward_phase_inv in Hrun
    as [(Hk & -> & -> & ->)|(Hk & c0 & Hrun & ->)].
  { by repeat split. }
  apply TryForwardPropagation_law in Hrun as (Hadv & Hw & Hrpc & Hb).
  destruct b.
  - rewrite wiring_with_base, !base_with_base. by repeat split.
  - repeat split; try done. intros _. by rewrite Hb.
Qed.

Lemma reverse_phase_frame sim c conns b c1 conns1 :
  reverse_phase sim c conns = Done (b, c1, conns1) →
  advances (GetCurrentCycle sim) conns conns1
  ∧ wiring c1 = wiring c
  ∧ forward_propagated_cycle_ (base c1) = forward_propagated_cycle_ (base c)
  ∧ (b = false →
     reverse_propagated_cycle_ (base c1) ≠ GetCurrentCycle sim).
Proof.
  intros Hrun.
  apply reverse_phase_inv in Hrun
    as [(Hk & -> & -> & ->)|(Hk & c0 & Hrun & ->)].
  { by repeat split. }
  apply TryReversePropagation_law in Hrun as (Hadv & Hw & Hfpc & Hb).
  destruct b.
  - rewrite wiring_with_base, !base_with_base. by repeat split.
  - repeat split; try done. intros _. by rewrite Hb.
Qed.

Lemma Tick_frame sim c conns b c' conns' :
  Tick sim c conns = Done (b, c', conns') →
  advances (GetCurrentCycle sim) conns conns'
  ∧ wiring c' = wiring c
  ∧ (b = true ↔ converged_in (GetCurrentCycle sim) c').
Proof.
  intros Hrun. pose proof Hrun as Htick.
  apply Tick_inv in Hrun as (fwd & rev & c1 & conns1 & Hf & Hr & ->).
  apply forward_phase_frame in Hf as (Ha1 & Hw1 & _ & Hf).
  apply reverse_phase_frame in Hr as (Ha2 & Hw2 & Hfpc & Hr).
  split; [by etrans|]. split; [congruence|].
  split.
  - intros Hb. rewrite Hb in Htick. by eapply Tick_true.
  - intros [Hcf Hcr]. apply andb_true_iff.
    split; [destruct fwd|destruct rev]; try done.
    + exfalso. apply Hf; [done|]. by rewrite <- Hfpc.
    + exfalso. by apply Hr.
Qed.

Lemma tick_components_frame sim (ncs : list C) conv conns b ncs' conns' :
  tick_components sim ncs conv conns = Done (b, ncs', conns') →
  advances (GetCurrentCycle sim) conns conns'
  ∧ Forall2 (λ c c', wiring c' = wiring c) ncs ncs'
  ∧ (b = true ↔
     conv = true ∧ Forall (converged_in (GetCurrentCycle sim)) ncs').
Proof.
  revert conv conns ncs'.
  induction ncs as [|nc rest IH]; intros conv conns ncs' Hrun;
    apply tick_components_inv in Hrun.
  - destruct Hrun as (-> & -> & ->). split; [done|]. split; [done|].
    split; [done|]. by intros [-> _].
  - destruct Hrun as (this & nc1 & conns1 & rest1 & Ht & Hrest & ->).
    apply Tick_frame in Ht as (Ha1 & Hw1 & Hb1).
    apply IH in Hrest as (Ha2 & Hw2 & Hb2).
    split; [by etrans|]. split; [by constructor|].
    split.
    + intros Hb. apply Hb2 in Hb as [Hand Hrest].
      apply andb_true_iff in Hand as [-> Hthis].
      split; [done|]. constructor; [by apply Hb1|done].
    + intros [-> Hall]. apply Forall_cons_1 in Hall as [Hnc Hrest].
      apply Hb2. split; [|done]. by apply Hb1.
Qed.
End TickFrame.

Module NocSimulatorFrame.
Import NocSimulator NocSimulatorInv NocSimulatorFacts.

Lemma simulator_Tick_frame s b s' :
Tick s = Done (b, s') →
same_wiring s s'
∧ advances (cycle_ s) (connections_ s) (connections_ s')
∧ (b = true ↔ all_converged s').
Proof.
intros Hrun.
apply NocSimulatorFacts.simulator_Tick_inv in Hrun
  as (c1 & c2 & c3 & srcs & links & routers & sinks & conns1 & conns2
      & conns3 & conns4 & H1 & H2 & H3 & H4 & ->).
apply tick_components_frame in H1 as (Ha1 & Hw1 & Hb1).
apply tick_components_frame in H2 as (Ha2 & Hw2 & Hb2).
apply tick_components_frame in H3 as (Ha3 & Hw3 & Hb3).
apply tick_components_frame in H4 as (Ha4 & Hw4 & Hb4).
split; [by repeat split|]. split.
- simpl in *. etrans; [exact Ha1|]. etrans; [exact Ha2|]. by etrans.
- unfold all_converged. simpl in *. tauto.
Qed.

Lemma same_wiring_lengths s s' :
same_wiring s s' →
cycle_ s' = cycle_ s
∧ length (network_interface_sources_ s')
  = length (network_interface_sources_ s)
∧ length (links_ s') = length (links_ s)
∧ length (routers_ s') = length (routers_ s)
∧ length (network_interface_sinks_ s')
  = length (network_interface_sinks_ s).
Proof.
intros (Hv & Ha & Hb & Hc & Hd).
apply Forall2_length in Ha, Hb, Hc, Hd.
split; [by injection Hv|]. by repeat split.
Qed.

Lemma tick_until_converged_frame fuel nticks s n s' :
tick_until_converged fuel nticks s = Some (Done (n, s')) →
same_wiring s s'
∧ advances (cycle_ s) (connections_ s) (connections_ s')
∧ all_converged s'
∧ nticks < n ≤ nticks + Z.of_nat fuel.
Proof.
revert nticks s. induction fuel as [|fuel IH]; intros nticks s Hrun;
  apply tick_until_converged_inv in Hrun as (fuel1 & Hfuel & Hrun);
  [done|].
injection Hfuel as <-.
destruct Hrun as [[Htick ->]|(s1 & Htick & Hrun)].
- apply simulator_Tick_frame in Htick as (Hw & Hadv & Hb).
  split; [done|]. split; [done|]. split; [by apply Hb|lia].
- apply simulator_Tick_frame in Htick as (Hw1 & Hadv1 & _).
  apply IH in Hrun as (Hw' & Hadv' & Hc' & Hn).
  destruct (same_wiring_lengths _ _ Hw1) as [Hcycle _].
  rewrite Hcycle in Hadv'.
  split; [by eapply same_wiring_trans|]. split; [by etrans|].
  split; [done|lia].
Qed.

Lemma tick_until_converged_ticks fuel nticks s n s' :
tick_until_converged fuel nticks s = Some (Done (n, s')) →
∃ (k : nat) s1,
  (k < fuel)%nat
  ∧ Lookup.ticks_to s k s1
  ∧ Tick s1 = Done (true, s')
  ∧ n = nticks + Z.of_nat k + 1.
Proof.
revert nticks s. induction fuel as [|fuel IH]; intros nticks s Hrun;
  apply tick_until_converged_inv in Hrun as (fuel1 & Hfuel & Hrun);
  [done|].
injection Hfuel as <-.
destruct Hrun as [[Htick ->]|(s1 & Htick & Hrun)].
- exists 0%nat, s. split; [lia|]. split; [constructor|]. split; [done|lia].
- apply IH in Hrun as (k & s2 & Hk & Hticks & Hlast & ->).
  exists (S k), s2. split; [lia|].
  split; [by econstructor|]. split; [done|lia].
Qed.

Lemma ticks_to_tick_until_converged s k s1 s' fuel nticks :
Lookup.ticks_to s k s1 →
Tick s1 = Done (true, s') →
(k < fuel)%nat →
tick_until_converged fuel nticks s
= Some (Done (nticks + Z.of_nat k + 1, s')).
Proof.
intros Hticks Hlast. revert fuel nticks.
induction Hticks as [s|s s2 k s1 Htick Hticks IH]; intros fuel nticks Hk;
  (destruct fuel as [|fuel]; [lia|]); simpl.
- rewrite Hlast. do 3 f_equal. lia.
- rewrite Htick, (IH Hlast) by lia. do 3 f_equal. lia.
Qed.

Lemma log_connections_status conns nticks max_ticks cycle :
log_connections conns nticks max_ticks cycle
= match conns with
  | [] => OkStatus
  | _ :: _ =>
      if max_ticks <=? nticks then InternalError nticks cycle
      else OkStatus
  end.
Proof.
destruct conns as [|c rest]; [done|]. simpl.
destruct (max_ticks <=? nticks) eqn:Hle; [done|].
induction rest as [|c' rest IH]; [done|]. simpl. by rewrite Hle.
Qed.
End NocSimulatorFrame.

(** X6.  A tick reports convergence exactly when, after it, every source,
    link, router and sink has both of its phases marked as done for the
    current cycle. *)
Theorem Tick_reports_convergence (s s' : NocSimulator.t) (b : bool) :
  NocSimulator.Tick s = Done (b, s') →
  b = true ↔ NocSimulatorInv.all_converged s'.
Proof.
  intros Hrun.
  by apply NocSimulatorFrame.simulator_Tick_frame in Hrun as (_ & _ & Hb).
Qed.

Lemma Tick_reports_convergence_witness :
  NocSimulator.Tick Examples.line_after_cycle_0
  = Done (true, Examples.line_after_cycle_0)
  ∧ (true = true ↔ NocSimulatorInv.all_converged Examples.line_after_cycle_0).
Proof.
  assert (NocSimulator.Tick Examples.line_after_cycle_0
          = Done (true, Examples.line_after_cycle_0)) as Hrun
    by (vm_compute; reflexivity).
  split; [exact Hrun|].
  exact (Tick_reports_convergence _ _ _ Hrun).
Defined.

(** X7.  A tick, whatever it reports, keeps the cycle, the routing table
    and the index store, keeps every component in its place with its
    connection indices, keeps the number of connections, their ids and the
    number of their reverse channels, and each channel it leaves is either
    the channel it found or one stamped with the current cycle. *)
Theorem Tick_stamps_current_cycle (s s' : NocSimulator.t) (b : bool) :
  NocSimulator.Tick s = Done (b, s') →
  NocSimulatorInv.same_wiring s s'
  ∧ advances (NocSimulator.cycle_ s)
      (NocSimulator.connections_ s) (NocSimulator.connections_ s').
Proof.
  intros Hrun.
  by apply NocSimulatorFrame.simulator_Tick_frame in Hrun as (Hw & Hadv & _).
Qed.

Lemma Tick_stamps_current_cycle_witness :
  let s := NocSimulator.set_cycle 0 Examples.ring in
  NocSimulator.Tick s = Done (false, Examples.ring_after_tick)
  ∧ NocSimulatorInv.same_wiring s Examples.ring_after_tick
  ∧ advances 0 (NocSimulator.connections_ s)
      (NocSimulator.connections_ Examples.ring_after_tick).
Proof.
  intros s.
  assert (NocSimulator.Tick s = Done (false, Examples.ring_after_tick))
    as Hrun by (vm_compute; reflexivity).
  split; [exact Hrun|].
  exact (Tick_stamps_current_cycle _ _ _ Hrun).
Defined.

(** X8.  [RunCycle] returns exactly when, in the next cycle, some number
    [k] of ticks that do not report convergence, fewer than the fuel, are
    followed by a tick that does: the loop has then run [nticks = k + 1]
    ticks, and the status is Ok when there is no connection or
    [nticks < max_ticks], and the internal error that names [nticks] and
    the new cycle otherwise.  The simulator it returns is in the next
    cycle, every component has converged in it (one more tick reports
    convergence and changes nothing), and the wiring is the one before the
    call. *)
Theorem RunCycle_returns (fuel : nat) (max_ticks : Z)
    (s s' : NocSimulator.t) (status : Status) :
  (NocSimulator.RunCycle fuel max_ticks s = Some (Done (status, s')) ↔
   ∃ (k : nat) (s1 : NocSimulator.t),
     (k < fuel)%nat
     ∧ Lookup.ticks_to
         (NocSimulator.set_cycle (NocSimulator.cycle_ s + 1) s) k s1
     ∧ NocSimulator.Tick s1 = Done (true, s')
     ∧ status
       = if decide (NocSimulator.connections_ s = []
                    ∨ Z.of_nat k + 1 < max_ticks)
         then OkStatus
         else InternalError (Z.of_nat k + 1) (NocSimulator.cycle_ s + 1))
  ∧ (NocSimulator.RunCycle fuel max_ticks s = Some (Done (status, s')) →
     NocSimulator.cycle_ s' = NocSimulator.cycle_ s + 1
     ∧ NocSimulatorInv.same_wiring
         (NocSimulator.set_cycle (NocSimulator.cycle_ s + 1) s) s'
     ∧ length (NocSimulator.connections_ s')
       = length (NocSimulator.connections_ s)
     ∧ NocSimulator.Tick s' = Done (true, s')).
Proof.
  assert (∀ nticks,
            NocSimulator.tick_until_converged fuel 0
              (NocSimulator.set_cycle (NocSimulator.cycle_ s + 1) s)
            = Some (Done (nticks, s')) →
            (NocSimulator.cycle_ s' = NocSimulator.cycle_ s + 1
             ∧ NocSimulatorInv.same_wiring
                 (NocSimulator.set_cycle (NocSimulator.cycle_ s + 1) s) s'
             ∧ length (NocSimulator.connections_ s')
               = length (NocSimulator.connections_ s)
             ∧ NocSimulator.Tick s' = Done (true, s'))
            ∧ NocSimulator.log_connections (NocSimulator.connections_ s')
                nticks max_ticks (NocSimulator.cycle_ s')
              = if decide (NocSimulator.connections_ s = []
                           ∨ nticks < max_ticks)
                then OkStatus
                else InternalError nticks (NocSimulator.cycle_ s + 1))
    as Hloop.
  { intros nticks Hrun.
    apply NocSimulatorFrame.tick_until_converged_frame in Hrun
      as (Hw & Hadv & Hconv & Hn).
    destruct (NocSimulatorFrame.same_wiring_lengths _ _ Hw) as [Hcycle _].
    simpl in Hcycle, Hadv. apply Forall2_length in Hadv.
    split.
    { split; [done|]. split; [done|]. split; [done|].
      by apply NocSimulatorFacts.simulator_Tick_converged. }
    rewrite NocSimulatorFrame.log_connections_status, Hcycle.
    destruct (NocSimulator.connections_ s') as [|c' rest'],
      (NocSimulator.connections_ s) as [|c rest]; try discriminate Hadv.
    - by rewrite decide_True by (by left).
    - destruct (Z.leb_spec max_ticks nticks).
      + rewrite decide_False; [done|]. intros [|]; [done|lia].
      + by rewrite decide_True by (by right). }
  split; [split|].
  - intros Hrun.
    apply NocSimulatorFacts.RunCycle_inv in Hrun as (nticks & Hrun & ->).
    destruct (NocSimulatorFrame.tick_until_converged_ticks _ _ _ _ _ Hrun)
      as (k & s1 & Hk & Hticks & Hlast & ->).
    destruct (Hloop _ Hrun) as [_ Hstatus].
    rewrite Z.add_0_l in Hstatus.
    exists k, s1. split; [done|]. split; [done|]. by split.
  - intros (k & s1 & Hk & Hticks & Hlast & ->).
    pose proof (NocSimulatorFrame.ticks_to_tick_until_converged
                  _ _ _ _ fuel 0 Hticks Hlast Hk) as Hrun.
    destruct (Hloop _ Hrun) as [_ Hstatus].
    unfold NocSimulator.RunCycle. rewrite Hrun, Hstatus.
    by rewrite Z.add_0_l.
  - intros Hrun.
    apply NocSimulatorFacts.RunCycle_inv in Hrun as (nticks & Hrun & ->).
    by destruct (Hloop _ Hrun) as [Hframe _].
Qed.

(** The first cycle of the line takes three ticks: with [max_ticks = 3] it
    returns the error that names 3, with [max_ticks = 4] it is Ok. *)
Lemma RunCycle_returns_witness :
  let s0 := NocSimulator.set_cycle 0 Examples.line in
  let s1 := line_after_tick_1 in
  let s2 := line_after_tick_2 in
  let s' := Examples.line_after_cycle_0 in
  NocSimulator.Tick s0 = Done (false, s1)
  ∧ NocSimulator.Tick s1 = Done (false, s2)
  ∧ NocSimulator.Tick s2 = Done (true, s')
  ∧ NocSimulator.RunCycle 3 3 Examples.line
    = Some (Done (InternalError 3 0, s'))
  ∧ NocSimulator.RunCycle 3 4 Examples.line = Some (Done (OkStatus, s'))
  ∧ NocSimulator.cycle_ s' = 0
  ∧ NocSimulator.Tick s' = Done (true, s').
Proof.
  intros s0 s1 s2 s'.
  assert (NocSimulator.Tick s0 = Done (false, s1)) as H1
    by (vm_compute; reflexivity).
  assert (NocSimulator.Tick s1 = Done (false, s2)) as H2
    by (vm_compute; reflexivity).
  assert (NocSimulator.Tick s2 = Done (true, s')) as H3
    by (vm_compute; reflexivity).
  assert (Lookup.ticks_to s0 2 s2) as Hticks.
  { eapply Lookup.ticks_to_next; [exact H1|].
    eapply Lookup.ticks_to_next; [exact H2|]. constructor. }
  assert (NocSimulator.connections_ Examples.line ≠ []) as Hconns
    by discriminate.
  assert (NocSimulator.RunCycle 3 3 Examples.line
          = Some (Done (InternalError 3 0, s'))) as Herror.
  { apply (proj2 (proj1 (RunCycle_returns 3 3 Examples.line s' _))).
    exists 2%nat, s2. split; [lia|]. split; [exact Hticks|].
    split; [exact H3|]. rewrite decide_False; [reflexivity|].
    intros [|]; [done|lia]. }
  assert (NocSimulator.RunCycle 3 4 Examples.line
          = Some (Done (OkStatus, s'))) as Hok.
  { apply (proj2 (proj1 (RunCycle_returns 3 4 Examples.line s' _))).
    exists 2%nat, s2. split; [lia|]. split; [exact Hticks|].
    split; [exact H3|]. rewrite decide_True; [reflexivity|]. right. lia. }
  destruct (proj2 (RunCycle_returns 3 3 Examples.line s' _) Herror)
    as (Hcycle & _ & _ & Htick).
  split; [exact H1|]. split; [exact H2|].
  split; [exact H3|]. split; [exact Herror|]. split; [exact Hok|].
  split; [exact Hcycle|exact Htick].
Defined.

(** ** The sink outside cycle 0 *)

Section SinkReceives.
Import SimNetworkInterfaceSink.

Lemma alter_insert {A} (g : A → A) (l : list A) i x :
  l !! i = Some x → alter g i l = <[i := g x]> l.
Proof.
  intros Hi. apply list_eq. intros j.
  destruct (decide (i = j)) as [->|Hne].
  - rewrite list_lookup_alter_eq, Hi. simpl.
    rewrite list_lookup_insert_eq; [done|]. by eapply lookup_lt_Some.
  - by rewrite list_lookup_alter_ne, list_lookup_insert_ne.
Qed.

Lemma write_reverse_insert i v r (conns : Connections) c c0 :
  conns !! i = Some c0 →
  write_reverse i v r (<[i := c]> conns)
  = <[i := set_reverse_channel v r c]> conns.
Proof.
  intros Hi. unfold write_reverse.
  rewrite (alter_insert _ _ _ c), list_insert_insert_eq; [done|].
  apply list_lookup_insert_eq. by eapply lookup_lt_Some.
Qed.

Lemma no_credit_loop sim s (conns : Connections) c0 c :
  conns !! src_connection_index_ s = Some c0 →
  for_upto (length (reverse_channels c)) (no_credit_update sim s)
    (<[src_connection_index_ s := c]> conns)
  = Done (<[src_connection_index_ s :=
             mkConnection (id c) (forward_channels c)
               (unwritten_carries_no_credit (GetCurrentCycle sim)
                  <$> reverse_channels c)]> conns).
Proof.
  intros Hc0. set (idx := src_connection_index_ s).
  set (g := unwritten_carries_no_credit (GetCurrentCycle sim)).
  assert (idx < length conns)%nat as Hidx by by eapply lookup_lt_Some.
  destruct (for_upto_total
              (λ k conns',
                 conns' = <[idx := mkConnection (id c) (forward_channels c)
                                     (imap (λ v r, if (v <? k)%nat then g r
                                                   else r)
                                        (reverse_channels c))]> conns)
              (length (reverse_channels c)) (no_credit_update sim s)
              (<[idx := c]> conns))
    as (conns' & -> & ->).
  - intros k conns' Hk ->.
    destruct (lookup_lt_is_Some_2 _ _ Hk) as [r Hr].
    unfold no_credit_update, GetSimConnectionByIndex, subscript.
    fold idx. rewrite list_lookup_insert_eq by done. simpl.
    rewrite list_lookup_imap, Hr. simpl.
    rewrite (proj2 (Nat.ltb_ge k k)) by lia.
    assert (<[k := g r]>
              (imap (λ v r0, if (v <? k)%nat then g r0 else r0)
                 (reverse_channels c))
            = imap (λ v r0, if (v <? S k)%nat then g r0 else r0)
                (reverse_channels c)) as Hnext.
    { apply list_eq. intros v.
      destruct (decide (k = v)) as [<-|Hne].
      - rewrite list_lookup_insert_eq by (by rewrite length_imap).
        rewrite list_lookup_imap, Hr. simpl.
        by rewrite (proj2 (Nat.ltb_lt k (S k))) by lia.
      - rewrite list_lookup_insert_ne by done.
        rewrite !list_lookup_imap.
        destruct (reverse_channels c !! v) as [r0|]; [|done]. simpl.
        destruct (Nat.ltb_spec v k), (Nat.ltb_spec v (S k)); try done; lia. }
    destruct (Z.eqb_spec (cycle r) (GetCurrentCycle sim)) as [Hst|Hst];
      (eexists; split; [reflexivity|]).
    + f_equal. f_equal. rewrite <- Hnext. symmetry. apply list_insert_id.
      rewrite list_lookup_imap, Hr. simpl.
      rewrite (proj2 (Nat.ltb_ge k k)) by lia.
      subst g. unfold unwritten_carries_no_credit.
      by rewrite (proj2 (Z.eqb_eq _ _) Hst).
    + rewrite (write_reverse_insert _ _ _ _ _ c0) by done.
      unfold set_reverse_channel. simpl. rewrite <- Hnext.
      subst g. unfold unwritten_carries_no_credit.
      by rewrite (proj2 (Z.eqb_neq _ _) Hst).
  - f_equal. destruct c as [n f rs]. simpl. f_equal.
    apply list_eq. intros v. rewrite list_lookup_imap.
    by destruct (rs !! v).
  - f_equal. f_equal. f_equal. apply list_eq. intros v.
    rewrite list_lookup_imap, list_lookup_fmap.
    destruct (reverse_channels c !! v) as [r|] eqn:Hv; [|done]. simpl.
    apply lookup_lt_Some in Hv.
    by rewrite (proj2 (Nat.ltb_lt _ _) Hv).
Qed.
End SinkReceives.

(** X9.  A sink in a cycle other than 0 whose connection exists.  While
    the forward channel of the connection does not carry the stamp of the
    cycle, the propagation reports failure and changes nothing.  A valid
    phit whose [vc] names no reverse channel of the connection is an
    access outside the vector.  Otherwise the propagation succeeds: a
    valid phit is appended to the received traffic with the stamp of the
    cycle, the reverse channel of its [vc] returns one credit, every other
    reverse channel that was not written in this cycle is stamped and
    carries no credit, and nothing else changes. *)
Theorem sink_receives (sim : SimulatorView) (s : SimNetworkInterfaceSink.t)
    (conns : Connections) (src : SimConnectionState) :
  GetCurrentCycle sim ≠ 0 →
  conns !! SimNetworkInterfaceSink.src_connection_index_ s = Some src →
  let cur := GetCurrentCycle sim in
  let arrived := phit (forward_channels src) in
  let vc := DataPhit.vc arrived in
  SimNetworkInterfaceSink.TryForwardPropagation sim s conns
  = if negb (cycle (forward_channels src) =? cur) then Done (false, s, conns)
    else if DataPhit.valid arrived
            && negb ((0 <=? vc)
                     && (vc <? Z.of_nat (length (reverse_channels src))))
    then Abort UndefinedAccess
    else
      Done
        (true,
         SimNetworkInterfaceSink.set_received_traffic
           (SimNetworkInterfaceSink.received_traffic_ s
            ++ (if DataPhit.valid arrived then [mkTimed cur arrived]
                else [])) s,
         <[SimNetworkInterfaceSink.src_connection_index_ s :=
             mkConnection (id src) (forward_channels src)
               (imap (λ v r,
                        if DataPhit.valid arrived && (Z.of_nat v =? vc)
                        then mkTimed cur (MetadataPhit.mk true 1)
                        else unwritten_carries_no_credit cur r)
                  (reverse_channels src))]> conns).
Proof.
  intros Hcycle Hsrc cur arrived vc.
  unfold SimNetworkInterfaceSink.TryForwardPropagation,
    GetSimConnectionByIndex, subscript.
  rewrite Hsrc. simpl. fold cur.
  destruct (cycle (forward_channels src) =? cur); [|done]. simpl.
  rewrite (proj2 (Z.eqb_neq cur 0)) by done.
  fold arrived. destruct (DataPhit.valid arrived) eqn:Hvalid; simpl.
  - fold vc. unfold subscriptZ, position, subscript.
    destruct (Z.ltb_spec vc 0) as [Hneg|Hpos].
    { by rewrite (proj2 (Z.leb_gt 0 vc)) by lia. }
    rewrite (proj2 (Z.leb_le 0 vc)) by lia. simpl.
    destruct (Z.ltb_spec vc (Z.of_nat (length (reverse_channels src))))
      as [Hlt|Hge]; simpl.
    2:{ by rewrite lookup_ge_None_2 by lia. }
    destruct (lookup_lt_is_Some_2 (reverse_channels src) (Z.to_nat vc))
      as [ch Hch]; [lia|].
    rewrite Hch. simpl.
    unfold write_reverse. rewrite (alter_insert _ _ _ src) by done.
    set (c := set_reverse_channel _ _ src).
    replace (length (reverse_channels src))
      with (length (reverse_channels c))
      by (subst c; simpl; apply length_insert).
    rewrite (no_credit_loop sim
               (SimNetworkInterfaceSink.set_received_traffic _ s) conns src c
               Hsrc).
    simpl. do 4 f_equal. apply list_eq. intros v.
    rewrite list_lookup_fmap, list_lookup_imap.
    destruct (decide (Z.to_nat vc = v)) as [<-|Hne].
    + rewrite list_lookup_insert_eq by by eapply lookup_lt_Some.
      rewrite Hch. simpl. rewrite Z2Nat.id, Z.eqb_refl by lia.
      unfold unwritten_carries_no_credit. simpl. fold cur.
      by rewrite Z.eqb_refl.
    + rewrite list_lookup_insert_ne by done.
      destruct (reverse_channels src !! v) as [r|]; [|done]. simpl.
      by rewrite (proj2 (Z.eqb_neq (Z.of_nat v) vc)) by lia.
  - rewrite <- (list_insert_id conns _ src Hsrc) at 1.
    rewrite (no_credit_loop sim s conns src src Hsrc). simpl.
    rewrite app_nil_r. f_equal. f_equal; [by destruct s|].
    do 2 f_equal. apply list_eq. intros v.
    by rewrite list_lookup_fmap, list_lookup_imap.
Qed.

(** A sink in cycle 4: a phit on channel 1 arrives; channel 0 was not
    written in this cycle. *)
Lemma sink_receives_witness :
  let sim := mkView 4 Examples.no_routes [] in
  let s := SimNetworkInterfaceSink.InitializeImpl (mkBase 7 3 3) [2; 2] 0 in
  let arrived := DataPhit.mk true 0 1 9 in
  let conns := [mkConnection 0 (mkTimed 4 arrived)
                  [mkTimed 3 (MetadataPhit.mk true 1);
                   mkTimed 3 (MetadataPhit.mk false 0)]] in
  SimNetworkInterfaceSink.TryForwardPropagation sim s conns
  = Done (true,
          SimNetworkInterfaceSink.set_received_traffic [mkTimed 4 arrived] s,
          [mkConnection 0 (mkTimed 4 arrived)
             [mkTimed 4 (MetadataPhit.mk false 0);
              mkTimed 4 (MetadataPhit.mk true 1)]]).
Proof.
  intros sim s arrived conns.
  refine (eq_trans (sink_receives sim s conns _ _ _) _).
  - simpl. lia.
  - reflexivity.
  - reflexivity.
Defined.

(** ** The router waits for its inputs *)

Section RouterWaits.
Import SimInputBufferedVCRouter.

Lemma can_propagate_forward_inv sim r conns inputs b :
  can_propagate_forward sim r conns inputs = Done b →
  b = true ↔
  ∀ i, i ∈ inputs →
    ∃ index,
      span_subscript sim (input_connection_index r) i = Done index
      ∧ fwd_stamped (GetCurrentCycle sim) conns index.
Proof.
  revert b. induction inputs as [|i rest IH]; simpl; intros b Hrun.
  - injection Hrun as <-. split; [|done]. intros _ i Hi.
    by apply elem_of_nil in Hi.
  - inv_res. rename x into index, x0 into input.
    unfold GetSimConnectionByIndex in H0. inv_res.
    destruct (Z.eqb_spec (cycle (forward_channels input))
                (GetCurrentCycle sim)) as [Hst|Hst].
    + apply IH in Hrun. split.
      * intros Hb j Hj. apply elem_of_cons in Hj as [->|Hj].
        -- exists index. split; [done|]. by exists input.
        -- by apply Hrun.
      * intros Hall. apply Hrun. intros j Hj. apply Hall. by right.
    + injection Hrun as <-. split; [done|]. intros Hall.
      destruct (Hall i) as (index' & Hindex' & input' & Hinput' & Hst');
        [by left|].
      congruence.
Qed.
End RouterWaits.

(** X10.  The forward propagation of a router succeeds exactly when the
    forward channel of each of its inputs carries the stamp of the cycle.
    When it reports failure it leaves every connection as it is; in the
    router nothing but the credit changes, to which the pending updates
    are added once in the cycle: the propagation that is tried again in
    the same state of the connections reports failure and changes
    nothing. *)
Theorem router_waits_for_inputs (sim : SimulatorView)
    (r r' : SimInputBufferedVCRouter.t) (conns conns' : Connections)
    (b : bool) :
  SimInputBufferedVCRouter.TryForwardPropagation sim r conns
  = Done (b, r', conns') →
  (b = true ↔
   ∀ i, (i < SimInputBufferedVCRouter.input_connection_count_ r)%nat →
     ∃ index,
       component_to_connection_index_ sim
         !! (SimInputBufferedVCRouter.input_connection_index_start_ r + i)%nat
       = Some index
       ∧ fwd_stamped (GetCurrentCycle sim) conns index)
  ∧ (b = false →
     conns' = conns
     ∧ RouterInv.credit_phase sim r r'
     ∧ SimInputBufferedVCRouter.input_buffers_ r'
       = SimInputBufferedVCRouter.input_buffers_ r
     ∧ SimInputBufferedVCRouter.input_credit_to_send_ r'
       = SimInputBufferedVCRouter.input_credit_to_send_ r
     ∧ SimInputBufferedVCRouter.credit_update_ r'
       = SimInputBufferedVCRouter.credit_update_ r
     ∧ SimInputBufferedVCRouter.base_ r' = SimInputBufferedVCRouter.base_ r
     ∧ SimInputBufferedVCRouter.TryForwardPropagation sim r' conns
       = Done (false, r', conns)).
Proof.
  intros Hrun.
  apply RouterForwardPhases.router_TryForwardPropagation_inv in Hrun
    as (r1 & Hcredit & Hrun).
  destruct (RouterForwardPhases.credit_phase_frame _ _ _ Hcredit)
    as ((Hbase & Hin & _) & Hbuffers & Hto_send & Hupdates).
  assert (SimInputBufferedVCRouter.input_connection_count_ r1
          = SimInputBufferedVCRouter.input_connection_count_ r
          ∧ SimInputBufferedVCRouter.input_connection_index_start_ r1
            = SimInputBufferedVCRouter.input_connection_index_start_ r)
    as [Hcount Hstart].
  { by injection Hin. }
  assert (∃ ready,
            SimInputBufferedVCRouter.can_propagate_forward sim r1 conns
              (seq 0 (SimInputBufferedVCRouter.input_connection_count_ r1))
            = Done ready ∧ b = ready) as (ready & Hcan & ->).
  { destruct Hrun as [(-> & _ & _ & Hcan)|(-> & Hcan & _)]; by eexists. }
  pose proof (can_propagate_forward_inv _ _ _ _ _ Hcan) as Hready.
  split.
  - rewrite Hready. split.
    + intros Hall i Hi. destruct (Hall i) as (index & Hindex & Hst).
      { apply elem_of_seq. lia. }
      apply RouterForward.span_subscript_Done in Hindex as [_ Hindex].
      simpl in Hindex. rewrite Hstart in Hindex. by exists index.
    + intros Hall i Hi. apply elem_of_seq in Hi.
      destruct (Hall i) as (index & Hindex & Hst); [lia|].
      exists index. split; [|done].
      apply RouterForward.span_subscript_Done. simpl.
      rewrite Hstart. split; [lia|done].
  - intros ->.
    destruct Hrun as [(_ & -> & -> & _)|(Hb & _)]; [|done].
    repeat split; try done.
    unfold SimInputBufferedVCRouter.TryForwardPropagation,
      SimInputBufferedVCRouter.prepare_arbitration.
    assert (SimInputBufferedVCRouter.internal_propagated_cycle_ r1
            = GetCurrentCycle sim) as ->.
    { by destruct Hcredit as [[? ->]|(_ & credit & _ & ->)]. }
    rewrite Z.eqb_refl. simpl. by rewrite Hcan.
Qed.

(** The second router of the ring at the start of cycle 0: its input is
    driven by a link that has not moved. *)
Lemma router_waits_for_inputs_witness :
  let s := NocSimulator.set_cycle 0 Examples.ring in
  ∃ r r',
    NocSimulator.routers_ s !! 1%nat = Some r
    ∧ SimInputBufferedVCRouter.TryForwardPropagation (NocSimulator.view s) r
        (NocSimulator.connections_ s)
      = Done (false, r', NocSimulator.connections_ s)
    ∧ SimInputBufferedVCRouter.TryForwardPropagation (NocSimulator.view s) r'
        (NocSimulator.connections_ s)
      = Done (false, r', NocSimulator.connections_ s).
Proof.
  intros s. eexists _, _. split; [reflexivity|].
  match goal with
  | |- ?run = Done (false, ?r', _) ∧ _ =>
      assert (run = Done (false, r', NocSimulator.connections_ s)) as Hrun
  end.
  { vm_compute. reflexivity. }
  split; [exact Hrun|].
  destruct (router_waits_for_inputs _ _ _ _ _ _ Hrun) as [_ Hfalse].
  exact (proj2 (proj2 (proj2 (proj2 (proj2 (proj2 (Hfalse eq_refl))))))).
Defined.

(** ** The order of the arbitration *)

Section ArbitrationOrder.
Import SimInputBufferedVCRouter.

Lemma ordered_app l1 l2 :
  priority_ordered l1 → priority_ordered l2 →
  (∀ p q, p ∈ l1 → q ∈ l2 → priority p q) →
  priority_ordered (l1 ++ l2).
Proof.
  intros H1 H2 H12 m n p q Hmn Hm Hn.
  apply lookup_app_Some in Hm as [Hm|[Hlm Hm]];
    apply lookup_app_Some in Hn as [Hn|[Hln Hn]].
  - by eapply H1.
  - eapply H12; by eapply list_elem_of_lookup_2.
  - apply lookup_lt_Some in Hn. lia.
  - eapply (H2 (m - length l1)%nat (n - length l1)%nat); [lia|done..].
Qed.

Lemma inputs_of_channel_ordered vc a n :
  priority_ordered (seq a n ≫= λ i, [(vc, i)]).
Proof.
  revert a. induction n as [|n IH]; intros a; simpl.
  - by intros m n' p q _ Hm.
  - apply (ordered_app [(vc, a)]); [|apply IH|].
    + intros [|m] [|n'] p q Hmn Hm Hn; try done; lia.
    + intros p q Hp Hq. apply list_elem_of_singleton in Hp as ->.
      apply list_elem_of_bind in Hq as (i & Hq & Hi).
      apply list_elem_of_singleton in Hq as ->.
      apply elem_of_seq in Hi. right. simpl. lia.
Qed.

Lemma channels_ordered a max_vc inputs :
  priority_ordered
    (seq a max_vc ≫= λ vc, seq 0 inputs ≫= λ i, [(vc, i)]).
Proof.
  revert a. induction max_vc as [|n IH]; intros a; simpl.
  - by intros m n' p q _ Hm.
  - apply ordered_app; [apply inputs_of_channel_ordered|apply IH|].
    intros p q Hp Hq.
    apply list_elem_of_bind in Hp as (i & Hp & Hi).
    apply list_elem_of_singleton in Hp as ->.
    apply list_elem_of_bind in Hq as (vc & Hq & Hvc).
    apply list_elem_of_bind in Hq as (j & Hq & Hj).
    apply list_elem_of_singleton in Hq as ->.
    apply elem_of_seq in Hvc. left. simpl. lia.
Qed.

Lemma arbitration_order_elem max_vc inputs vc i :
  (vc, i) ∈ arbitration_order max_vc inputs ↔
  (vc < max_vc)%nat ∧ (i < inputs)%nat.
Proof.
  unfold arbitration_order. rewrite list_elem_of_bind. split.
  - intros (vc' & Hin & Hvc).
    apply list_elem_of_bind in Hin as (i' & Hin & Hi).
    apply list_elem_of_singleton in Hin as [= -> ->].
    apply elem_of_seq in Hvc, Hi. lia.
  - intros [Hvc Hi]. exists vc. split; [|apply elem_of_seq; lia].
    apply list_elem_of_bind. exists i.
    split; [by apply list_elem_of_singleton|apply elem_of_seq; lia].
Qed.

Lemma arbitration_order_NoDup max_vc inputs :
  NoDup (arbitration_order max_vc inputs).
Proof.
  unfold arbitration_order.
  apply NoDup_bind; [| |apply NoDup_seq].
  - intros vc1 vc2 p _ _ H1 H2.
    apply list_elem_of_bind in H1 as (i1 & H1 & _).
    apply list_elem_of_bind in H2 as (i2 & H2 & _).
    apply list_elem_of_singleton in H1, H2. congruence.
  - intros vc _. apply NoDup_bind; [| |apply NoDup_seq].
    + intros i1 i2 p _ _ H1 H2.
      apply list_elem_of_singleton in H1, H2. congruence.
    + intros i _. apply NoDup_singleton.
Qed.

Lemma max_vc_spec (ins : list (list Z)) (a vc : nat) :
  (vc < foldl (λ (max_vc : nat) (depths : list Z),
                 if (max_vc <? length depths)%nat then length depths
                 else max_vc) a ins)%nat ↔
  (vc < a)%nat ∨ ∃ depths, depths ∈ ins ∧ (vc < length depths)%nat.
Proof.
  revert a. induction ins as [|depths ins IH]; intros a; simpl.
  - split; [by left|]. intros [?|(depths & Hin & _)]; [done|].
    by apply elem_of_nil in Hin.
  - rewrite IH. split.
    + intros [Hvc|(depths' & Hin & Hvc)].
      * destruct (Nat.ltb_spec a (length depths)); [|by left].
        right. exists depths. split; [by left|done].
      * right. exists depths'. split; [by right|done].
    + intros [Hvc|(depths' & Hin & Hvc)].
      * left. destruct (Nat.ltb_spec a (length depths)); lia.
      * apply elem_of_cons in Hin as [->|Hin].
        -- left. destruct (Nat.ltb_spec a (length depths)); lia.
        -- right. by exists depths'.
Qed.
End ArbitrationOrder.

(** X11.  In a router as [InitializeImpl] builds it, the arbitration
    visits the positions in the order of their priority, the least
    channel first and among the inputs of a channel the least input, and
    it visits the position of channel [vc] of an input exactly when the
    input exists and [vc] is a channel of some input: the buffer of every
    channel of every input is visited, once. *)
Theorem arbitration_visits_by_priority (b : SimNetworkComponentBase)
    (input_start output_start : nat) (input_depths : list (list Z))
    (output_vc_counts : list nat) (current_cycle : Z) :
  let r := SimInputBufferedVCRouter.InitializeImpl b input_start input_depths
             output_start output_vc_counts current_cycle in
  let order :=
    SimInputBufferedVCRouter.arbitration_order
      (SimInputBufferedVCRouter.max_vc_ r)
      (length (SimInputBufferedVCRouter.input_buffers_ r)) in
  (∀ m n p q, (m < n)%nat → order !! m = Some p → order !! n = Some q →
              priority p q)
  ∧ (∀ vc i,
       (vc, i) ∈ order ↔
       (i < length (SimInputBufferedVCRouter.input_buffers_ r))%nat
       ∧ ∃ j row buffer,
           SimInputBufferedVCRouter.input_buffers_ r !! j = Some row
           ∧ row !! vc = Some buffer)
  ∧ NoDup order.
Proof.
  intros r order. split; [|split].
  - apply channels_ordered.
  - intros vc i. subst order. rewrite arbitration_order_elem.
    subst r. simpl. rewrite max_vc_spec. split.
    + intros [[Hvc|(depths & Hin & Hvc)] Hi]; [lia|]. split; [done|].
      apply list_elem_of_lookup in Hin as [j Hj].
      destruct (lookup_lt_is_Some_2 depths vc Hvc) as [depth Hdepth].
      exists j, (InputBuffer.mk [] <$> depths), (InputBuffer.mk [] depth).
      rewrite !list_lookup_fmap, Hj. simpl.
      by rewrite Hdepth.
    + intros (Hi & j & row & buffer & Hj & Hvc). split; [|done]. right.
      rewrite list_lookup_fmap in Hj.
      destruct (input_depths !! j) as [depths|] eqn:Hdepths; [|done].
      injection Hj as <-. exists depths.
      split; [by eapply list_elem_of_lookup_2|].
      apply lookup_lt_Some in Hvc. by rewrite length_fmap in Hvc.
  - apply arbitration_order_NoDup.
Qed.

(** ** The phits of a router in a forward propagation *)

Section RouterPhits.
Import SimInputBufferedVCRouter RouterInv RouterPhits.

(** "Reset credits to send on reverse channel to 0". *)
Lemma reset_credit_loop n to_send to_send' :
  for_upto n reset_credit_to_send to_send = Done to_send' →
  ∀ i vc t, (i < n)%nat → entry to_send i vc = Some t →
            entry to_send' i vc = Some 0.
Proof.
  intros Hrun.
  assert (∀ i vc t, entry to_send i vc = Some t →
            entry to_send' i vc = Some (if (i <? n)%nat then 0 else t))
    as Hall.
  { revert Hrun.
    apply (for_upto_ind
             (λ k ts, ∀ i vc t, entry to_send i vc = Some t →
                entry ts i vc = Some (if (i <? k)%nat then 0 else t))).
    - intros k ts ts' Hk IH Hstep i vc t Ht.
      unfold reset_credit_to_send in Hstep. inv_res.
      rename x into row, H into Hrow.
      specialize (IH i vc t Ht). unfold entry in *.
      destruct (decide (i = k)) as [->|Hne].
      + rewrite (proj2 (Nat.ltb_lt k (S k))) by lia.
        rewrite (proj2 (Nat.ltb_ge k k)) in IH by lia.
        rewrite Hrow in IH.
        rewrite list_lookup_insert_eq by (by eapply lookup_lt_Some).
        apply lookup_replicate_2. by eapply lookup_lt_Some.
      + rewrite list_lookup_insert_ne by done.
        destruct (Nat.ltb_spec i k), (Nat.ltb_spec i (S k)); try done;
          lia.
    - done. }
  intros i vc t Hi Ht. rewrite (Hall i vc t Ht).
  by rewrite (proj2 (Nat.ltb_lt i n)).
Qed.

(** The reception of the phits: the phit of input [i] enters the buffer
    of its channel at the tail. *)
Lemma receive_phit_loop sim r conns n buffers buffers' :
  for_upto n (receive_phit sim r conns) buffers = Done buffers' →
  ∀ i vc buffer, (i < n)%nat → entry buffers i vc = Some buffer →
    ∃ buffer1,
      entry buffers' i vc = Some buffer1
      ∧ InputBuffer.max_queue_size buffer1
        = InputBuffer.max_queue_size buffer
      ∧ InputBuffer.queue buffer1
        = InputBuffer.queue buffer
          ++ arrived sim (input_connection_index_start_ r) conns i vc.
Proof.
  intros Hrun.
  assert (∀ i vc buffer, entry buffers i vc = Some buffer →
            ∃ buffer1,
              entry buffers' i vc = Some buffer1
              ∧ InputBuffer.max_queue_size buffer1
                = InputBuffer.max_queue_size buffer
              ∧ InputBuffer.queue buffer1
                = InputBuffer.queue buffer
                  ++ (if (i <? n)%nat
                      then arrived sim (input_connection_index_start_ r)
                             conns i vc
                      else [])) as Hall.
  { revert Hrun.
    apply (for_upto_ind
             (λ k bs, ∀ i vc buffer, entry buffers i vc = Some buffer →
                ∃ buffer1,
                  entry bs i vc = Some buffer1
                  ∧ InputBuffer.max_queue_size buffer1
                    = InputBuffer.max_queue_size buffer
                  ∧ InputBuffer.queue buffer1
                    = InputBuffer.queue buffer
                      ++ (if (i <? k)%nat
                          then arrived sim (input_connection_index_start_ r)
                                 conns i vc
                          else []))).
    - intros k bs bs' Hk IH Hstep i vc buffer Hbuffer.
      destruct (IH i vc buffer Hbuffer) as (buffer1 & H1 & Hmax & Hqueue).
      unfold receive_phit in Hstep. inv_res.
      rename x into index, x0 into input.
      apply RouterForward.span_subscript_Done in H as [_ Hindex].
      simpl in Hindex.
      unfold GetSimConnectionByIndex in H0. inv_res.
      rename H0 into Hinput.
      assert (arrived sim (input_connection_index_start_ r) conns k vc
              = if DataPhit.valid (phit (forward_channels input))
                   && (DataPhit.vc (phit (forward_channels input))
                       =? Z.of_nat vc)
                then [phit (forward_channels input)] else []) as Harrived.
      { unfold arrived. by rewrite Hindex, Hinput. }
      destruct (decide (i = k)) as [->|Hne].
      2:{ assert ((i <? S k)%nat = (i <? k)%nat) as ->.
          { destruct (Nat.ltb_spec i k), (Nat.ltb_spec i (S k)); try done;
              lia. }
          destruct (DataPhit.valid (phit (forward_channels input)));
            inv_res; [|by exists buffer1].
          exists buffer1. split; [|done].
          rewrite entry_insert_ne; [done..|]. congruence. }
      rewrite (proj2 (Nat.ltb_lt k (S k))) by lia.
      rewrite (proj2 (Nat.ltb_ge k k)), app_nil_r in Hqueue by lia.
      rewrite Harrived.
      destruct (DataPhit.valid (phit (forward_channels input))); inv_res;
        simpl.
      2:{ exists buffer1. by rewrite app_nil_r. }
      rename x into row, x0 into target.
      rename H into Hrow, H2 into Hpos, H0 into Htarget.
      destruct (decide (vc = Z.to_nat
                               (DataPhit.vc (phit (forward_channels input)))))
        as [->|Hvc].
      + rewrite Z2Nat.id, Z.eqb_refl by done.
        assert (buffer1 = target) as ->.
        { unfold entry in H1. rewrite Hrow in H1. congruence. }
        eexists. split; [by eapply entry_insert_eq|]. simpl.
        split; [done|]. by rewrite Hqueue.
      + rewrite (proj2 (Z.eqb_neq _ _)) by lia.
        exists buffer1. rewrite app_nil_r. split; [|done].
        rewrite entry_insert_ne; [done..|]. congruence.
    - intros i vc buffer Hbuffer. exists buffer. by rewrite app_nil_r. }
  intros i vc buffer Hi Hbuffer.
  destruct (Hall i vc buffer Hbuffer) as (buffer1 & H1 & Hmax & Hqueue).
  exists buffer1. by rewrite (proj2 (Nat.ltb_lt i n)) in Hqueue.
Qed.

Lemma accounted_refl sim leaving st : accounted sim leaving st st.
Proof.
  intros i vc buffer t Hbuffer Ht. exists buffer, [].
  simpl. rewrite Z.add_0_r. repeat split; try done; [lia|].
  intros p Hp. by apply elem_of_nil in Hp.
Qed.

Lemma arbitrate_accounted sim pos st st' :
  arbitrate sim pos st = Done st' → accounted sim [pos] st st'.
Proof.
  destruct st as [r conns], st' as [r' conns']. intros Hrun.
  apply RouterForward.arbitrate_inv in Hrun as [[-> ->]|Hfwd];
    [apply accounted_refl|].
  destruct Hfwd as (buffers_i & buffer0 & phit & popped & output
                    & credit_row & credit & out_index & output_state
                    & to_send_row & to_send & Hrow & Hbuffer0 & Hqueue
                    & _ & _ & _ & _ & _ & _ & _ & Hout & _ & Hto_row
                    & Hto_send & -> & ->).
  destruct pos as [vc0 i0]. simpl in *.
  intros i vc buffer t Hbuffer Ht. simpl in *.
  destruct (decide ((i0, vc0) = (i, vc))) as [[= <- <-]|Hne].
  - assert (buffer = buffer0) as ->.
    { unfold entry in Hbuffer. rewrite Hrow in Hbuffer. congruence. }
    assert (t = to_send) as ->.
    { unfold entry in Ht. rewrite Hto_row in Ht. congruence. }
    exists (InputBuffer.set_queue popped buffer0), [phit].
    split; [by eapply entry_insert_eq|]. split; [done|].
    split; [done|]. split; [by eapply entry_insert_eq|].
    split; [simpl; lia|]. split.
    { intros Hnot. destruct Hnot. by apply list_elem_of_singleton. }
    intros p Hp. apply list_elem_of_singleton in Hp as ->.
    exists out_index,
      (set_forward_channels
         (mkTimed (GetCurrentCycle sim)
            (DataPhit.set_vc (vc_index output)
               (DataPhit.set_valid true phit))) output_state),
      (vc_index output).
    split; [|done].
    unfold write_forward. by rewrite list_lookup_alter_eq, Hout.
  - exists buffer, []. simpl. rewrite Z.add_0_r.
    rewrite !entry_insert_ne by done.
    repeat split; try done; [lia|].
    intros p Hp. by apply elem_of_nil in Hp.
Qed.

Lemma arbitrations_accounted sim order st st' :
  NoDup order → for_each order (arbitrate sim) st = Done st' →
  accounted sim order st st'.
Proof.
  revert st. induction order as [|pos rest IH]; simpl; intros st Hnodup Hrun.
  - injection Hrun as <-. apply accounted_refl.
  - apply bind_Done in Hrun as (st1 & Hstep & Hrun).
    pose proof (NoDup_cons_1_1 _ _ Hnodup) as Hpos.
    pose proof (NoDup_cons_1_2 _ _ Hnodup) as Hrest.
    pose proof (arbitrate_accounted _ _ _ _ Hstep) as H1.
    pose proof (IH _ Hrest Hrun) as H2.
    intros i vc buffer t Hbuffer Ht.
    destruct (H1 i vc buffer t Hbuffer Ht)
      as (buffer1 & sent1 & Hb1 & Hmax1 & Hq1 & Ht1 & Hlen1 & Hnot1 & Hon1).
    destruct (H2 i vc buffer1 _ Hb1 Ht1)
      as (buffer2 & sent2 & Hb2 & Hmax2 & Hq2 & Ht2 & Hlen2 & Hnot2 & Hon2).
    exists buffer2, (sent1 ++ sent2).
    split; [done|]. split; [congruence|].
    split; [by rewrite Hq1, Hq2, app_assoc|].
    split; [rewrite Ht2, length_app; f_equal; lia|].
    assert (sent1 = [] ∨ sent2 = []) as Hone.
    { destruct (decide ((vc, i) = pos)) as [<-|Hne].
      - right. by apply Hnot2.
      - left. apply Hnot1. intros Hin.
        by apply list_elem_of_singleton in Hin. }
    split.
    { destruct Hone as [-> | ->]; [done|]. by rewrite app_nil_r. }
    split.
    { intros Hnot. rewrite Hnot1, Hnot2; [done|..].
      - intros Hin. apply Hnot. by right.
      - intros Hin. apply Hnot. apply list_elem_of_singleton in Hin.
        rewrite Hin. by left. }
    intros p Hp. apply elem_of_app in Hp as [Hp|Hp]; [|by apply Hon2].
    destruct (Hon1 p Hp) as (j & c & vc_out & Hj & Hc).
    exists j, c, vc_out. split; [|done].
    eapply RouterForward.arbitrations_stamped; [done| |done].
    by rewrite Hc.
Qed.

(** The bubbles leave the channels that were written. *)
Lemma fill_bubbles_stamped sim r n conns conns' j c :
  conns !! j = Some c →
  cycle (forward_channels c) = GetCurrentCycle sim →
  for_upto n (fill_bubble sim r) conns = Done conns' →
  conns' !! j = Some c.
Proof.
  intros Hj Hstamp.
  apply (for_upto_inv (λ conns1, conns1 !! j = Some c)); [|done].
  intros k conns1 conns2 _ Hj1 Hstep.
  unfold fill_bubble in Hstep. inv_res. rename x into index, x0 into output.
  unfold GetSimConnectionByIndex in H0. inv_res.
  destruct (Z.eqb_spec (cycle (forward_channels output))
              (GetCurrentCycle sim)); inv_res; [done|].
  unfold write_forward. rewrite list_lookup_alter_ne; [done|].
  intros ->. congruence.
Qed.
End RouterPhits.

(** X12.  A forward propagation of a router that succeeds neither drops
    nor reorders a phit.  For channel [vc] of an input [i]: the phit that
    arrives on the connection of the input is queued behind the phits that
    the buffer holds; at most one phit, the head of that queue, leaves the
    buffer, and the buffer keeps the rest in order; the credit to send
    upstream counts the phits that have left; and the phit that has left
    is, valid and with its data and destination, on the forward channel
    of a connection with the stamp of the cycle. *)
Theorem router_accounts_for_phits (sim : SimulatorView)
    (r r' : SimInputBufferedVCRouter.t) (conns conns' : Connections)
    (i vc : nat) (buffer : InputBuffer.t) (to_send : Z) :
  SimInputBufferedVCRouter.TryForwardPropagation sim r conns
  = Done (true, r', conns') →
  (i < SimInputBufferedVCRouter.input_connection_count_ r)%nat →
  entry (SimInputBufferedVCRouter.input_buffers_ r) i vc = Some buffer →
  entry (SimInputBufferedVCRouter.input_credit_to_send_ r) i vc
  = Some to_send →
  ∃ buffer' sent,
    entry (SimInputBufferedVCRouter.input_buffers_ r') i vc = Some buffer'
    ∧ InputBuffer.max_queue_size buffer' = InputBuffer.max_queue_size buffer
    ∧ InputBuffer.queue buffer
      ++ arrived sim (SimInputBufferedVCRouter.input_connection_index_start_ r)
           conns i vc
      = sent ++ InputBuffer.queue buffer'
    ∧ (length sent ≤ 1)%nat
    ∧ entry (SimInputBufferedVCRouter.input_credit_to_send_ r') i vc
      = Some (Z.of_nat (length sent))
    ∧ ∀ p, p ∈ sent →
        ∃ j c vc_out,
          conns' !! j = Some c
          ∧ forward_channels c
            = mkTimed (GetCurrentCycle sim)
                (DataPhit.set_vc vc_out (DataPhit.set_valid true p)).
Proof.
  intros Hrun Hi Hbuffer Hto_send.
  apply RouterForwardPhases.router_TryForwardPropagation_inv in Hrun
    as (r1 & Hcredit & [(Hb & _)|(_ & _ & to_send0 & buffers & r4 & conns4
                                  & Hreset & Hreceive & Harb & Hfill & ->)]);
    [done|].
  destruct (RouterForwardPhases.credit_phase_frame _ _ _ Hcredit)
    as ((_ & Hin & _) & Hbuffers & Hto_send1 & _).
  assert (SimInputBufferedVCRouter.input_connection_count_ r1
          = SimInputBufferedVCRouter.input_connection_count_ r
          ∧ SimInputBufferedVCRouter.input_connection_index_start_ r1
            = SimInputBufferedVCRouter.input_connection_index_start_ r)
    as [Hcount Hstart].
  { by injection Hin. }
  rewrite Hcount in Hreset, Hreceive. rewrite Hto_send1 in Hreset.
  rewrite Hbuffers in Hreceive.
  pose proof (reset_credit_loop _ _ _ Hreset i vc to_send Hi Hto_send)
    as Hzero.
  destruct (receive_phit_loop _ _ _ _ _ _ Hreceive i vc buffer Hi Hbuffer)
    as (buffer1 & Hbuffer1 & Hmax1 & Hqueue1).
  simpl in Hqueue1. rewrite Hstart in Hqueue1.
  unfold SimInputBufferedVCRouter.arbitration in Harb.
  pose proof (arbitrations_accounted _ _ _ _ (arbitration_order_NoDup _ _)
                Harb) as Hacc.
  destruct (Hacc i vc buffer1 0 Hbuffer1 Hzero)
    as (buffer' & sent & Hbuffer' & Hmax' & Hqueue' & Hto_send' & Hlen & _
        & Hon).
  exists buffer', sent. simpl in *.
  split; [done|]. split; [congruence|].
  split; [by rewrite <- Hqueue1, Hqueue'|].
  split; [done|]. split; [done|].
  intros p Hp. destruct (Hon p Hp) as (j & c & vc_out & Hj & Hc).
  exists j, c, vc_out. split; [|done].
  eapply fill_bubbles_stamped; [done| |done]. by rewrite Hc.
Qed.

(** The contended router: both inputs hold a phit for output 0; the phit
    of input 0 leaves, the one of input 1 stays. *)
Lemma router_accounts_for_phits_witness :
  ∃ r' conns',
    SimInputBufferedVCRouter.TryForwardPropagation Examples.contended_view
      Examples.contended_router Examples.contended_connections
    = Done (true, r', conns')
    ∧ (∃ buffer' sent,
         entry (SimInputBufferedVCRouter.input_buffers_ r') 0 0 = Some buffer'
         ∧ [DataPhit.mk true 0 0 10] = sent ++ InputBuffer.queue buffer'
         ∧ entry (SimInputBufferedVCRouter.input_credit_to_send_ r') 0 0
           = Some (Z.of_nat (length sent)))
    ∧ entry (SimInputBufferedVCRouter.input_buffers_ r') 0 0
      = Some (InputBuffer.mk [] 2)
    ∧ entry (SimInputBufferedVCRouter.input_buffers_ r') 1 0
      = Some (InputBuffer.mk [DataPhit.mk true 0 0 11] 2).
Proof.
  eexists _, _.
  match goal with
  | |- ?run = Done (true, ?r', ?conns') ∧ _ =>
      assert (run = Done (true, r', conns')) as Hrun
  end.
  { vm_compute. reflexivity. }
  split; [exact Hrun|]. split; [|split; reflexivity].
  destruct (router_accounts_for_phits _ _ _ _ _ 0 0
              (InputBuffer.mk [DataPhit.mk true 0 0 10] 2) 0 Hrun)
    as (buffer' & sent & Hbuffer' & _ & Hqueue & _ & Hto_send & _);
    [simpl; lia|reflexivity|reflexivity|].
  exists buffer', sent. split; [exact Hbuffer'|].
  split; [exact Hqueue|exact Hto_send].
Defined.

(** ** The credit that a router returns *)

(** X13.  The reverse propagation of a router runs only after its forward
    propagation has succeeded in the cycle: before that it reports failure
    and changes nothing.  After it, in a cycle other than 0 and with one
    connection for each input, every reverse channel of every input
    carries, valid and with the stamp of the cycle, the credit to send
    that the forward propagation has counted for the channel, whether or
    not the credit from downstream has arrived. *)
Theorem router_returns_credit (sim : SimulatorView)
    (r r' : SimInputBufferedVCRouter.t) (conns conns' : Connections)
    (b : bool) :
  GetCurrentCycle sim ≠ 0 →
  RouterInv.inputs_distinct sim
    (SimInputBufferedVCRouter.input_connection_index r) →
  SimInputBufferedVCRouter.TryReversePropagation sim r conns
  = Done (b, r', conns') →
  if forward_propagated_cycle_ (SimInputBufferedVCRouter.base_ r)
     =? GetCurrentCycle sim
  then
    ∀ i, (i < SimInputBufferedVCRouter.input_connection_count_ r)%nat →
      ∃ index input,
        component_to_connection_index_ sim
          !! (SimInputBufferedVCRouter.input_connection_index_start_ r + i)%nat
        = Some index
        ∧ conns !! index = Some input
        ∧ ∀ v, (v < length (reverse_channels input))%nat →
            ∃ sent,
              entry (SimInputBufferedVCRouter.input_credit_to_send_ r) i v
              = Some sent
              ∧ rev_channel conns' index v
                  (mkTimed (GetCurrentCycle sim) (MetadataPhit.mk true sent))
  else b = false ∧ r' = r ∧ conns' = conns.
Proof.
  intros Hcycle Hdistinct Hrun.
  apply RouterReverse.router_TryReversePropagation_inv in Hrun
    as [(Hmark & -> & -> & ->)|(Hmark & Hsend & _)].
  { by rewrite (proj2 (Z.eqb_neq _ _) Hmark). }
  rewrite (proj2 (Z.eqb_eq _ _) Hmark).
  apply RouterReverse.send_credits_published in Hsend; [|done].
  intros i Hi.
  destruct (Hsend i Hi) as (index & input & Hindex & Hinput & Hsent).
  exists index, input. split; [done|]. split; [done|].
  intros v Hv. destruct (Hsent v Hv) as (t & (data & -> & Hdata) & Hch).
  rewrite (proj2 (Z.eqb_neq _ _) Hcycle) in Hdata.
  destruct Hdata as (row & Hrow & Hdata).
  exists data. split; [|done]. unfold entry. by rewrite Hrow.
Qed.

(** The contended router after its forward propagation: input 0 has sent
    its phit and returns one credit, input 1 returns none. *)
Lemma router_returns_credit_witness :
  let sim := Examples.contended_view in
  let r := contended_after_forward.1 in
  let conns := contended_after_forward.2 in
  ∃ b r' conns',
    SimInputBufferedVCRouter.TryReversePropagation sim r conns
    = Done (b, r', conns')
    ∧ rev_channel conns' 0 0 (mkTimed 1 (MetadataPhit.mk true 1))
    ∧ rev_channel conns' 1 0 (mkTimed 1 (MetadataPhit.mk true 0)).
Proof.
  intros sim r conns. eexists _, _, _.
  match goal with
  | |- ?run = Done (?b, ?r', ?conns') ∧ _ =>
      assert (run = Done (b, r', conns')) as Hrun
  end.
  { vm_compute. reflexivity. }
  split; [exact Hrun|].
  assert (RouterInv.inputs_distinct sim
            (SimInputBufferedVCRouter.input_connection_index r))
    as Hdistinct.
  { intros [|[|i]] [|[|j]] index Hi Hj Hindex Hindex'; simpl in *;
      try done; try lia; congruence. }
  pose proof (router_returns_credit sim r _ conns _ _ ltac:(done) Hdistinct
                Hrun) as Hcredit.
  change (forward_propagated_cycle_ (SimInputBufferedVCRouter.base_ r)
          =? GetCurrentCycle sim) with true in Hcredit.
  split.
  - destruct (Hcredit 0%nat ltac:(simpl; lia))
      as (index & input & [= <-] & [= <-] & Hsent).
    destruct (Hsent 0%nat ltac:(simpl; lia)) as (sent & [= <-] & Hch).
    exact Hch.
  - destruct (Hcredit 1%nat ltac:(simpl; lia))
      as (index & input & [= <-] & [= <-] & Hsent).
    destruct (Hsent 0%nat ltac:(simpl; lia)) as (sent & [= <-] & Hch).
    exact Hch.
Defined.

(** ** The credit that a router receives *)

Section RouterCredit.
Import SimInputBufferedVCRouter.
Context (sim : SimulatorView) (r : t) (conns : Connections).

Local Abbreviation channel := (RouterCreditInv.channel sim r conns).
Local Abbreviation taken := (RouterCreditInv.taken sim).
Local Abbreviation visited := RouterCreditInv.visited.
Local Abbreviation inv := (RouterCreditInv.inv sim r conns).

Lemma receive_credit_step index output k w row0 st st' :
  component_to_connection_index_ sim
    !! (output_connection_index_start_ r + k)%nat = Some index →
  conns !! index = Some output →
  credit_update_ r !! k = Some row0 → (w < length row0)%nat →
  inv k w st → receive_credit sim output k w st = Done st' →
  inv k (S w) st'.
Proof.
  intros Hindex Houtput Hrow0 Hw (Hshape & Hentries & Hle & Hall) Hstep.
  destruct st as [[num possible] updates]. simpl in *.
  destruct (lookup_lt_is_Some_2 row0 w Hw) as [u0 Hu0].
  assert (entry (credit_update_ r) k w = Some u0) as Hentry0.
  { unfold entry. by rewrite Hrow0. }
  assert (entry updates k w = Some u0) as Hcurrent.
  { apply (Hentries k w u0 Hentry0). unfold RouterCreditInv.visited. lia. }
  assert (∀ i v, (i, v) ≠ (k, w) → visited k (S w) i v ↔ visited k w i v)
    as Hother.
  { intros i v Hne. unfold RouterCreditInv.visited.
    assert (¬ (i = k ∧ v = w)) by (intros [-> ->]; done). lia. }
  unfold receive_credit in Hstep. inv_res.
  rename x into pc, H into Hpc.
  assert (channel k w pc) as Hchannel by (by exists index, output).
  assert (∀ p, channel k w p → p = pc) as Hfun.
  { intros p (index' & output' & Hi' & Ho' & Hp'). congruence. }
  destruct (Z.eqb_spec (cycle pc) (GetCurrentCycle sim)) as [Hst|Hst];
    inv_res.
  - rename x into row, x0 into u, H into Hrow, H0 into Hu.
    assert (u = u0) as ->.
    { unfold entry in Hcurrent. rewrite Hrow in Hcurrent. congruence. }
    set (updates1 := if CreditState.cycle u0 =? GetCurrentCycle sim
                     then updates else _).
    assert (entry updates1 k w = Some (taken u0 pc)
            ∧ (∀ i v, (i, v) ≠ (k, w) →
                      entry updates1 i v = entry updates i v)
            ∧ length <$> updates1 = length <$> updates)
      as (Hnew & Hrest & Hshape1).
    { subst updates1. unfold RouterCreditInv.taken.
      rewrite (proj2 (Z.eqb_eq _ _) Hst). simpl.
      destruct (CreditState.cycle u0 =? GetCurrentCycle sim); simpl.
      - done.
      - split; [by eapply entry_insert_eq|].
        split; [intros i v Hne; by apply entry_insert_ne|].
        rewrite list_fmap_insert, length_insert.
        apply list_insert_id. by rewrite list_lookup_fmap, Hrow. }
    unfold RouterCreditInv.inv. simpl.
    split; [by rewrite Hshape1|]. split; [|split].
    + intros i v u Hentry.
      destruct (decide ((i, v) = (k, w))) as [[= -> ->]|Hne].
      * assert (u = u0) as -> by congruence.
        split; [|unfold RouterCreditInv.visited; lia]. intros _. by exists pc.
      * rewrite Hrest, Hother by done. by apply Hentries.
    + lia.
    + split.
      * intros Heq i v u p Hvis Hentry Hp.
        destruct (decide ((i, v) = (k, w))) as [[= -> ->]|Hne].
        -- by rewrite (Hfun p Hp).
        -- apply Hother in Hvis; [|done].
           eapply (proj1 Hall); [lia|done..].
      * intros Hstamped. f_equal. apply Hall.
        intros i v u p Hvis. apply Hstamped.
        unfold RouterCreditInv.visited in *. lia.
  - unfold RouterCreditInv.inv. simpl. split; [done|]. split; [|split].
    + intros i v u Hentry.
      destruct (decide ((i, v) = (k, w))) as [[= -> ->]|Hne].
      * assert (u = u0) as -> by congruence.
        split; [|unfold RouterCreditInv.visited; lia]. intros _. exists pc.
        split; [done|]. unfold RouterCreditInv.taken.
        by rewrite (proj2 (Z.eqb_neq _ _) Hst).
      * rewrite Hother by done. by apply Hentries.
    + lia.
    + split; [lia|]. intros Hstamped. destruct Hst.
      apply (Hstamped k w u0 pc); [unfold RouterCreditInv.visited; lia|done..].
Qed.

Lemma receive_credits_step k st st' :
  inv k 0 st → receive_credits sim r conns k st = Done st' →
  inv (S k) 0 st'.
Proof.
  intros Hinv Hstep. unfold receive_credits in Hstep. inv_res.
  rename x into index, x0 into output, x1 into row.
  apply RouterForward.span_at_Done in H as (_ & _ & Hindex).
  rewrite Nat2Z.id in Hindex. simpl in Hindex.
  unfold GetSimConnectionByIndex in H0. inv_res.
  rename H0 into Houtput, H1 into Hrow.
  assert (∃ row0, credit_update_ r !! k = Some row0
                  ∧ length row0 = length row) as (row0 & Hrow0 & Hlen).
  { destruct Hinv as (Hshape & _).
    assert ((length <$> credit_update_ r) !! k = Some (length row)) as Hl.
    { by rewrite <- Hshape, list_lookup_fmap, Hrow. }
    rewrite list_lookup_fmap in Hl.
    destruct (credit_update_ r !! k) as [row0|]; [|done].
    exists row0. split; [done|]. by injection Hl. }
  apply (for_upto_ind (λ w s, inv k w s)) in Hstep; [| |done].
  2:{ intros w s s' Hw Hs Hbody.
      eapply receive_credit_step; [done..|lia|done|done]. }
  destruct Hstep as (Hshape & Hentries & Hle & Hall).
  assert (∀ i v u, entry (credit_update_ r) i v = Some u →
            visited (S k) 0 i v ↔ visited k (length row) i v) as Hsame.
  { intros i v u Hentry. unfold RouterCreditInv.visited. split; [|lia].
    intros [Hi|[_ ?]]; [|lia].
    destruct (decide (i = k)) as [->|]; [|lia]. right. split; [done|].
    unfold entry in Hentry. rewrite Hrow0 in Hentry.
    apply lookup_lt_Some in Hentry. lia. }
  split; [done|]. split; [|split; [done|]].
  - intros i v u Hentry. rewrite (Hsame i v u Hentry).
    by apply Hentries.
  - rewrite Hall. split.
    + intros Hstamped i v u p Hvis Hentry.
      apply (Hstamped i v u p); [|done]. by apply (Hsame i v u).
    + intros Hstamped i v u p Hvis Hentry.
      apply (Hstamped i v u p); [|done]. by apply (Hsame i v u).
Qed.

Lemma receive_credits_loop st :
  for_upto (length (credit_update_ r)) (receive_credits sim r conns)
    (0, 0, credit_update_ r) = Done st →
  length <$> st.2 = length <$> credit_update_ r
  ∧ (∀ i v u, entry (credit_update_ r) i v = Some u →
       ∃ p, channel i v p ∧ entry st.2 i v = Some (taken u p))
  ∧ (st.1.1 = st.1.2 ↔
     ∀ i v u p, entry (credit_update_ r) i v = Some u → channel i v p →
                cycle p = GetCurrentCycle sim).
Proof.
  intros Hrun.
  apply (for_upto_ind (λ k s, inv k 0 s)) in Hrun.
  - destruct Hrun as (Hshape & Hentries & _ & Hall).
    assert (∀ i v u, entry (credit_update_ r) i v = Some u →
              visited (length (credit_update_ r)) 0 i v) as Hvis.
    { intros i v u Hentry. left. unfold entry in Hentry.
      destruct (credit_update_ r !! i) eqn:Hi; [|done].
      by eapply lookup_lt_Some. }
    split; [done|]. split.
    + intros i v u Hentry. apply Hentries; [done|]. by eapply Hvis.
    + rewrite Hall. split.
      * intros Hstamped i v u p Hentry.
        apply (Hstamped i v u p); [|done]. by eapply Hvis.
      * intros Hstamped i v u p _. apply Hstamped.
  - intros k s s' _. apply receive_credits_step.
  - split; [done|]. split; [|split; [done|]].
    + intros i v u Hentry. split; [|done]. unfold RouterCreditInv.visited. lia.
    + split; [|done]. intros _ i v u p Hvis.
      unfold RouterCreditInv.visited in Hvis. lia.
Qed.
End RouterCredit.

(** X14.  In the reverse propagation of a router after its forward
    propagation, nothing of the router changes but the credit updates,
    and they keep their shape.  The update of channel [v] of output [i]
    is taken from the reverse channel [v] of the connection of the output,
    a credit that is not valid counting as 0, when the reverse channel
    carries the stamp of the cycle and the update has not been taken in
    this cycle; else it stays.  The propagation succeeds exactly when
    each of these reverse channels carries the stamp of the cycle. *)
Theorem router_receives_credit (sim : SimulatorView)
    (r r' : SimInputBufferedVCRouter.t) (conns conns' : Connections)
    (b : bool) :
  forward_propagated_cycle_ (SimInputBufferedVCRouter.base_ r)
  = GetCurrentCycle sim →
  SimInputBufferedVCRouter.TryReversePropagation sim r conns
  = Done (b, r', conns') →
  r' = SimInputBufferedVCRouter.set_credit_update
         (SimInputBufferedVCRouter.credit_update_ r') r
  ∧ length <$> SimInputBufferedVCRouter.credit_update_ r'
    = length <$> SimInputBufferedVCRouter.credit_update_ r
  ∧ (∀ i v u,
       entry (SimInputBufferedVCRouter.credit_update_ r) i v = Some u →
       ∃ index output p,
         component_to_connection_index_ sim
           !! (SimInputBufferedVCRouter.output_connection_index_start_ r
               + i)%nat = Some index
         ∧ conns' !! index = Some output
         ∧ reverse_channels output !! v = Some p
         ∧ entry (SimInputBufferedVCRouter.credit_update_ r') i v
           = Some (if (cycle p =? GetCurrentCycle sim)
                      && negb (CreditState.cycle u =? GetCurrentCycle sim)
                   then received_credit (GetCurrentCycle sim) p
                   else u))
  ∧ (b = true ↔
     ∀ i v u index output p,
       entry (SimInputBufferedVCRouter.credit_update_ r) i v = Some u →
       component_to_connection_index_ sim
         !! (SimInputBufferedVCRouter.output_connection_index_start_ r
             + i)%nat = Some index →
       conns' !! index = Some output →
       reverse_channels output !! v = Some p →
       cycle p = GetCurrentCycle sim).
Proof.
  intros Hmark Hrun.
  unfold SimInputBufferedVCRouter.TryReversePropagation in Hrun.
  rewrite (proj2 (Z.eqb_eq _ _) Hmark) in Hrun. inv_res.
  rename x into conns1. destruct x0 as [[num possible] updates].
  apply receive_credits_loop in H0 as (Hshape & Hentries & Hall).
  simpl in *.
  assert (b = (possible =? num) ∧ conns' = conns1
          ∧ r' = SimInputBufferedVCRouter.set_credit_update updates r)
    as (-> & -> & ->).
  { destruct (possible =? num); by inv_res. }
  simpl. split; [done|]. split; [done|]. split.
  - intros i v u Hentry.
    destruct (Hentries i v u Hentry)
      as (p & (index & output & Hindex & Houtput & Hp) & Hnew).
    by exists index, output, p.
  - rewrite Z.eqb_eq. split.
    + intros Heq i v u index output p Hentry Hindex Houtput Hp.
      apply (proj1 Hall) with i v u; [done..|]. by exists index, output.
    + intros Hstamped. symmetry. apply Hall.
      intros i v u p Hentry (index & output & Hindex & Houtput & Hp).
      by eapply Hstamped.
Qed.

(** The contended router after its forward propagation: the reverse
    channel of its output has the stamp of cycle 0, the propagation
    reports failure and the update stays. *)
Lemma router_receives_credit_witness :
  let sim := Examples.contended_view in
  let r := contended_after_forward.1 in
  let conns := contended_after_forward.2 in
  ∃ r' conns',
    SimInputBufferedVCRouter.TryReversePropagation sim r conns
    = Done (false, r', conns')
    ∧ r' = SimInputBufferedVCRouter.set_credit_update
             (SimInputBufferedVCRouter.credit_update_ r') r
    ∧ length <$> SimInputBufferedVCRouter.credit_update_ r'
      = length <$> SimInputBufferedVCRouter.credit_update_ r
    ∧ entry (SimInputBufferedVCRouter.credit_update_ r') 0 0
      = Some (CreditState.mk 0 0).
Proof.
  intros sim r conns. eexists _, _.
  match goal with
  | |- ?run = Done (false, ?r', ?conns') ∧ _ =>
      assert (run = Done (false, r', conns')) as Hrun
  end.
  { vm_compute. reflexivity. }
  split; [exact Hrun|].
  destruct (router_receives_credit sim r _ conns _ _ eq_refl Hrun)
    as (Hframe & Hshape & _).
  split; [exact Hframe|]. split; [exact Hshape|reflexivity].
Defined.
